(** * PhotoVerse: adapters, guided sampling loop and checkpoint loading

    A shallow embedding of [models/adapters.py], [models/infer.py] and
    [models/modeling_utils.py].  Python exceptions are values of [exn]
    carried by the [result] monad; tensors are nested lists over an abstract
    scalar type whose arithmetic is a parameter (no algebraic law is assumed
    unless a statement has it as a hypothesis); the integers and the binary64
    floating-point numbers are the instances used in the examples. *)

From Stdlib Require Import ZArith List String Ascii Bool Lia.
From Stdlib Require Import Floats.PrimFloat Numbers.Cyclic.Int63.Uint63.
From stdpp Require Import base option list strings pretty gmap.

Local Open Scope string_scope.
Local Open Scope nat_scope.
Local Open Scope list_scope.

(** ** Exceptions and the error monad *)

Inductive exn :=
| TypeError (msg : string)
| AttributeError (name : string)
| IndexError (msg : string)
| RuntimeError (msg : string)
| ZeroDivisionError (msg : string)
| ExternalError (msg : string).

Inductive result (A : Type) :=
| Ok (a : A)
| Raise (e : exn).
Arguments Ok {A} a.
Arguments Raise {A} e.

#[global] Instance result_ret : MRet result := fun _ a => Ok a.
#[global] Instance result_bind : MBind result := fun _ _ f m =>
  match m with Ok a => f a | Raise e => Raise e end.
#[global] Instance result_fmap : FMap result := fun _ _ f m =>
  match m with Ok a => Ok (f a) | Raise e => Raise e end.

Definition is_ok {A} (r : result A) : bool :=
  match r with Ok _ => true | Raise _ => false end.

(** ** Scalars

    The element type of tensors.  The operations are those the layers of
    [torch.nn] use; [ssum] is the reduction of a list of scalars (its order
    of evaluation is the runtime's), [sdec m e] is the literal [m * 10^e]. *)

Class ScalarOps (scalar : Type) := {
  szero : scalar;
  sone : scalar;
  sadd : scalar -> scalar -> scalar;
  ssub : scalar -> scalar -> scalar;
  smul : scalar -> scalar -> scalar;
  sdiv : scalar -> scalar -> scalar;
  ssqrt : scalar -> scalar;
  smax : scalar -> scalar -> scalar;
  smin : scalar -> scalar -> scalar;
  ssum : list scalar -> scalar;
  sof_nat : nat -> scalar;
  sdec : Z -> Z -> scalar;
  sis_zero : scalar -> bool
}.

(** ** models/adapters.py *)

(** A vector, and a tensor of shape (batch, sequence, width). *)
Abbreviation Vec A := (list A).
Abbreviation Tensor3 A := (list (list (list A))).

Section Adapters.
Context {scalar : Type} {ops : ScalarOps scalar}.
#[local] Abbreviation vec := (Vec scalar).
#[local] Abbreviation tensor3 := (Tensor3 scalar).

Definition has_shape (b s d : nat) (t : tensor3) : bool :=
  (length t =? b)%nat &&
  forallb (fun row => (length row =? s)%nat &&
                      forallb (fun v : vec => (length v =? d)%nat) row) t.

(** Every vector of the tensor has width [n]. *)
Definition all_width (n : nat) (x : tensor3) : Prop :=
  Forall (Forall (λ v : vec, length v = n)) x.

(** An embedding of one layer: [b] batch elements, each with a CLS position
    and at least one patch position, all of width [d]. *)
Definition embedding_shape (b d : nat) (emb : tensor3) : Prop :=
  length emb = b ∧
  Forall (λ row, 2 ≤ length row ∧ Forall (λ v : vec, length v = d) row) emb.

(** A tensor with one position per batch element, of width [d]. *)
Definition token_shape (b d : nat) (t : tensor3) : Prop :=
  length t = b ∧ Forall (λ row, ∃ v : vec, row = [v] ∧ length v = d) t.

(** The positions of batch element [bi]. *)
Definition row_at (bi : nat) (t : tensor3) : list vec :=
  match t !! bi with Some r => r | None => [] end.

Definition batch_size (t : tensor3) : nat := length t.
Definition width (t : tensor3) : nat :=
  match t with
  | (v :: _) :: _ => length v
  | _ => 0%nat
  end.

(** [emb[:, :k]] and [emb[:, k:]] *)
Definition slice_upto (k : nat) (t : tensor3) : tensor3 := map (take k) t.
Definition slice_from (k : nat) (t : tensor3) : tensor3 := map (drop k) t.

(** *** Layers of [torch.nn] *)

Record Linear := {
  in_features : nat;
  out_features : nat;
  weight : nat -> nat -> scalar;   (* weight[o][j], shape (out, in) *)
  bias : nat -> scalar
}.

Record LayerNorm := {
  normalized_shape : nat;
  ln_weight : nat -> scalar;
  ln_bias : nat -> scalar;
  ln_eps : scalar
}.

Record LeakyReLU := { negative_slope : scalar }.

Inductive Layer :=
| LLinear (l : Linear)
| LLayerNorm (l : LayerNorm)
| LLeakyReLU (l : LeakyReLU).

(** [nn.Sequential]: the layers in order. *)
#[local] Abbreviation Sequential := (list Layer).

(** y_o = sum_j x_j * weight[o][j] + bias[o] *)
Definition linear_fn (l : Linear) (x : vec) : vec :=
  map (fun o => sadd (ssum (imap (fun j xj => smul xj (weight l o j)) x)) (bias l o))
      (seq 0 (out_features l)).

Definition vmean (x : vec) : scalar := sdiv (ssum x) (sof_nat (length x)).

Definition layer_norm_fn (l : LayerNorm) (x : vec) : vec :=
  let mu := vmean x in
  let var := vmean (map (fun xi => smul (ssub xi mu) (ssub xi mu)) x) in
  imap (fun i xi =>
          sadd (smul (sdiv (ssub xi mu) (ssqrt (sadd var (ln_eps l)))) (ln_weight l i))
               (ln_bias l i)) x.

Definition leaky_relu_fn (l : LeakyReLU) (x : vec) : vec :=
  map (fun xi => sadd (smax szero xi) (smul (negative_slope l) (smin szero xi))) x.

Definition layer_fn (l : Layer) (x : vec) : vec :=
  match l with
  | LLinear l => linear_fn l x
  | LLayerNorm l => layer_norm_fn l x
  | LLeakyReLU l => leaky_relu_fn l x
  end.

(** The width a layer demands of the last axis, if it demands one. *)
Definition layer_in (l : Layer) : option nat :=
  match l with
  | LLinear l => Some (in_features l)
  | LLayerNorm l => Some (normalized_shape l)
  | LLeakyReLU _ => None
  end.

Definition layer_vec (l : Layer) (x : vec) : result vec :=
  match layer_in l with
  | Some n =>
      if (length x =? n)%nat then Ok (layer_fn l x)
      else Raise (RuntimeError "shape mismatch on the last axis")
  | None => Ok (layer_fn l x)
  end.

(** A layer acts on the last axis of a (batch, sequence, width) tensor. *)
Definition layer_call (l : Layer) (x : tensor3) : result tensor3 :=
  mapM (mapM (layer_vec l)) x.

Fixpoint sequential_call (s : Sequential) (x : tensor3) : result tensor3 :=
  match s with
  | [] => Ok x
  | m :: s' => y ← layer_call m x; sequential_call s' y
  end.

(** The same network as a function on one vector, without the checks. *)
Definition sequential_fn (s : Sequential) (x : vec) : vec :=
  foldl (fun x l => layer_fn l x) x s.

(** *** Tensor operations used by [forward] *)

Definition col_means (m : list vec) : vec :=
  match m with
  | [] => []
  | r :: _ => map (fun k => vmean (map (fun row => nth k row szero) m))
                  (seq 0 (length r))
  end.

(** [t.mean(dim=1, keepdim=True)], for a tensor with at least one position
    along dim 1.  (A nested list with no position does not carry its width,
    so the row of not-a-number values that torch returns for the mean over
    no position is not represented; the statements below take embeddings
    with a CLS position and at least one patch position.) *)
Definition mean_dim1 (t : tensor3) : tensor3 := map (fun m => [col_means m]) t.

Definition vadd (x y : vec) : vec := zip_with sadd x y.

Definition same_shape (a b : tensor3) : bool :=
  (length a =? length b)%nat &&
  forallb (fun '(ra, rb) =>
             (length ra =? length rb)%nat &&
             forallb (fun '(va, vb) => (length (va : vec) =? length (vb : vec))%nat)
                     (zip ra rb))
          (zip a b).

(** [a + b] for tensors of one shape (broadcasting between different shapes
    is not modelled: it raises). *)
Definition tensor_add (a b : tensor3) : result tensor3 :=
  if same_shape a b then Ok (zip_with (zip_with vadd) a b)
  else Raise (RuntimeError "tensor sizes must match").

Definition cat_rows (ts : list tensor3) : tensor3 :=
  match ts with
  | [] => []
  | t0 :: rest => foldl (zip_with app) t0 rest
  end.

(** [torch.cat(ts, dim=1)] *)
Definition cat_dim1 (ts : list tensor3) : result tensor3 :=
  match ts with
  | [] => Raise (RuntimeError "torch.cat(): expected a non-empty list of Tensors")
  | t0 :: _ =>
      if forallb (fun t => (batch_size t =? batch_size t0)%nat &&
                           (width t =? width t0)%nat) ts
      then Ok (cat_rows ts)
      else Raise (RuntimeError "Sizes of tensors must match except in dimension 1")
  end.

(** *** PhotoVerseAdapter *)

(** The registered sub-modules of the [nn.Module], by attribute name. *)
Record PhotoVerseAdapter := { modules : gmap string Sequential }.

Definition setattr (self : PhotoVerseAdapter) (name : string) (m : Sequential)
  : PhotoVerseAdapter :=
  {| modules := <[name := m]> (modules self) |}.

Definition getattr (self : PhotoVerseAdapter) (name : string) : result Sequential :=
  match modules self !! name with
  | Some m => Ok m
  | None => Raise (AttributeError name)
  end.

(** f'mapping_{i}' and f'mapping_patch_{i}' *)
Definition mapping_name (i : nat) : string := "mapping_" +:+ pretty i.
Definition mapping_patch_name (i : nat) : string := "mapping_patch_" +:+ pretty i.

Definition hidden_width : nat := 1024.

(** Initial parameter values of the [nn.Linear] layers, by module name and
    position in the [nn.Sequential]. *)
Record Init := {
  init_weight : string -> nat -> nat -> nat -> scalar;
  init_bias : string -> nat -> nat -> scalar
}.

Definition nn_Linear (w : Init) (name : string) (pos : nat) (i o : nat) : Layer :=
  LLinear {| in_features := i; out_features := o;
             weight := init_weight w name pos; bias := init_bias w name pos |}.

Definition nn_LayerNorm (n : nat) : Layer :=
  LLayerNorm {| normalized_shape := n; ln_weight := fun _ => sone;
                ln_bias := fun _ => szero; ln_eps := sdec 1 (-5) |}.

Definition nn_LeakyReLU : Layer := LLeakyReLU {| negative_slope := sdec 1 (-2) |}.

Definition mapping_net (w : Init) (name : string) (clip_embedding_dim cross_attention_dim : nat)
  : Sequential :=
  [ nn_Linear w name 0 clip_embedding_dim hidden_width;
    nn_LayerNorm hidden_width;
    nn_LeakyReLU;
    nn_Linear w name 3 hidden_width hidden_width;
    nn_LayerNorm hidden_width;
    nn_LeakyReLU;
    nn_Linear w name 6 hidden_width cross_attention_dim ].

Definition init_step (w : Init) (clip_embedding_dim cross_attention_dim : nat)
  (self : PhotoVerseAdapter) (i : nat) : PhotoVerseAdapter :=
  let self := setattr self (mapping_name i)
                (mapping_net w (mapping_name i) clip_embedding_dim cross_attention_dim) in
  setattr self (mapping_patch_name i)
    (mapping_net w (mapping_patch_name i) clip_embedding_dim cross_attention_dim).

Definition PhotoVerseAdapter_init (w : Init)
  (clip_embedding_dim cross_attention_dim num_tokens : nat) : PhotoVerseAdapter :=
  foldl (init_step w clip_embedding_dim cross_attention_dim)
        {| modules := ∅ |} (seq 0 num_tokens).

(** [getattr(self, f'mapping_{i}')(emb[:, :1])
      + getattr(self, f'mapping_patch_{i}')(emb[:, 1:]).mean(dim=1, keepdim=True)],
    evaluated left to right. *)
Definition hidden_state_of (self : PhotoVerseAdapter) (i : nat) (emb : tensor3)
  : result tensor3 :=
  g ← getattr self (mapping_name i);
  a ← sequential_call g (slice_upto 1 emb);
  p ← getattr self (mapping_patch_name i);
  b ← sequential_call p (slice_from 1 emb);
  tensor_add a (mean_dim1 b).

(** The iterations of [for i, emb in enumerate(embs)] from index [i]. *)
Fixpoint forward_loop (self : PhotoVerseAdapter) (i : nat) (embs : list tensor3)
  (hidden_states : list tensor3) : result (list tensor3) :=
  match embs with
  | [] => Ok hidden_states
  | emb :: rest =>
      hidden_state ← hidden_state_of self i emb;
      forward_loop self (S i) rest (hidden_states ++ [hidden_state])
  end.

Definition forward (self : PhotoVerseAdapter) (embs : list tensor3) : result tensor3 :=
  hidden_states ← forward_loop self 0 embs [];
  cat_dim1 hidden_states.

(** *** Shapes through a network *)

Definition layer_out (l : Layer) (n : nat) : nat :=
  match l with
  | LLinear l => out_features l
  | _ => n
  end.

Definition layer_accepts (l : Layer) (n : nat) : bool :=
  match layer_in l with
  | Some k => (n =? k)%nat
  | None => true
  end.

(** The width a network gives to vectors of width [n], if every layer
    accepts what it is given. *)
Fixpoint sequential_width (s : Sequential) (n : nat) : option nat :=
  match s with
  | [] => Some n
  | l :: s' => if layer_accepts l n then sequential_width s' (layer_out l n) else None
  end.

(** An adapter with the attributes and the layer widths that
    [PhotoVerseAdapter(clip_embedding_dim, cross_attention_dim, num_tokens)]
    registers; the parameter values are free. *)
Definition adapter_wf (clip_embedding_dim cross_attention_dim num_tokens : nat)
  (self : PhotoVerseAdapter) : Prop :=
  ∀ i : nat,
    (i < num_tokens →
       ∃ g p, modules self !! mapping_name i = Some g ∧
              modules self !! mapping_patch_name i = Some p ∧
              sequential_width g clip_embedding_dim = Some cross_attention_dim ∧
              sequential_width p clip_embedding_dim = Some cross_attention_dim) ∧
    (num_tokens ≤ i →
       modules self !! mapping_name i = None ∧
       modules self !! mapping_patch_name i = None).

(** Token [i] in the words of the specification: for every batch element,
    the global branch at the CLS position plus the mean over the spatial
    positions of the patch branch. *)
Definition token_spec (g p : Sequential) (emb : tensor3) : tensor3 :=
  map (fun row => [vadd (sequential_fn g (hd [] row))
                        (col_means (sequential_fn p <$> tl row))]) emb.

Definition global_branch (self : PhotoVerseAdapter) (i : nat) : Sequential :=
  match modules self !! mapping_name i with Some m => m | None => [] end.
Definition patch_branch (self : PhotoVerseAdapter) (i : nat) : Sequential :=
  match modules self !! mapping_patch_name i with Some m => m | None => [] end.

(** The tokens of the layers [i], [i+1], ... for the embeddings [embs]. *)
Definition tokens_from (self : PhotoVerseAdapter) (i : nat) (embs : list tensor3)
  : list tensor3 :=
  imap (fun k emb => token_spec (global_branch self (i + k)) (patch_branch self (i + k)) emb)
       embs.

(** The forward contract in the words of the specification: the tokens of
    all layers, concatenated along the sequence axis in layer-index order. *)
Definition forward_spec (self : PhotoVerseAdapter) (embs : list tensor3) : tensor3 :=
  cat_rows (tokens_from self 0 embs).

End Adapters.

(** ** models/infer.py *)

(** A dense tensor of any rank: its shape and its elements in row-major
    order.  Used for pixel values, latents and noise. *)
Record ndarray {scalar : Type} := { shape : list nat; data : list scalar }.
Arguments ndarray scalar : clear implicits.

(** What a call through [nn.Module.__call__] needs to know of a module: the
    formal parameters of its [forward] after [self] (parameters beyond the
    first are taken to have defaults; a [**kwargs] parameter is not
    represented), and its body. *)
Record Module_ {scalar : Type} := {
  qualname : string;
  formals : list string;
  body : list (list (list (list scalar))) -> Z -> result (list (list (list scalar)))
}.
Arguments Module_ scalar : clear implicits.

Definition timestep := Z.
Definition token_ids := list (list Z).

Inductive stream := TextStream | ImageStream.
Inductive branch := Unconditional | Conditional.

Section Infer.
Context {scalar : Type} {ops : ScalarOps scalar}.

#[local] Abbreviation tensor3 := (Tensor3 scalar).
#[local] Abbreviation ndarray := (ndarray scalar).
#[local] Abbreviation Module_ := (Module_ scalar).

(** *** Element-wise arithmetic on [ndarray] *)

(** The number of elements of an array of shape [s], and the arrays whose
    data has that many elements. *)
Definition numel (s : list nat) : nat := fold_right Nat.mul 1 s.


(** Broadcasting: two shapes are aligned at the last axis, and two sizes
    agree when they are equal or one of them is 1.  [broadcast_rev] and
    [source_index] take shapes last axis first. *)
Fixpoint broadcast_rev (s1 s2 : list nat) : option (list nat) :=
  match s1, s2 with
  | [], _ => Some s2
  | _, [] => Some s1
  | d1 :: r1, d2 :: r2 =>
      match broadcast_rev r1 r2 with
      | Some r =>
          if (d1 =? d2)%nat then Some (d1 :: r)
          else if (d1 =? 1)%nat then Some (d2 :: r)
          else if (d2 =? 1)%nat then Some (d1 :: r)
          else None
      | None => None
      end
  end.

Definition broadcast_shapes (s1 s2 : list nat) : option (list nat) :=
  match broadcast_rev (rev s1) (rev s2) with
  | Some r => Some (rev r)
  | None => None
  end.

(** The position in the row-major data of an array of shape [src] that
    position [k] of the broadcast shape [out] reads. *)
Fixpoint source_index (out src : list nat) (k : nat) : nat :=
  match out, src with
  | d :: out', ds :: src' =>
      (if (ds =? 1)%nat then 0 else k mod d) + ds * source_index out' src' (k / d)
  | _, _ => 0
  end.

(** [x.expand(out)] *)
Definition expand (out : list nat) (x : ndarray) : list scalar :=
  omap (fun k => data x !! source_index (rev out) (rev (shape x)) k)
       (seq 0 (numel out)).

Definition nd_zip (f : scalar -> scalar -> scalar) (a b : ndarray) : result ndarray :=
  match broadcast_shapes (shape a) (shape b) with
  | Some s => Ok {| shape := s; data := zip_with f (expand s a) (expand s b) |}
  | None =>
      Raise (RuntimeError "The size of tensor a must match the size of tensor b")
  end.

Definition nd_add := nd_zip sadd.
Definition nd_sub := nd_zip ssub.

(** [x * s] and [s * x] for a Python number or 0-d tensor [s] *)
Definition nd_mul_r (x : ndarray) (s : scalar) : ndarray :=
  {| shape := shape x; data := map (fun v => smul v s) (data x) |}.
Definition nd_mul_l (s : scalar) (x : ndarray) : ndarray :=
  {| shape := shape x; data := map (fun v => smul s v) (data x) |}.

Definition zeros_like (x : ndarray) : ndarray :=
  {| shape := shape x; data := map (fun _ => szero) (data x) |}.

(** [a / b] for Python floats *)
Definition py_div (a b : scalar) : result scalar :=
  if sis_zero b then Raise (ZeroDivisionError "float division by zero")
  else Ok (sdiv a b).


(** [x.clamp(lo, hi)] *)
Definition clamp (lo hi : scalar) (x : ndarray) : ndarray :=
  {| shape := shape x; data := map (fun v => smin (smax v lo) hi) (data x) |}.

(** [x.shape[0]] *)
Definition shape0 (x : ndarray) : result nat :=
  match shape x with
  | n :: _ => Ok n
  | [] => Raise (IndexError "tuple index out of range")
  end.

(** *** The collaborators *)

Record Tokenizer := {
  model_max_length : nat;
  (* tokenizer(prompts, padding="max_length", max_length=n, return_tensors="pt").input_ids *)
  tokenize : list string -> nat -> result token_ids
}.

(** Output of the vision encoder with [output_hidden_states=True]; the
    source reads component 0 and component 2. *)
Record ImageEncoderOutput := {
  last_hidden_state : tensor3;
  pooler_output : list (list scalar);
  hidden_states : list tensor3
}.

(** The dict given to the patched text encoder. *)
Record TextEncoderInput := {
  text_input_ids : token_ids;
  concept_text_embeddings : option tensor3;
  concept_placeholder_idx : option (list Z)
}.

Record UNet := {
  in_channels : nat;
  (* unet(latent_model_input, t, encoder_hidden_states=(text, image)).sample *)
  unet_call : ndarray -> timestep -> tensor3 * tensor3 -> result ndarray
}.

(** The global random number generator of the runtime. *)
Record RngLib := {
  rng : Type;
  seed_state : Z -> rng;                          (* state after torch.manual_seed *)
  randn : list nat -> rng -> ndarray * rng        (* torch.randn(shape) *)
}.

Record VAE {R : RngLib} := {
  scaling_factor : scalar;
  (* vae.encode(x).latent_dist.sample() *)
  encode_sample : ndarray -> rng R -> result ndarray * rng R;
  (* vae.decode(z).sample *)
  decode : ndarray -> result ndarray
}.
Arguments VAE R : clear implicits.

(** [DPMSolverMultistepScheduler]: [sched] is the state of one scheduler
    object (timesteps and the solver's history). *)
Record SchedulerLib := {
  sched : Type;
  sched_config : Type;
  from_config : sched_config -> result sched;
  set_timesteps : Z -> sched -> result sched;
  sched_timesteps : sched -> list timestep;
  init_noise_sigma : sched -> scalar;
  scale_model_input : sched -> ndarray -> timestep -> ndarray;
  add_noise : sched -> ndarray -> ndarray -> list timestep -> result ndarray;
  (* scheduler.step(noise_pred, t, latents).prev_sample, and the new state *)
  step : sched -> ndarray -> timestep -> ndarray -> result (ndarray * sched)
}.

(** The [example] dict: the keys the function indexes are fields, the key it
    reads with [.get(..., None)] is optional. *)
Record Example := {
  pixel_values : ndarray;
  pixel_values_clip : ndarray;
  ex_text_input_ids : token_ids;
  ex_concept_placeholder_idx : list Z;
  negative_text_input_ids : option token_ids
}.

(** *** Observable calls *)

Inductive event :=
| EvTokenizer (prompts : list string) (max_length : nat)
| EvManualSeed (seed : Z)
| EvRandn (shp : list nat)
| EvVaeEncode (x : ndarray)
| EvImageEncoder (x : ndarray)
| EvAdapter (s : stream) (embs : list tensor3) (token_index : Z)
| EvTextEncoder (inp : TextEncoderInput)
| EvUNet (i : nat) (grad_enabled : bool) (b : branch)
         (latent_model_input : ndarray) (t : timestep) (text_h image_h : tensor3)
| EvSchedulerStep (i : nat) (t : timestep)
| EvVaeDecode (z : ndarray).

Context (R : RngLib) (Sch : SchedulerLib).

Record St := { st_rng : rng R; st_log : list event }.

(** Computations that may raise, read and advance the global generator and
    are observed through the log of calls. *)
Definition M (A : Type) : Type := St -> result A * St.

Definition ret {A} (a : A) : M A := fun st => (Ok a, st).
Definition bind {A B} (m : M A) (f : A -> M B) : M B := fun st =>
  match m st with
  | (Ok a, st') => f a st'
  | (Raise e, st') => (Raise e, st')
  end.
Definition lift {A} (r : result A) : M A := fun st => (r, st).
Definition log (ev : event) : M unit := fun st =>
  (Ok tt, {| st_rng := st_rng st; st_log := st_log st ++ [ev] |}).
Definition with_rng {A} (f : rng R -> A * rng R) : M A := fun st =>
  let '(a, g) := f (st_rng st) in (Ok a, {| st_rng := g; st_log := st_log st |}).
Definition with_rng_result {A} (f : rng R -> result A * rng R) : M A := fun st =>
  let '(a, g) := f (st_rng st) in (a, {| st_rng := g; st_log := st_log st |}).
Definition set_rng (g : rng R) : M unit := fun st =>
  (Ok tt, {| st_rng := g; st_log := st_log st |}).

#[global] Instance M_ret : MRet M := @ret.
#[global] Instance M_bind : MBind M := fun _ _ f m => bind m f.

(** *** Calling an adapter: [adapter(embs, token_index=k)]

    [nn.Module.__call__] forwards its arguments to [forward]; the keyword
    must name a formal parameter that the positional argument has not
    taken. *)
Definition bind_keyword (qualname : string) (fs : list string) (kw : string)
  : result unit :=
  match fs with
  | [] => Raise (TypeError (qualname +:+ "() got an unexpected keyword argument '"
                            +:+ kw +:+ "'"))
  | f :: rest =>
      if bool_decide (kw ∈ rest) then Ok tt
      else if bool_decide (kw = f)
      then Raise (TypeError (qualname +:+ "() got multiple values for argument '"
                             +:+ kw +:+ "'"))
      else Raise (TypeError (qualname +:+ "() got an unexpected keyword argument '"
                             +:+ kw +:+ "'"))
  end.

Definition call_adapter (s : stream) (m : Module_) (embs : list tensor3) (token_index : Z)
  : M tensor3 :=
  log (EvAdapter s embs token_index);;
  lift (bind_keyword (qualname m) (formals m) "token_index");;
  lift (body m embs token_index).

(** A [PhotoVerseAdapter] instance as a callable: [def forward(self, embs)]. *)
Definition PhotoVerseAdapter_module (a : @PhotoVerseAdapter scalar) : Module_ :=
  {| qualname := "PhotoVerseAdapter.forward";
     formals := ["embs"];
     body := fun embs _ => forward a embs |}.

(** *** Selecting the layers *)

(** [l[i]] for a Python int [i] *)
Definition py_index {A} (l : list A) (i : Z) : result A :=
  let n := Z.of_nat (length l) in
  let j := if (i <? 0)%Z then (n + i)%Z else i in
  if ((0 <=? j)%Z && (j <? n)%Z)%bool then
    match l !! Z.to_nat j with
    | Some x => Ok x
    | None => Raise (IndexError "tuple index out of range")
    end
  else Raise (IndexError "tuple index out of range").

(** [[features[0]] + [features[2][i] for i in idx if i < len(features[2])]] *)
Definition select_embeddings (features : ImageEncoderOutput) (idx : list Z)
  : result (list tensor3) :=
  rest ← mapM (py_index (hidden_states features))
              (filter (fun i => (i < Z.of_nat (length (hidden_states features)))%Z) idx);
  Ok (last_hidden_state features :: rest).

(** *** run_inference

    [device], [disable_tqdm], [.to(device)], [.detach()] and [.clone()] do
    not change values and are left out. *)

Section RunInference.
Context (example : Example) (tokenizer : Tokenizer)
        (image_encoder : ndarray -> result ImageEncoderOutput)
        (text_encoder : TextEncoderInput -> result tensor3)
        (unet : UNet) (text_adapter image_adapter : Module_) (vae : VAE R)
        (scheduler : sched_config Sch) (image_encoder_layers_idx : list Z)
        (latent_size : nat) (guidance_scale : scalar) (timesteps : Z)
        (token_index : Z) (seed : option Z) (from_noised_image training_mode : bool).

(** What the lines before the adapter calls have computed. *)
Record Prepared := {
  p_scheduler : sched Sch;
  p_uncond_input_ids : token_ids;
  p_latents : ndarray;
  p_image_embeddings : list tensor3;
  p_uncond_image_embeddings : list tensor3
}.

(** The four embedding streams. *)
Record Conditioning := {
  c_uncond_embeddings : tensor3;
  c_uncond_encoder_hidden_states_image : tensor3;
  c_encoder_hidden_states : tensor3;
  c_encoder_hidden_states_image : tensor3
}.

Definition make_uncond_input_ids : M token_ids :=
  match negative_text_input_ids example with
  | None =>
      n ← lift (shape0 (pixel_values example));
      log (EvTokenizer (replicate n "") (model_max_length tokenizer));;
      lift (tokenize tokenizer (replicate n "") (model_max_length tokenizer))
  | Some ids => mret ids
  end.

Definition noise_shape (n : nat) : list nat :=
  [n; in_channels unet; latent_size; latent_size].

Definition make_noise : M ndarray :=
  match seed with
  | None =>
      n ← lift (shape0 (pixel_values example));
      log (EvRandn (noise_shape n));;
      with_rng (randn R (noise_shape n))
  | Some s =>
      log (EvManualSeed s);;
      set_rng (seed_state R s);;
      n ← lift (shape0 (pixel_values example));
      log (EvRandn (noise_shape n));;
      with_rng (randn R (noise_shape n))
  end.

Definition make_latents (scheduler : sched Sch) (noise : ndarray) : M ndarray :=
  if from_noised_image then
    log (EvVaeEncode (pixel_values example));;
    latents ← with_rng_result (encode_sample vae (pixel_values example));
    let latents := nd_mul_r latents (scaling_factor vae) in
    n ← lift (shape0 latents);
    lift (add_noise Sch scheduler latents noise
            (mjoin (replicate n (take 1 (sched_timesteps Sch scheduler)))))
  else mret noise.

(** From the noise to the two lists of layer embeddings. *)
Definition prepare_inputs (scheduler : sched Sch) (uncond_input_ids : token_ids)
  : M Prepared :=
  noise ← make_noise;
  latents ← make_latents scheduler noise;
  let latents := nd_mul_r latents (init_noise_sigma Sch scheduler) in
  log (EvImageEncoder (pixel_values_clip example));;
  image_features ← lift (image_encoder (pixel_values_clip example));
  log (EvImageEncoder (zeros_like (pixel_values_clip example)));;
  uncond_image_features ← lift (image_encoder (zeros_like (pixel_values_clip example)));
  image_embeddings ← lift (select_embeddings image_features image_encoder_layers_idx);
  uncond_image_embeddings ←
    lift (select_embeddings uncond_image_features image_encoder_layers_idx);
  mret {| p_scheduler := scheduler;
          p_uncond_input_ids := uncond_input_ids;
          p_latents := latents;
          p_image_embeddings := image_embeddings;
          p_uncond_image_embeddings := uncond_image_embeddings |}.

Definition prepare : M Prepared :=
  scheduler ← lift (from_config Sch scheduler);
  scheduler ← lift (set_timesteps Sch timesteps scheduler);
  uncond_input_ids ← make_uncond_input_ids;
  prepare_inputs scheduler uncond_input_ids.

Definition call_text_encoder (inp : TextEncoderInput) : M tensor3 :=
  log (EvTextEncoder inp);; lift (text_encoder inp).

Definition assemble (p : Prepared) : M Conditioning :=
  concept_text_embeddings ←
    call_adapter TextStream text_adapter (p_image_embeddings p) token_index;
  encoder_hidden_states_image ←
    call_adapter ImageStream image_adapter (p_image_embeddings p) token_index;
  uncond_encoder_hidden_states_image ←
    call_adapter ImageStream image_adapter (p_uncond_image_embeddings p) token_index;
  uncond_embeddings ←
    call_text_encoder {| text_input_ids := p_uncond_input_ids p;
                         concept_text_embeddings := None;
                         concept_placeholder_idx := None |};
  encoder_hidden_states ←
    call_text_encoder {| text_input_ids := ex_text_input_ids example;
                         concept_text_embeddings := Some concept_text_embeddings;
                         concept_placeholder_idx := Some (ex_concept_placeholder_idx example) |};
  mret {| c_uncond_embeddings := uncond_embeddings;
          c_uncond_encoder_hidden_states_image := uncond_encoder_hidden_states_image;
          c_encoder_hidden_states := encoder_hidden_states;
          c_encoder_hidden_states_image := encoder_hidden_states_image |}.

(** [training_mode and (i == len(scheduler.timesteps) - 1)] *)
Definition grad_enabled_at (scheduler : sched Sch) (i : nat) : bool :=
  training_mode &&
  (Z.of_nat i =? Z.of_nat (length (sched_timesteps Sch scheduler)) - 1)%Z.

(** [noise_pred_uncond + guidance_scale * (noise_pred_text - noise_pred_uncond)] *)
Definition guided_noise (noise_pred_uncond noise_pred_text : ndarray) : result ndarray :=
  d ← nd_sub noise_pred_text noise_pred_uncond;
  nd_add noise_pred_uncond (nd_mul_l guidance_scale d).

Definition call_unet (i : nat) (grad : bool) (b : branch) (x : ndarray) (t : timestep)
  (text_h image_h : tensor3) : M ndarray :=
  log (EvUNet i grad b x t text_h image_h);;
  lift (unet_call unet x t (text_h, image_h)).

(** The iterations of [for i, t in enumerate(scheduler.timesteps)] from
    index [i], over the remaining timesteps [ts]. *)
Fixpoint denoise_loop (c : Conditioning) (i : nat) (ts : list timestep)
  (scheduler : sched Sch) (latents : ndarray) : M (ndarray * sched Sch) :=
  match ts with
  | [] => mret (latents, scheduler)
  | t :: rest =>
      let grad := grad_enabled_at scheduler i in
      let latent_model_input := scale_model_input Sch scheduler latents t in
      noise_pred_uncond ←
        call_unet i grad Unconditional latent_model_input t
          (c_uncond_embeddings c) (c_uncond_encoder_hidden_states_image c);
      noise_pred_text ←
        call_unet i grad Conditional latent_model_input t
          (c_encoder_hidden_states c) (c_encoder_hidden_states_image c);
      noise_pred ← lift (guided_noise noise_pred_uncond noise_pred_text);
      log (EvSchedulerStep i t);;
      r ← lift (step Sch scheduler noise_pred t latents);
      denoise_loop c (S i) rest r.2 r.1
  end.

Definition decode_latents (latents : ndarray) : M ndarray :=
  inv_scale ← lift (py_div sone (scaling_factor vae));
  let _latents := nd_mul_l inv_scale latents in
  log (EvVaeDecode _latents);;
  images ← lift (decode vae _latents);
  mret (clamp (sdec (-1) 0) (sdec 1 0) images).

Definition run_inference : M ndarray :=
  p ← prepare;
  c ← assemble p;
  r ← denoise_loop c 0 (sched_timesteps Sch (p_scheduler p)) (p_scheduler p) (p_latents p);
  decode_latents r.1.

End RunInference.

(** A call from a given state of the global generator, with an empty log. *)
Definition exec {A} (m : M A) (g : rng R) : result A * St :=
  m {| st_rng := g; st_log := [] |}.

(** *** Reading the log *)

(** One evaluation of the denoising network: the iteration, whether
    gradients were enabled, the call site and the encoder hidden states. *)
Record UNetCall := {
  uc_step : nat;
  uc_grad : bool;
  uc_branch : branch;
  uc_hidden : tensor3 * tensor3
}.

Definition unet_call_of (ev : event) : option UNetCall :=
  match ev with
  | EvUNet i grad b _ _ text_h image_h =>
      Some {| uc_step := i; uc_grad := grad; uc_branch := b; uc_hidden := (text_h, image_h) |}
  | _ => None
  end.

Definition text_encoder_call_of (ev : event) : option TextEncoderInput :=
  match ev with EvTextEncoder inp => Some inp | _ => None end.

Definition tokenizer_call_of (ev : event) : option (list string * nat) :=
  match ev with EvTokenizer prompts n => Some (prompts, n) | _ => None end.

Definition adapter_call_of (ev : event) : option (stream * list tensor3) :=
  match ev with EvAdapter s embs _ => Some (s, embs) | _ => None end.

Definition scheduler_step_of (ev : event) : option nat :=
  match ev with EvSchedulerStep i _ => Some i | _ => None end.

Definition unet_calls (l : list event) : list UNetCall := omap unet_call_of l.

(** A call without its gradient flag. *)
Definition call_site (uc : UNetCall) : nat * branch * (tensor3 * tensor3) :=
  (uc_step uc, uc_branch uc, uc_hidden uc).

(** A computation that adds no event seen by the projection [f]. *)
Definition silent {A B} (f : event -> option B) (m : M A) : Prop :=
  ∀ st, omap f (st_log (m st).2) = omap f (st_log st).

(** A computation that neither reads nor advances the generator. *)
Definition rng_free {A} (m : M A) : Prop :=
  ∀ l, ∃ r l', ∀ g,
    m {| st_rng := g; st_log := l |} = (r, {| st_rng := g; st_log := l' |}).

(** A computation whose result and calls do not depend on the state in
    which it finds the generator, and that leaves the generator in one state
    when it returns. *)
Definition rng_independent {A} (m : M A) : Prop :=
  ∀ l g1 g2,
    let o1 := m {| st_rng := g1; st_log := l |} in
    let o2 := m {| st_rng := g2; st_log := l |} in
    o1.1 = o2.1 ∧ st_log o1.2 = st_log o2.2 ∧
    (is_ok o1.1 = true → st_rng o1.2 = st_rng o2.2).

(** The pair of encoder hidden states of a call site. *)
Definition pair_of (c : Conditioning) (b : branch) : tensor3 * tensor3 :=
  match b with
  | Unconditional => (c_uncond_embeddings c, c_uncond_encoder_hidden_states_image c)
  | Conditional => (c_encoder_hidden_states c, c_encoder_hidden_states_image c)
  end.

(** The call sites of [n] iterations from index [i]: the unconditional pair,
    then the conditional pair. *)
Definition expected_sites (c : Conditioning) (i n : nat)
  : list (nat * branch * (tensor3 * tensor3)) :=
  flat_map (fun k => [(k, Unconditional, pair_of c Unconditional);
                      (k, Conditional, pair_of c Conditional)]) (seq i n).

(** The part of [run_inference] that makes a call. *)
Inductive phase := PhPrepare | PhAssemble | PhLoop | PhDecode.

Definition phase_of (ev : event) : phase :=
  match ev with
  | EvTokenizer _ _ | EvManualSeed _ | EvRandn _ | EvVaeEncode _ | EvImageEncoder _ =>
      PhPrepare
  | EvAdapter _ _ _ | EvTextEncoder _ => PhAssemble
  | EvUNet _ _ _ _ _ _ _ | EvSchedulerStep _ _ => PhLoop
  | EvVaeDecode _ => PhDecode
  end.

(** [i] is the index of the last of [n] steps. *)
Definition final_step (n i : nat) : bool := (Z.of_nat i =? Z.of_nat n - 1)%Z.


End Infer.

Arguments st_rng {scalar R} _.
Arguments st_log {scalar R} _.
Arguments p_scheduler {scalar Sch} _.
Arguments p_uncond_input_ids {scalar Sch} _.
Arguments p_latents {scalar Sch} _.
Arguments p_image_embeddings {scalar Sch} _.
Arguments p_uncond_image_embeddings {scalar Sch} _.

(** ** models/modeling_utils.py *)

Section ModelingUtils.
(** [module] is the state (the parameters) of an [nn.Module];
    [load_state_dict strict m sd] is [m.load_state_dict(sd, strict=strict)]:
    the parameters after the call and the exception it raised, if any;
    [torch_load] is [torch.load]. *)
Context {module state_dict : Type}.
Context (load_state_dict : bool -> module -> state_dict -> module * option exn).
Context (torch_load : string -> result (gmap string state_dict)).

(** The three objects the function mutates in place and returns. *)
Record Models := {
  m_image_adapter : module;
  m_text_adapter : module;
  m_unet : module
}.

Definition load_checkpoint (state_dict_ : gmap string state_dict) (ms : Models)
  : Models * option exn :=
  let '(ia, e1) :=
    match state_dict_ !! "image_adapter" with
    | Some sd => load_state_dict true (m_image_adapter ms) sd
    | None => (m_image_adapter ms, None)
    end in
  match e1 with
  | Some e => ({| m_image_adapter := ia; m_text_adapter := m_text_adapter ms;
                  m_unet := m_unet ms |}, Some e)
  | None =>
  let '(ta, e2) :=
    match state_dict_ !! "text_adapter" with
    | Some sd => load_state_dict true (m_text_adapter ms) sd
    | None => (m_text_adapter ms, None)
    end in
  match e2 with
  | Some e => ({| m_image_adapter := ia; m_text_adapter := ta; m_unet := m_unet ms |},
               Some e)
  | None =>
  let '(un, e3) :=
    match state_dict_ !! "cross_attention_adapter" with
    | Some sd => load_state_dict false (m_unet ms) sd
    | None => (m_unet ms, None)
    end in
  ({| m_image_adapter := ia; m_text_adapter := ta; m_unet := un |}, e3)
  end end.

Definition load_photoverse_model (path : string) (ms : Models) : Models * option exn :=
  match torch_load path with
  | Ok state_dict_ => load_checkpoint state_dict_ ms
  | Raise e => (ms, Some e)
  end.

End ModelingUtils.

(** *** save_progress *)

(** [sub in s] for Python strings *)
Fixpoint contains (sub s : string) : bool :=
  String.prefix sub s ||
  match s with
  | "" => false
  | String _ s' => contains sub s'
  end.

(** ["attn2" in key and ("processor" in key or "to_q" in key or "to_k" in key
     or "to_v" in key)] *)
Definition is_cross_attention_key (key : string) : bool :=
  contains "attn2" key &&
  (contains "processor" key || contains "to_q" key ||
   contains "to_k" key || contains "to_v" key).

Fixpoint zeros (k : nat) : string :=
  match k with
  | 0 => ""
  | S k => String "0" (zeros k)
  end.

(** [s.zfill(width)]: zeros are put after a leading sign. *)
Definition zfill (width : nat) (s : string) : string :=
  if (width <=? String.length s)%nat then s
  else
    match s with
    | String c rest =>
        if (Ascii.eqb c "+" || Ascii.eqb c "-")%bool
        then String c (zeros (width - String.length s) +:+ rest)
        else zeros (width - String.length s) +:+ s
    | "" => zeros width
    end.

Fixpoint ends_with_slash (s : string) : bool :=
  match s with
  | "" => false
  | String c "" => Ascii.eqb c "/"
  | String _ s' => ends_with_slash s'
  end.

(** [os.path.join(a, b)] on POSIX *)
Definition os_path_join (a b : string) : string :=
  if String.prefix "/" b then b
  else if (String.eqb a "" || ends_with_slash a)%bool then a +:+ b
  else a +:+ "/" +:+ b.

(** [f"photoverse_{str(step).zfill(6)}.pt"], or ["photoverse.pt"] *)
Definition checkpoint_name (step : option Z) : string :=
  match step with
  | Some n => "photoverse_" +:+ zfill 6 (pretty n) +:+ ".pt"
  | None => "photoverse.pt"
  end.

Section SaveProgress.
(** [state_dict_of m] is [accelerator.unwrap_model(m).state_dict()].  Files
    are a flat store from paths to saved objects: [torch.save] writes an
    entry, [torch.load] reads it (directories and I/O errors are not
    represented). *)
Context {module tensor : Type}.
Context (state_dict_of : module -> gmap string tensor).

Definition torch_save (obj : gmap string (gmap string tensor)) (path : string)
  (fs : gmap string (gmap string (gmap string tensor)))
  : gmap string (gmap string (gmap string tensor)) :=
  <[path := obj]> fs.

Definition torch_load_from (fs : gmap string (gmap string (gmap string tensor)))
  (path : string) : result (gmap string (gmap string tensor)) :=
  match fs !! path with
  | Some obj => Ok obj
  | None => Raise (ExternalError "No such file or directory")
  end.

(** The loop over [unet_state_dict.items()]. *)
Definition cross_attention_state (unet_state_dict : gmap string tensor)
  : gmap string tensor :=
  map_fold (fun key value state_dict_cross_attention =>
              if is_cross_attention_key key
              then <[key := value]> state_dict_cross_attention
              else state_dict_cross_attention)
           ∅ unet_state_dict.

Definition final_state_dict (image_adapter text_adapter unet : module)
  : gmap string (gmap string tensor) :=
  <["image_adapter" := state_dict_of image_adapter]>
    (<["text_adapter" := state_dict_of text_adapter]>
       (<["cross_attention_adapter" := cross_attention_state (state_dict_of unet)]> ∅)).

Definition save_progress (image_adapter text_adapter unet : module)
  (output_path : string) (step : option Z)
  (fs : gmap string (gmap string (gmap string tensor)))
  : gmap string (gmap string (gmap string tensor)) :=
  torch_save (final_state_dict image_adapter text_adapter unet)
             (os_path_join output_path (checkpoint_name step)) fs.

End SaveProgress.

(** *** [nn.Module.load_state_dict]

    A module is the map of its parameters.  [load_state_dict] first copies
    every entry of the given state dict whose key the module has and whose
    tensor fits the module's (same shape); then it raises a RuntimeError when
    a tensor did not fit and, under [strict], when a key of the module is
    missing from the state dict or a key of the state dict is unexpected.
    Without [strict], unexpected keys are dropped. *)
Section LoadStateDict.
Context {tensor : Type} (fits : tensor -> tensor -> bool).

Definition load_entry (state_dict : gmap string tensor) (key : string) (param : tensor)
  : tensor :=
  match state_dict !! key with
  | Some input_param => if fits param input_param then input_param else param
  | None => param
  end.

Definition entry_fits (state_dict : gmap string tensor) (key : string) (param : tensor)
  : bool :=
  match state_dict !! key with
  | Some input_param => fits param input_param
  | None => true
  end.

Definition nn_load_state_dict (strict : bool) (m state_dict : gmap string tensor)
  : gmap string tensor * option exn :=
  let m' := map_imap (fun key param => Some (load_entry state_dict key param)) m in
  let size_ok :=
    bool_decide (map_Forall (fun key param => entry_fits state_dict key param = true) m) in
  let keys_ok := bool_decide (dom state_dict = dom m) in
  (m', if size_ok && (negb strict || keys_ok) then None
       else Some (RuntimeError "Error(s) in loading state_dict")).

End LoadStateDict.

(** *** More readings of the log of [run_inference] *)

Definition vae_decode_of {scalar} (ev : @event scalar) : option (ndarray scalar) :=
  match ev with EvVaeDecode z => Some z | _ => None end.

Definition vae_encode_of {scalar} (ev : @event scalar) : option (ndarray scalar) :=
  match ev with EvVaeEncode x => Some x | _ => None end.

Definition manual_seed_of {scalar} (ev : @event scalar) : option Z :=
  match ev with EvManualSeed s => Some s | _ => None end.

Definition randn_of {scalar} (ev : @event scalar) : option (list nat) :=
  match ev with EvRandn shp => Some shp | _ => None end.

(** The calls of the lines before the adapter calls, in a call that gets
    through them, for a batch of [b] images. *)
Definition prepare_events {scalar} {ops : ScalarOps scalar}
  (example : @Example scalar) (tokenizer : Tokenizer) (unet : @UNet scalar)
  (latent_size : nat) (seed : option Z) (from_noised_image : bool) (b : nat)
  : list (@event scalar) :=
  match negative_text_input_ids example with
  | None => [EvTokenizer (replicate b "") (model_max_length tokenizer)]
  | Some _ => []
  end ++
  match seed with Some s => [EvManualSeed s] | None => [] end ++
  [EvRandn [b; in_channels unet; latent_size; latent_size]] ++
  (if from_noised_image then [EvVaeEncode (pixel_values example)] else []) ++
  [EvImageEncoder (pixel_values_clip example);
   EvImageEncoder (zeros_like (pixel_values_clip example))].

(** A decimal numeral as [str] prints it for a natural number: ["0"], or
    digits that do not start with a zero (nor with a sign). *)
Definition numeral (d : string) : Prop :=
  d = "0" ∨
  ∃ c r, d = String c r ∧ c ≠ "0"%char ∧ c ≠ "-"%char ∧ c ≠ "+"%char.

(** ** Instances for the examples

    Integer arithmetic for the scalars, so that the definitions above can be
    run on small inputs. *)

Definition Z_ops : ScalarOps Z := {|
  szero := 0%Z; sone := 1%Z;
  sadd := Z.add; ssub := Z.sub; smul := Z.mul; sdiv := Z.div;
  ssqrt := Z.sqrt; smax := Z.max; smin := Z.min;
  ssum := fun l => fold_right Z.add 0%Z l;
  sof_nat := Z.of_nat;
  sdec := fun m e => (m * 10 ^ e)%Z;
  sis_zero := fun x => (x =? 0)%Z
|}.












Definition ex_init : @Init Z :=
  {| init_weight := fun _ _ _ _ => 1%Z; init_bias := fun _ _ _ => 0%Z |}.

(** One layer embedding of shape (1, 3, 2): a CLS position and two patches. *)
Definition ex_emb : Tensor3 Z := [[[1; 2]; [3; 4]; [5; 6]]]%Z.

(** Adapters for [clip_embedding_dim = 2], [cross_attention_dim = 3]. *)
Definition ex_adapter (num_tokens : nat) : @PhotoVerseAdapter Z :=
  PhotoVerseAdapter_init (ops := Z_ops) ex_init 2 3 num_tokens.

(** Collaborators for a run of [run_inference] on small inputs. *)

Definition ex_rng : @RngLib Z := {|
  rng := Z;
  seed_state := fun s => s;
  randn := fun shp g =>
    ({| shape := shp; data := repeat g (fold_right Nat.mul 1 shp) |}, (g + 1)%Z)
|}.

Definition ex_sched : @SchedulerLib Z := {|
  sched := list Z;
  sched_config := unit;
  from_config := fun _ => Ok [];
  set_timesteps := fun n _ => Ok (rev (map Z.of_nat (seq 0 (Z.to_nat n))));
  sched_timesteps := fun s => s;
  init_noise_sigma := fun _ => 1%Z;
  scale_model_input := fun _ x _ => x;
  add_noise := fun _ l n _ => nd_add (ops := Z_ops) l n;
  step := fun s np _ l => r ← nd_sub (ops := Z_ops) l np; Ok (r, s)
|}.

Definition ex_tokenizer : Tokenizer := {|
  model_max_length := 2;
  tokenize := fun prompts n => Ok (map (fun _ => repeat 0%Z n) prompts)
|}.

Definition ex_image_encoder (x : ndarray Z) : result (@ImageEncoderOutput Z) :=
  Ok {| last_hidden_state := ex_emb;
        pooler_output := [[0%Z; 0%Z]];
        hidden_states := [ex_emb; [[data x; data x]]] |}.

Definition ex_text_encoder (inp : @TextEncoderInput Z) : result (Tensor3 Z) :=
  Ok (match concept_text_embeddings inp with
      | Some t => t
      | None => [map (map Z.succ) (text_input_ids inp)]
      end).

Definition ex_unet : @UNet Z := {|
  in_channels := 1;
  unet_call := fun x _ _ => Ok (zeros_like (ops := Z_ops) x)
|}.

(** A U-Net that raises at timestep 0, the last one of [ex_sched]. *)
Definition ex_unet_raising : @UNet Z := {|
  in_channels := 1;
  unet_call := fun x t _ =>
    if (t =? 0)%Z then Raise (RuntimeError "CUDA out of memory")
    else Ok (zeros_like (ops := Z_ops) x)
|}.

Definition ex_vae : @VAE Z ex_rng := {|
  scaling_factor := 1%Z;
  encode_sample := fun x g => (Ok x, g);
  decode := fun z => Ok z
|}.

Definition ex_example (negative : option token_ids) : @Example Z := {|
  pixel_values := {| shape := [1; 1; 1; 1]; data := [0%Z] |};
  pixel_values_clip := {| shape := [1; 1; 1; 2]; data := [3%Z; 4%Z] |};
  ex_text_input_ids := [[1%Z; 2%Z]];
  ex_concept_placeholder_idx := [1%Z];
  negative_text_input_ids := negative
|}.

(** An adapter whose [forward] takes [token_index]. *)
Definition ex_module : Module_ Z := {|
  qualname := "TokenAdapter.forward";
  formals := ["embs"; "token_index"];
  body := fun embs _ => Ok (mjoin (take 1 embs))
|}.

Definition ex_run (negative : option token_ids) (idx : list Z) (timesteps : Z)
  (seed : option Z) (training_mode : bool) : M ex_rng (ndarray Z) :=
  run_inference (ops := Z_ops) ex_rng ex_sched (ex_example negative) ex_tokenizer
    ex_image_encoder ex_text_encoder ex_unet ex_module ex_module ex_vae tt
    idx 1 1%Z timesteps 0%Z seed false training_mode.

Definition ex_run_raising (timesteps : Z) : M ex_rng (ndarray Z) :=
  run_inference (ops := Z_ops) ex_rng ex_sched (ex_example None) ex_tokenizer
    ex_image_encoder ex_text_encoder ex_unet_raising ex_module ex_module ex_vae tt
    [0%Z] 1 1%Z timesteps 0%Z None false false.

(** What [ex_image_encoder] returns for the image of [ex_example]. *)
Definition ex_features : @ImageEncoderOutput Z :=
  {| last_hidden_state := ex_emb;
     pooler_output := [[0%Z; 0%Z]];
     hidden_states := [ex_emb; [[[3; 4]; [3; 4]]]%Z] |}.

(** What [ex_image_encoder] returns for the zero image. *)
Definition ex_features_zero : @ImageEncoderOutput Z :=
  {| last_hidden_state := ex_emb;
     pooler_output := [[0%Z; 0%Z]];
     hidden_states := [ex_emb; [[[0; 0]; [0; 0]]]%Z] |}.

(** A checkpoint loader over integers: a module's state is one number, and
    loading a state dict replaces it. *)
Definition ex_load_state_dict (strict : bool) (m sd : Z) : Z * option exn := (sd, None).

Definition ex_torch_load (path : string) : result (gmap string Z) :=
  if String.eqb path "adapter_only.pt" then Ok {[ "image_adapter" := 5%Z ]}
  else Raise (ExternalError "No such file or directory").

Definition ex_models : @Models Z :=
  {| m_image_adapter := 1%Z; m_text_adapter := 2%Z; m_unet := 3%Z |}.

(** A store of modules for the checkpoint examples: a module is its state
    dict, and loading a state dict overwrites the entries it names. *)
Definition ex_state_dict_of (m : gmap string Z) : gmap string Z := m.

Definition ex_load_union (strict : bool) (m sd : gmap string Z)
  : gmap string Z * option exn := (sd ∪ m, None).

Definition ex_unet_state : gmap string Z :=
  {[ "mid.attn2.to_q.weight" := 7%Z; "mid.attn1.to_q.weight" := 8%Z;
     "mid.attn2.to_out.0.weight" := 9%Z ]}.

(** * Properties *)

(** ** Attribute names *)

Lemma pretty_N_go_ne_p (x : N) (s s' : string) :
  s ≠ String "p" s' → pretty_N_go x s ≠ String "p" s'.
Proof.
  revert s. induction (N.lt_wf_0 x) as [x _ IH]; intros s Hs.
  destruct (decide (x = 0%N)) as [->|Hx].
  - by rewrite pretty_N_go_0.
  - rewrite pretty_N_go_step by lia. apply IH.
    + apply N.div_lt; lia.
    + unfold pretty_N_char. by repeat case_match.
Qed.

Lemma pretty_nat_ne_p (n : nat) (s : string) : pretty n ≠ String "p" s.
Proof.
  unfold pretty, pretty_nat, pretty, pretty_N.
  case_decide.
  - intros H'. discriminate H'.
  - apply pretty_N_go_ne_p. intros H'. discriminate H'.
Qed.

Lemma mapping_name_inj (i j : nat) : mapping_name i = mapping_name j → i = j.
Proof.
  unfold mapping_name. intros H. simpl in H.
  injection H as H. exact (inj pretty i j H).
Qed.

Lemma mapping_patch_name_inj (i j : nat) :
  mapping_patch_name i = mapping_patch_name j → i = j.
Proof.
  unfold mapping_patch_name. intros H. simpl in H.
  injection H as H. exact (inj pretty i j H).
Qed.

Lemma mapping_name_ne_patch (i j : nat) : mapping_name i ≠ mapping_patch_name j.
Proof.
  unfold mapping_name, mapping_patch_name. intros H. simpl in H.
  injection H as H. exact (pretty_nat_ne_p i _ H).
Qed.

(** ** The error monad *)

Lemma mapM_ok {A B} (f : A → result B) (g : A → B) (l : list A) :
  Forall (λ x, f x = Ok (g x)) l → mapM f l = Ok (map g l).
Proof.
  induction 1 as [|x l Hx _ IH]; [done|].
  cbn. rewrite Hx. cbn. by rewrite IH.
Qed.

(** ** Shapes through the layers *)

Section AdapterFacts.
Context {scalar : Type} {ops : ScalarOps scalar}.
#[local] Abbreviation vec := (Vec scalar).
#[local] Abbreviation tensor3 := (Tensor3 scalar).
#[local] Abbreviation Sequential := (list (@Layer scalar)).
Implicit Types (x : tensor3) (v : vec) (l : @Layer scalar) (s : Sequential).

Lemma layer_fn_length l v :
  layer_accepts l (length v) = true → length (layer_fn l v) = layer_out l (length v).
Proof.
  destruct l as [l|l|l]; cbn; intros _.
  - unfold linear_fn. by rewrite length_map, length_seq.
  - unfold layer_norm_fn. by rewrite length_imap.
  - unfold leaky_relu_fn. by rewrite length_map.
Qed.

Lemma layer_vec_ok l v :
  layer_accepts l (length v) = true → layer_vec l v = Ok (layer_fn l v).
Proof.
  unfold layer_accepts, layer_vec. destruct (layer_in l); [|done].
  by intros ->.
Qed.

Lemma layer_call_ok l x n :
  layer_accepts l n = true → all_width n x →
  layer_call l x = Ok (map (map (layer_fn l)) x).
Proof.
  intros Hacc Hx. unfold layer_call. apply mapM_ok.
  eapply Forall_impl; [exact Hx|]. intros row Hrow. apply mapM_ok.
  eapply Forall_impl; [exact Hrow|]. intros v Hv. cbn beta in Hv.
  apply layer_vec_ok. by rewrite Hv.
Qed.

Lemma all_width_layer l x n :
  layer_accepts l n = true → all_width n x →
  all_width (layer_out l n) (map (map (layer_fn l)) x).
Proof.
  intros Hacc Hx. unfold all_width in *.
  apply Forall_fmap. eapply Forall_impl; [exact Hx|]. intros row Hrow.
  apply Forall_fmap. eapply Forall_impl; [exact Hrow|]. intros v Hv. cbn in *.
  rewrite layer_fn_length; by rewrite Hv.
Qed.

Lemma sequential_fn_length s : ∀ v n m,
  sequential_width s n = Some m → length v = n → length (sequential_fn s v) = m.
Proof.
  induction s as [|l s IH]; intros v n m Hw Hv; cbn in *.
  - congruence.
  - destruct (layer_accepts l n) eqn:Hacc; [|done].
    apply (IH _ _ _ Hw). rewrite layer_fn_length; by rewrite Hv.
Qed.

Lemma sequential_call_ok s : ∀ x n m,
  sequential_width s n = Some m → all_width n x →
  sequential_call s x = Ok (map (map (sequential_fn s)) x).
Proof.
  induction s as [|l s IH]; intros x n m Hw Hx; cbn in *.
  - f_equal. induction x as [|row x IHx]; [done|]. cbn. f_equal.
    + by rewrite map_id.
    + apply IHx. by inversion Hx.
  - destruct (layer_accepts l n) eqn:Hacc; [|done].
    rewrite (layer_call_ok l x n Hacc Hx). cbn.
    rewrite (IH _ _ _ Hw (all_width_layer l x n Hacc Hx)).
    f_equal. rewrite map_map. apply map_ext. intros row. by rewrite map_map.
Qed.

(** *** One token *)

Lemma has_shape_spec (b n d : nat) x :
  has_shape b n d x = true ↔
  length x = b ∧ Forall (λ row, length row = n ∧ Forall (λ v : vec, length v = d) row) x.
Proof.
  unfold has_shape. rewrite andb_true_iff, Nat.eqb_eq, forallb_forall, Forall_forall.
  split; intros [Hb Hrows]; (split; [done|]); intros row Hrow.
  - apply list_elem_of_In, Hrows in Hrow.
    apply andb_true_iff in Hrow as [Hn Hv]. apply Nat.eqb_eq in Hn.
    split; [done|]. apply Forall_forall. intros v Hin.
    rewrite forallb_forall in Hv. apply Nat.eqb_eq, Hv. by apply list_elem_of_In.
  - apply list_elem_of_In, Hrows in Hrow as [Hn Hv].
    apply andb_true_iff. split; [by apply Nat.eqb_eq|].
    apply forallb_forall. intros v Hin. apply Nat.eqb_eq.
    rewrite Forall_forall in Hv. by apply Hv, list_elem_of_In.
Qed.

Lemma embedding_shape_of_has_shape (b n d : nat) x :
  2 ≤ n → has_shape b n d x = true → embedding_shape b d x.
Proof.
  intros Hn [Hb Hrows]%has_shape_spec. split; [done|].
  eapply Forall_impl; [exact Hrows|]. intros row [-> Hv]. done.
Qed.

Lemma col_means_length (m : list vec) (r : vec) :
  length (col_means (r :: m)) = length r.
Proof. cbn. by rewrite length_map, length_seq. Qed.

Section Token.
Context (G P : vec → vec) (clip cross : nat).
Context (HG : ∀ v, length v = clip → length (G v) = cross).
Context (HP : ∀ v, length v = clip → length (P v) = cross).

Let token_row (row : list vec) : list vec :=
  [vadd (G (hd [] row)) (col_means (P <$> tl row))].

Lemma token_row_width (row : list vec) :
  2 ≤ length row → Forall (λ v : vec, length v = clip) row →
  Forall (λ v : vec, length v = cross) (token_row row).
Proof.
  intros Hlen Hrow. destruct row as [|v0 [|v1 rest]]; cbn in Hlen; try lia.
  inversion Hrow as [|? ? Hv0 Hrest]; subst. inversion Hrest as [|? ? Hv1 _]; subst.
  repeat constructor. unfold vadd. cbn [hd tl fmap list_fmap].
  rewrite length_zip_with, col_means_length, HG, HP by done. lia.
Qed.

Lemma same_shape_token (emb : tensor3) :
  Forall (λ row, 2 ≤ length row ∧ Forall (λ v : vec, length v = clip) row) emb →
  same_shape (map (map G) (slice_upto 1 emb))
             (mean_dim1 (map (map P) (slice_from 1 emb))) = true.
Proof.
  intros Hemb. unfold same_shape, slice_upto, slice_from, mean_dim1.
  rewrite !length_map, Nat.eqb_refl. cbn [andb].
  induction Hemb as [|row emb [Hlen Hrow] _ IH]; [done|].
  cbn [map zip zip_with forallb]. rewrite IH, andb_true_r.
  destruct row as [|v0 [|v1 rest]]; cbn in Hlen; try lia.
  inversion Hrow as [|? ? Hv0 Hrest]; subst. inversion Hrest as [|? ? Hv1 _]; subst.
  cbn [take drop map length zip_with forallb]. rewrite col_means_length.
  rewrite HG, HP by done. by rewrite !Nat.eqb_refl.
Qed.

Lemma zip_token (emb : tensor3) :
  Forall (λ row, 2 ≤ length row ∧ Forall (λ v : vec, length v = clip) row) emb →
  zip_with (zip_with vadd) (map (map G) (slice_upto 1 emb))
           (mean_dim1 (map (map P) (slice_from 1 emb)))
  = map token_row emb.
Proof.
  unfold slice_upto, slice_from, mean_dim1.
  induction 1 as [|row emb [Hlen Hrow] _ IH]; [done|].
  cbn [map zip_with]. rewrite IH. f_equal.
  destruct row as [|v0 [|v1 rest]]; cbn in Hlen; try lia. done.
Qed.

Lemma tensor_add_token (emb : tensor3) :
  Forall (λ row, 2 ≤ length row ∧ Forall (λ v : vec, length v = clip) row) emb →
  tensor_add (map (map G) (slice_upto 1 emb))
             (mean_dim1 (map (map P) (slice_from 1 emb)))
  = Ok (map token_row emb).
Proof.
  intros Hemb. unfold tensor_add. by rewrite same_shape_token, zip_token.
Qed.

End Token.

Lemma all_width_slices (clip : nat) (emb : tensor3) :
  Forall (λ row, 2 ≤ length row ∧ Forall (λ v : vec, length v = clip) row) emb →
  all_width clip (slice_upto 1 emb) ∧ all_width clip (slice_from 1 emb).
Proof.
  intros Hemb. unfold all_width, slice_upto, slice_from.
  split; apply Forall_fmap; (eapply Forall_impl; [exact Hemb|]);
    intros row [_ Hrow]; cbn.
  - by apply Forall_take.
  - by apply Forall_drop.
Qed.

(** The loop body computes the token of the specification. *)
Lemma hidden_state_of_ok (self : @PhotoVerseAdapter scalar) (i clip cross b : nat)
  (g p : Sequential) (emb : tensor3) :
  modules self !! mapping_name i = Some g →
  modules self !! mapping_patch_name i = Some p →
  sequential_width g clip = Some cross →
  sequential_width p clip = Some cross →
  embedding_shape b clip emb →
  hidden_state_of self i emb = Ok (token_spec g p emb).
Proof.
  intros Hg Hp Hwg Hwp [_ Hemb]. unfold hidden_state_of, getattr.
  destruct (all_width_slices clip emb Hemb) as [Hup Hfrom].
  rewrite Hg. cbn. rewrite (sequential_call_ok g _ _ _ Hwg Hup). cbn.
  rewrite Hp. cbn. rewrite (sequential_call_ok p _ _ _ Hwp Hfrom). cbn.
  apply (tensor_add_token _ _ clip cross); [| |done];
    intros v Hv; by eapply sequential_fn_length.
Qed.

(** *** The loop *)

Lemma forward_loop_ok (self : @PhotoVerseAdapter scalar) (clip cross n b : nat) :
  adapter_wf clip cross n self →
  ∀ (embs : list tensor3) (i : nat) (hs : list tensor3),
    i + length embs ≤ n →
    Forall (embedding_shape b clip) embs →
    forward_loop self i embs hs = Ok (hs ++ tokens_from self i embs).
Proof.
  intros Hwf. induction embs as [|emb embs IH]; intros i hs Hn Hembs.
  - cbn. by rewrite app_nil_r.
  - cbn in Hn. inversion Hembs as [|? ? Hemb Hrest]; subst.
    destruct (Hwf i) as [Hin _].
    destruct Hin as (g & p & Hg & Hp & Hwg & Hwp); [lia|].
    cbn [forward_loop].
    rewrite (hidden_state_of_ok self i clip cross b g p emb) by done. cbn.
    rewrite IH by (done || lia). f_equal.
    rewrite <- app_assoc. f_equal. unfold tokens_from.
    cbn [app imap].
    replace (token_spec (global_branch self (i + 0)) (patch_branch self (i + 0)) emb)
      with (token_spec g p emb).
    2:{ unfold global_branch, patch_branch. by rewrite Nat.add_0_r, Hg, Hp. }
    f_equal. apply imap_ext. intros k emb' _. cbn. by rewrite Nat.add_succ_r.
Qed.

(** *** Concatenation along the sequence axis *)

Lemma foldl_zip_app_length (b : nat) (rest : list tensor3) : ∀ t0 : tensor3,
  length t0 = b → Forall (λ t : tensor3, length t = b) rest →
  length (foldl (zip_with app) t0 rest) = b.
Proof.
  induction rest as [|t1 rest IH]; intros t0 H0 Hrest; [done|].
  inversion Hrest; subst. cbn. apply IH; [|done].
  rewrite length_zip_with. lia.
Qed.

Lemma foldl_zip_app_lookup (b bi : nat) (rest : list tensor3) : ∀ t0 : tensor3,
  length t0 = b → Forall (λ t : tensor3, length t = b) rest → bi < b →
  foldl (zip_with app) t0 rest !! bi
  = Some (row_at bi t0 ++ concat (map (row_at bi) rest)).
Proof.
  induction rest as [|t1 rest IH]; intros t0 H0 Hrest Hbi.
  - cbn. rewrite app_nil_r. unfold row_at.
    destruct (lookup_lt_is_Some_2 t0 bi) as [r ->]; [lia|]. done.
  - inversion Hrest as [|? ? H1 Hrest']; subst. cbn [foldl map concat].
    rewrite IH; [|rewrite length_zip_with; lia|done|done].
    f_equal. rewrite app_assoc. f_equal. unfold row_at.
    rewrite lookup_zip_with.
    destruct (lookup_lt_is_Some_2 t0 bi) as [r0 ->]; [lia|].
    destruct (lookup_lt_is_Some_2 t1 bi) as [r1 ->]; [lia|]. done.
Qed.

Lemma cat_rows_length (b : nat) (ts : list tensor3) :
  ts ≠ [] → Forall (λ t : tensor3, length t = b) ts → length (cat_rows ts) = b.
Proof.
  destruct ts as [|t0 rest]; [done|]. intros _ Hts. inversion Hts; subst.
  by apply foldl_zip_app_length.
Qed.

Lemma cat_rows_lookup (b bi : nat) (ts : list tensor3) :
  ts ≠ [] → Forall (λ t : tensor3, length t = b) ts → bi < b →
  cat_rows ts !! bi = Some (concat (map (row_at bi) ts)).
Proof.
  destruct ts as [|t0 rest]; [done|]. intros _ Hts Hbi. inversion Hts; subst.
  cbn [cat_rows]. by rewrite (foldl_zip_app_lookup (length t0)).
Qed.

Lemma token_shape_width (b d : nat) (t : tensor3) :
  token_shape b d t → width t = if decide (b = 0) then 0 else d.
Proof.
  intros [Hb Hrows]. destruct t as [|row t]; cbn in *.
  - by subst.
  - subst. inversion Hrows as [|? ? (v & -> & Hv) _]; subst. done.
Qed.

Lemma cat_dim1_ok (b d : nat) (ts : list tensor3) :
  ts ≠ [] → Forall (token_shape b d) ts → cat_dim1 ts = Ok (cat_rows ts).
Proof.
  intros Hne Hts. unfold cat_dim1. destruct ts as [|t0 rest]; [done|].
  assert (Hall : forallb (λ t : tensor3, (batch_size t =? batch_size t0) &&
                                         (width t =? width t0)) (t0 :: rest) = true).
  { apply forallb_forall. intros t Hin%list_elem_of_In.
    rewrite Forall_forall in Hts.
    pose proof (Hts t Hin) as Ht. pose proof (Hts t0 (list_elem_of_here _ _)) as Ht0.
    rewrite (token_shape_width b d t Ht), (token_shape_width b d t0 Ht0).
    unfold batch_size. destruct Ht as [-> _], Ht0 as [-> _].
    by rewrite !Nat.eqb_refl. }
  by rewrite Hall.
Qed.

(** *** The tokens *)

Lemma wf_branches (self : @PhotoVerseAdapter scalar) (clip cross n j : nat) :
  adapter_wf clip cross n self → j < n →
  sequential_width (global_branch self j) clip = Some cross ∧
  sequential_width (patch_branch self j) clip = Some cross.
Proof.
  intros Hwf Hj. destruct (Hwf j) as [Hin _].
  destruct (Hin Hj) as (g & p & Hg & Hp & Hwg & Hwp).
  unfold global_branch, patch_branch. by rewrite Hg, Hp.
Qed.

Lemma token_spec_shape (g p : Sequential) (clip cross b : nat) (emb : tensor3) :
  sequential_width g clip = Some cross →
  sequential_width p clip = Some cross →
  embedding_shape b clip emb →
  token_shape b cross (token_spec g p emb).
Proof.
  intros Hwg Hwp [Hb Hemb]. split; [unfold token_spec; by rewrite length_map|].
  unfold token_spec. apply Forall_fmap.
  eapply Forall_impl; [exact Hemb|]. intros row [Hlen Hrow]. cbn.
  eexists. split; [done|].
  pose proof (token_row_width (sequential_fn g) (sequential_fn p) clip cross) as Hw.
  specialize (Hw (λ v Hv, sequential_fn_length g v clip cross Hwg Hv)
                 (λ v Hv, sequential_fn_length p v clip cross Hwp Hv) row Hlen Hrow).
  by inversion Hw.
Qed.

Lemma tokens_from_shape (self : @PhotoVerseAdapter scalar) (clip cross n b : nat) :
  adapter_wf clip cross n self →
  ∀ (embs : list tensor3) (i : nat),
    i + length embs ≤ n →
    Forall (embedding_shape b clip) embs →
    Forall (token_shape b cross) (tokens_from self i embs).
Proof.
  intros Hwf embs i Hn Hembs. unfold tokens_from.
  apply Forall_lookup. intros k t Hk.
  apply list_lookup_imap_Some in Hk as (emb & Hemb & ->).
  pose proof (lookup_lt_Some _ _ _ Hemb) as Hlt.
  destruct (wf_branches self clip cross n (i + k) Hwf) as [Hwg Hwp]; [lia|].
  apply (token_spec_shape _ _ clip); [done..|].
  rewrite Forall_lookup in Hembs. by eapply Hembs.
Qed.

Lemma tokens_from_length (self : @PhotoVerseAdapter scalar) (i : nat) (embs : list tensor3) :
  length (tokens_from self i embs) = length embs.
Proof. unfold tokens_from. by rewrite length_imap. Qed.

Lemma concat_singletons {A B} (f : B → list A) (h : B → A) (ts : list B) :
  Forall (λ t, f t = [h t]) ts → concat (map f ts) = map h ts.
Proof. induction 1 as [|t ts Ht _ IH]; [done|]. cbn. by rewrite Ht, IH. Qed.

Lemma row_at_token (b d bi : nat) (t : tensor3) :
  token_shape b d t → bi < b →
  ∃ v : vec, row_at bi t = [v] ∧ length v = d.
Proof.
  intros [Hb Hrows] Hbi. unfold row_at.
  destruct (lookup_lt_is_Some_2 t bi) as [r Hr]; [lia|]. rewrite Hr.
  rewrite Forall_lookup in Hrows. by apply (Hrows bi).
Qed.

(** Batch element [bi] of the concatenation lists, in layer order, the one
    vector every token has for it. *)
Lemma cat_rows_tokens (b d bi : nat) (ts : list tensor3) :
  ts ≠ [] → Forall (token_shape b d) ts → bi < b →
  cat_rows ts !! bi = Some (map (λ t, hd [] (row_at bi t)) ts).
Proof.
  intros Hne Hts Hbi. rewrite (cat_rows_lookup b).
  - f_equal. apply concat_singletons.
    eapply Forall_impl; [exact Hts|]. intros t Ht. cbn.
    destruct (row_at_token b d bi t Ht Hbi) as (v & -> & _). done.
  - done.
  - eapply Forall_impl; [exact Hts|]. by intros t [? _].
  - done.
Qed.

Lemma cat_rows_tokens_shape (b d : nat) (ts : list tensor3) :
  ts ≠ [] → Forall (token_shape b d) ts →
  has_shape b (length ts) d (cat_rows ts) = true.
Proof.
  intros Hne Hts. apply has_shape_spec.
  assert (Hlen : length (cat_rows ts) = b).
  { apply cat_rows_length; [done|].
    eapply Forall_impl; [exact Hts|]. by intros t [? _]. }
  split; [done|]. apply Forall_lookup. intros bi row Hrow.
  pose proof (lookup_lt_Some _ _ _ Hrow) as Hbi. rewrite Hlen in Hbi.
  rewrite (cat_rows_tokens b d) in Hrow by done. injection Hrow as <-.
  split; [by rewrite length_map|]. apply Forall_fmap.
  eapply Forall_impl; [exact Hts|]. intros t Ht. cbn.
  destruct (row_at_token b d bi t Ht Hbi) as (v & -> & Hv). done.
Qed.

(** *** Construction *)

Lemma init_succ (w : Init) (clip cross n : nat) :
  PhotoVerseAdapter_init w clip cross (S n)
  = init_step w clip cross (PhotoVerseAdapter_init w clip cross n) n.
Proof. unfold PhotoVerseAdapter_init. by rewrite seq_S, foldl_app. Qed.

Lemma init_lookup_mapping (w : Init) (clip cross n i : nat) :
  modules (PhotoVerseAdapter_init w clip cross n) !! mapping_name i
  = if decide (i < n) then Some (mapping_net w (mapping_name i) clip cross) else None.
Proof.
  induction n as [|n IH].
  - cbn. rewrite lookup_empty. by rewrite decide_False by lia.
  - rewrite init_succ. cbn [init_step setattr modules].
    rewrite lookup_insert_ne by (intros H; symmetry in H; by apply mapping_name_ne_patch in H).
    destruct (decide (i = n)) as [->|Hne].
    + rewrite lookup_insert_eq. by rewrite decide_True by lia.
    + rewrite lookup_insert_ne by (intros H; by apply mapping_name_inj in H).
      rewrite IH. repeat case_decide; done || (exfalso; lia).
Qed.

Lemma init_lookup_patch (w : Init) (clip cross n i : nat) :
  modules (PhotoVerseAdapter_init w clip cross n) !! mapping_patch_name i
  = if decide (i < n) then Some (mapping_net w (mapping_patch_name i) clip cross) else None.
Proof.
  induction n as [|n IH].
  - cbn. rewrite lookup_empty. by rewrite decide_False by lia.
  - rewrite init_succ. cbn [init_step setattr modules].
    destruct (decide (i = n)) as [->|Hne].
    + rewrite lookup_insert_eq. by rewrite decide_True by lia.
    + rewrite lookup_insert_ne by (intros H; by apply mapping_patch_name_inj in H).
      rewrite lookup_insert_ne by (intros H; by apply mapping_name_ne_patch in H).
      rewrite IH. repeat case_decide; done || (exfalso; lia).
Qed.

Lemma mapping_net_width (w : Init) (name : string) (clip cross : nat) :
  sequential_width (mapping_net w name clip cross) clip = Some cross.
Proof.
  unfold mapping_net, nn_Linear, nn_LayerNorm, nn_LeakyReLU.
  cbn [sequential_width layer_accepts layer_in layer_out
       in_features out_features normalized_shape].
  by rewrite !Nat.eqb_refl.
Qed.

(** What the constructor builds is well formed. *)
Lemma init_wf (w : Init) (clip cross n : nat) :
  adapter_wf clip cross n (PhotoVerseAdapter_init w clip cross n).
Proof.
  intros i. rewrite init_lookup_mapping, init_lookup_patch. split; intros Hi.
  - do 2 eexists. rewrite !decide_True by done.
    repeat split; apply mapping_net_width.
  - by rewrite !decide_False by lia.
Qed.

(** *** The forward contract *)

Lemma forward_ok (self : @PhotoVerseAdapter scalar) (clip cross n b : nat)
  (embs : list tensor3) :
  adapter_wf clip cross n self →
  embs ≠ [] → length embs ≤ n →
  Forall (embedding_shape b clip) embs →
  forward self embs = Ok (forward_spec self embs) ∧
  has_shape b (length embs) cross (forward_spec self embs) = true.
Proof.
  intros Hwf Hne Hlen Hembs. unfold forward, forward_spec.
  rewrite (forward_loop_ok self clip cross n b Hwf) by done. cbn.
  pose proof (tokens_from_shape self clip cross n b Hwf embs 0 Hlen Hembs) as Hts.
  assert (Htne : tokens_from self 0 embs ≠ []).
  { intros H. apply (f_equal length) in H. rewrite tokens_from_length in H.
    by destruct embs. }
  split.
  - by apply (cat_dim1_ok b cross).
  - rewrite <- (tokens_from_length self 0 embs). by apply cat_rows_tokens_shape.
Qed.

Lemma forward_spec_lookup (self : @PhotoVerseAdapter scalar) (clip cross n b : nat)
  (embs : list tensor3) (i bi : nat) (emb : tensor3) (row : list vec) :
  adapter_wf clip cross n self →
  length embs ≤ n →
  Forall (embedding_shape b clip) embs →
  embs !! i = Some emb → emb !! bi = Some row →
  forward_spec self embs !! bi ≫= (.!! i)
  = Some (vadd (sequential_fn (global_branch self i) (hd [] row))
               (col_means (sequential_fn (patch_branch self i) <$> tl row))).
Proof.
  intros Hwf Hlen Hembs Hemb Hrow. unfold forward_spec.
  pose proof (tokens_from_shape self clip cross n b Hwf embs 0 Hlen Hembs) as Hts.
  assert (Hbi : bi < b).
  { rewrite Forall_lookup in Hembs. destruct (Hembs i emb Hemb) as [<- _].
    by eapply lookup_lt_Some. }
  rewrite (cat_rows_tokens b cross bi); [|by destruct embs|done|done].
  cbn. rewrite list_lookup_fmap. unfold tokens_from.
  rewrite list_lookup_imap, Hemb. cbn. f_equal.
  unfold row_at, token_spec. by rewrite list_lookup_fmap, Hrow.
Qed.

Lemma forward_loop_attribute_error (self : @PhotoVerseAdapter scalar)
  (clip cross n b : nat) :
  adapter_wf clip cross n self →
  ∀ (embs : list tensor3) (i : nat) (hs : list tensor3),
    i ≤ n → n < i + length embs →
    Forall (embedding_shape b clip) embs →
    forward_loop self i embs hs = Raise (AttributeError (mapping_name n)).
Proof.
  intros Hwf. induction embs as [|emb embs IH]; intros i hs Hi Hn Hembs.
  - cbn in Hn. lia.
  - inversion Hembs as [|? ? Hemb Hrest]; subst. cbn in Hn. cbn [forward_loop].
    destruct (decide (i = n)) as [->|Hne].
    + destruct (Hwf n) as [_ Hout]. destruct Hout as [Hnone _]; [lia|].
      unfold hidden_state_of, getattr. by rewrite Hnone.
    + destruct (Hwf i) as [Hin _].
      destruct Hin as (g & p & Hg & Hp & Hwg & Hwp); [lia|].
      rewrite (hidden_state_of_ok self i clip cross b g p emb) by done. cbn.
      apply IH; [lia|lia|done].
Qed.

Lemma embedding_shapes_of_has_shape (b clip : nat) (embs : list tensor3) :
  Forall (λ emb, ∃ k : nat, 2 ≤ k ∧ has_shape b k clip emb = true) embs →
  Forall (embedding_shape b clip) embs.
Proof.
  intros H. eapply Forall_impl; [exact H|]. intros emb (k & Hk & Hshape).
  by apply (embedding_shape_of_has_shape b k).
Qed.

(** C1. For an adapter built with [num_tokens = n] and a list of [n] layer
    embeddings, each of shape (b, s, clip_embedding_dim) with at least two
    positions, [forward] returns the concatenation along the sequence axis, in
    layer order, of the per-layer tokens; the result has shape
    (b, n, cross_attention_dim) and its entry for batch element [bi] and layer
    [i] is [global_branch_i] at the CLS position of [embs[i]] plus the mean
    over the patch positions of [patch_branch_i].  ([torch.cat] needs at least
    one tensor, hence [0 < n].) *)
Theorem adapter_forward_contract (self : @PhotoVerseAdapter scalar)
  (clip cross n b : nat) (embs : list tensor3) :
  adapter_wf clip cross n self →
  0 < n → length embs = n →
  Forall (λ emb, ∃ k : nat, 2 ≤ k ∧ has_shape b k clip emb = true) embs →
  forward self embs = Ok (forward_spec self embs) ∧
  has_shape b n cross (forward_spec self embs) = true ∧
  ∀ (i bi : nat) (emb : tensor3) (row : list vec),
    embs !! i = Some emb → emb !! bi = Some row →
    forward_spec self embs !! bi ≫= (.!! i)
    = Some (vadd (sequential_fn (global_branch self i) (hd [] row))
                 (col_means (sequential_fn (patch_branch self i) <$> tl row))).
Proof.
  intros Hwf Hn Hlen Hembs%embedding_shapes_of_has_shape.
  assert (Hne : embs ≠ []) by (intros ->; cbn in Hlen; lia).
  destruct (forward_ok self clip cross n b embs Hwf Hne) as [Hfw Hshape];
    [lia|done|].
  rewrite Hlen in Hshape. repeat split; [done|done|].
  intros i bi emb row Hemb Hrow.
  apply (forward_spec_lookup self clip cross n b embs i bi emb row); (done || lia).
Qed.

(** C6, as amended.  The adapter performs no length check.  With more
    embeddings than branches the lookup of branch [mapping_{n}] fails with an
    AttributeError; with fewer (but at least one) no error is raised and one
    token per given embedding is returned, a token set of length
    [length embs] rather than [n]; an empty list makes [torch.cat] raise. *)
Theorem adapter_forward_length_mismatch (self : @PhotoVerseAdapter scalar)
  (clip cross n b : nat) (embs : list tensor3) :
  adapter_wf clip cross n self →
  Forall (λ emb, ∃ k : nat, 2 ≤ k ∧ has_shape b k clip emb = true) embs →
  (n < length embs →
     forward self embs = Raise (AttributeError (mapping_name n))) ∧
  (0 < length embs < n →
     forward self embs = Ok (forward_spec self embs) ∧
     has_shape b (length embs) cross (forward_spec self embs) = true) ∧
  (length embs = 0 → ∃ msg, forward self embs = Raise (RuntimeError msg)).
Proof.
  intros Hwf Hembs%embedding_shapes_of_has_shape. split; [|split].
  - intros Hlen. unfold forward.
    rewrite (forward_loop_attribute_error self clip cross n b Hwf); (done || lia).
  - intros Hlen. apply (forward_ok self clip cross n b embs Hwf); [|lia|done].
    intros ->. cbn in Hlen. lia.
  - intros Hlen. destruct embs; [|done]. cbn. eauto.
Qed.

End AdapterFacts.

Lemma ex_emb_shape : ∃ k : nat, 2 ≤ k ∧ has_shape 1 k 2 ex_emb = true.
Proof. exists 3. split; [lia|reflexivity]. Qed.

Lemma adapter_forward_contract_witness :
  forward (ops := Z_ops) (ex_adapter 2) [ex_emb; ex_emb]
    = Ok (forward_spec (ops := Z_ops) (ex_adapter 2) [ex_emb; ex_emb]) ∧
  has_shape 1 2 3 (forward_spec (ops := Z_ops) (ex_adapter 2) [ex_emb; ex_emb]) = true ∧
  ∀ (i bi : nat) (emb : Tensor3 Z) (row : list (Vec Z)),
    [ex_emb; ex_emb] !! i = Some emb → emb !! bi = Some row →
    forward_spec (ops := Z_ops) (ex_adapter 2) [ex_emb; ex_emb] !! bi ≫= (.!! i)
    = Some (vadd (ops := Z_ops)
              (sequential_fn (ops := Z_ops) (global_branch (ex_adapter 2) i) (hd [] row))
              (col_means (ops := Z_ops)
                 (sequential_fn (ops := Z_ops) (patch_branch (ex_adapter 2) i) <$> tl row))).
Proof.
  apply (adapter_forward_contract (ops := Z_ops) (ex_adapter 2) 2 3 2 1 [ex_emb; ex_emb]).
  - apply init_wf.
  - lia.
  - reflexivity.
  - repeat constructor; apply ex_emb_shape.
Defined.

(** C6, as stated, fails: an adapter built with [num_tokens = 2], called with
    one embedding, returns a token set of length 1 and raises nothing. *)
Lemma adapter_forward_shorter_list_returns :
  adapter_wf 2 3 2 (ex_adapter 2) ∧
  length [ex_emb] ≠ 2 ∧
  ∃ out, forward (ops := Z_ops) (ex_adapter 2) [ex_emb] = Ok out ∧
         has_shape 1 1 3 out = true.
Proof.
  split; [apply init_wf|]. split; [cbn; lia|].
  destruct (forward_ok (ops := Z_ops) (ex_adapter 2) 2 3 2 1 [ex_emb]) as [Hfw Hshape].
  - apply init_wf.
  - done.
  - cbn; lia.
  - apply embedding_shapes_of_has_shape. repeat constructor. apply ex_emb_shape.
  - eauto.
Qed.

Lemma adapter_forward_length_mismatch_witness :
  (2 < length [ex_emb; ex_emb; ex_emb] →
     forward (ops := Z_ops) (ex_adapter 2) [ex_emb; ex_emb; ex_emb]
     = Raise (AttributeError (mapping_name 2))) ∧
  (0 < length [ex_emb; ex_emb; ex_emb] < 2 →
     forward (ops := Z_ops) (ex_adapter 2) [ex_emb; ex_emb; ex_emb]
     = Ok (forward_spec (ops := Z_ops) (ex_adapter 2) [ex_emb; ex_emb; ex_emb]) ∧
     has_shape 1 (length [ex_emb; ex_emb; ex_emb]) 3
       (forward_spec (ops := Z_ops) (ex_adapter 2) [ex_emb; ex_emb; ex_emb]) = true) ∧
  (length [ex_emb; ex_emb; ex_emb] = 0 →
     ∃ msg, forward (ops := Z_ops) (ex_adapter 2) [ex_emb; ex_emb; ex_emb]
            = Raise (RuntimeError msg)).
Proof.
  apply (adapter_forward_length_mismatch (ops := Z_ops) (ex_adapter 2) 2 3 2 1).
  - apply init_wf.
  - repeat constructor; apply ex_emb_shape.
Defined.

(** ** The state monad of [run_inference] *)

Section MonadFacts.
Context {scalar : Type} {ops : ScalarOps scalar} (R : @RngLib scalar).
#[local] Abbreviation event := (@event scalar).

Lemma bind_unfold {A B} (m : M R A) (k : A → M R B) (st : St R) :
  (m ≫= k) st = match m st with
                | (Ok a, st') => k a st'
                | (Raise e, st') => (Raise e, st')
                end.
Proof. reflexivity. Qed.

Lemma silent_ret {A B} (f : event → option B) (a : A) : silent R f (mret a).
Proof. by intros st. Qed.

Lemma silent_lift {A B} (f : event → option B) (r : result A) : silent R f (lift R r).
Proof. by intros st. Qed.

Lemma silent_log {B} (f : event → option B) (ev : event) :
  f ev = None → silent R f (log R ev).
Proof. intros Hev st. cbn. rewrite omap_app. cbn. rewrite Hev. by rewrite app_nil_r. Qed.

Lemma silent_with_rng {A B} (f : event → option B) (h : rng R → A * rng R) :
  silent R f (with_rng R h).
Proof. intros st. unfold with_rng. by destruct (h (st_rng st)). Qed.

Lemma silent_with_rng_result {A B} (f : event → option B)
  (h : rng R → result A * rng R) : silent R f (with_rng_result R h).
Proof. intros st. unfold with_rng_result. by destruct (h (st_rng st)). Qed.

Lemma silent_set_rng {B} (f : event → option B) (g : rng R) : silent R f (set_rng R g).
Proof. by intros st. Qed.

Lemma silent_bind {A A' B} (f : event → option B) (m : M R A) (k : A → M R A') :
  silent R f m → (∀ a, silent R f (k a)) → silent R f (m ≫= k).
Proof.
  intros Hm Hk st. rewrite bind_unfold. specialize (Hm st).
  destruct (m st) as [[a|e] st']; cbn in *; [|done].
  by rewrite Hk.
Qed.

Lemma rng_free_ret {A} (a : A) : rng_free R (mret a : M R A).
Proof. intros l. by exists (Ok a), l. Qed.

Lemma rng_free_lift {A} (r : result A) : rng_free R (lift R r).
Proof. intros l. by exists r, l. Qed.

Lemma rng_free_log (ev : event) : rng_free R (log R ev).
Proof. intros l. by exists (Ok tt), (l ++ [ev]). Qed.

Lemma rng_free_bind {A B} (m : M R A) (k : A → M R B) :
  rng_free R m → (∀ a, rng_free R (k a)) → rng_free R (m ≫= k).
Proof.
  intros Hm Hk l. destruct (Hm l) as (r & l' & Hr). destruct r as [a|e].
  - destruct (Hk a l') as (r2 & l2 & Hr2). exists r2, l2. intros g.
    by rewrite bind_unfold, Hr, Hr2.
  - exists (Raise e), l'. intros g. by rewrite bind_unfold, Hr.
Qed.

Lemma St_eq (st1 st2 : St R) :
  st_rng st1 = st_rng st2 → st_log st1 = st_log st2 → st1 = st2.
Proof. destruct st1, st2. cbn. by intros -> ->. Qed.

Lemma rng_independent_set_rng {B} (g : rng R) (k : M R B) :
  rng_independent R (set_rng R g ≫= λ _, k).
Proof. by intros l g1 g2. Qed.

Lemma rng_independent_then {A B} (m : M R A) (k : A → M R B) :
  rng_independent R m → rng_independent R (m ≫= k).
Proof.
  intros Hm l g1 g2. cbv zeta. rewrite !bind_unfold.
  destruct (Hm l g1 g2) as (Hr & Hl & Hg).
  destruct (m {| st_rng := g1; st_log := l |}) as [r1 st1].
  destruct (m {| st_rng := g2; st_log := l |}) as [r2 st2].
  cbn in *. subst r2. destruct r1 as [a|e]; cbn in *.
  - by rewrite (St_eq st1 st2 (Hg eq_refl) Hl).
  - done.
Qed.

Lemma rng_independent_bind {A B} (m : M R A) (k : A → M R B) :
  rng_free R m → (∀ a, rng_independent R (k a)) → rng_independent R (m ≫= k).
Proof.
  intros Hm Hk l g1 g2. destruct (Hm l) as (r & l' & Hr).
  cbv zeta. rewrite !bind_unfold, !Hr. destruct r; [apply Hk|done].
Qed.

End MonadFacts.

(** ** The sampling loop *)

Section LoopFacts.
Context {scalar : Type} {ops : ScalarOps scalar}.
Context (R : @RngLib scalar) (Sch : @SchedulerLib scalar).
Context (unet : @UNet scalar) (guidance_scale : scalar) (training_mode : bool).
Context (c : @Conditioning scalar).
#[local] Abbreviation ndarray := (ndarray scalar).
#[local] Abbreviation loop := (denoise_loop R Sch unet guidance_scale training_mode c).

Lemma bind_ok_inv {A B} (m : M R A) (k : A → M R B) (st st' : St R) (b : B) :
  (m ≫= k) st = (Ok b, st') →
  ∃ a st1, m st = (Ok a, st1) ∧ k a st1 = (Ok b, st').
Proof.
  rewrite bind_unfold. destruct (m st) as [[a|e] st1]; [|done]. eauto.
Qed.

Lemma call_unet_spec (i : nat) (grad : bool) (b : branch) (x : ndarray) (t : timestep)
  (text_h image_h : Tensor3 scalar) (st : St R) :
  call_unet R unet i grad b x t text_h image_h st
  = (unet_call unet x t (text_h, image_h),
     {| st_rng := st_rng st;
        st_log := st_log st ++ [EvUNet i grad b x t text_h image_h] |}).
Proof. reflexivity. Qed.

(** One iteration, unfolded. *)
Lemma denoise_loop_cons (i : nat) (t : timestep) (ts : list timestep)
  (s : sched Sch) (l : ndarray) (st : St R) :
  loop i (t :: ts) s l st =
  let grad := grad_enabled_at Sch training_mode s i in
  let x := scale_model_input Sch s l t in
  let ev b := EvUNet i grad b x t (pair_of c b).1 (pair_of c b).2 in
  let st1 := {| st_rng := st_rng st; st_log := st_log st ++ [ev Unconditional] |} in
  let st2 := {| st_rng := st_rng st;
                st_log := (st_log st ++ [ev Unconditional]) ++ [ev Conditional] |} in
  let st3 := {| st_rng := st_rng st;
                st_log := ((st_log st ++ [ev Unconditional]) ++ [ev Conditional])
                          ++ [EvSchedulerStep i t] |} in
  match unet_call unet x t (pair_of c Unconditional) with
  | Raise e => (Raise e, st1)
  | Ok noise_pred_uncond =>
      match unet_call unet x t (pair_of c Conditional) with
      | Raise e => (Raise e, st2)
      | Ok noise_pred_text =>
          match guided_noise guidance_scale noise_pred_uncond noise_pred_text with
          | Raise e => (Raise e, st2)
          | Ok noise_pred =>
              match step Sch s noise_pred t l with
              | Raise e => (Raise e, st3)
              | Ok r => loop (S i) ts r.2 r.1 st3
              end
          end
      end
  end.
Proof.
  cbn [denoise_loop]. cbv zeta. rewrite bind_unfold, call_unet_spec.
  cbn [pair_of fst snd].
  destruct (unet_call unet _ t (c_uncond_embeddings c, _)) as [nu|e]; [|done].
  rewrite bind_unfold, call_unet_spec.
  destruct (unet_call unet _ t (c_encoder_hidden_states c, _)) as [nt|e]; [|done].
  rewrite bind_unfold. cbn [lift].
  destruct (guided_noise guidance_scale nu nt) as [np|e]; [|done].
  rewrite bind_unfold. cbn [log]. rewrite bind_unfold. cbn [lift].
  by destruct (step Sch s np t l) as [r|e].
Qed.

(** A loop that completes has evaluated the network at the two call sites of
    every iteration, in order, and has advanced the solver once per
    iteration. *)
Lemma denoise_loop_ok_calls (ts : list timestep) :
  ∀ (i : nat) (s : sched Sch) (l : ndarray) (st st' : St R) r,
    loop i ts s l st = (Ok r, st') →
    map call_site (unet_calls (st_log st'))
      = map call_site (unet_calls (st_log st)) ++ expected_sites c i (length ts) ∧
    omap scheduler_step_of (st_log st')
      = omap scheduler_step_of (st_log st) ++ seq i (length ts).
Proof.
  induction ts as [|t ts IH]; intros i s l st st' r H.
  - cbn in H. injection H as _ <-. unfold expected_sites. cbn. by rewrite !app_nil_r.
  - rewrite denoise_loop_cons in H. cbv zeta in H.
    destruct (unet_call unet _ t (pair_of c Unconditional)) as [nu|e]; [|done].
    destruct (unet_call unet _ t (pair_of c Conditional)) as [nt|e]; [|done].
    destruct (guided_noise guidance_scale nu nt) as [np|e]; [|done].
    destruct (step Sch s np t l) as [r0|e]; [|done].
    apply IH in H as [Hc Hs]. cbn [st_log] in Hc, Hs. split.
    + rewrite Hc. unfold unet_calls, expected_sites. rewrite !omap_app. cbn.
      rewrite !map_app. cbn. rewrite !app_nil_r, <- !app_assoc. cbn.
      by destruct c.
    + rewrite Hs. rewrite !omap_app. cbn. by rewrite !app_nil_r, <- !app_assoc.
Qed.

(** The gradient flag of every evaluation, whatever the outcome of the loop,
    for a solver whose [step] leaves the list of timesteps alone. *)
Lemma denoise_loop_grad (n : nat)
  (Hstep : ∀ s np t l r, step Sch s np t l = Ok r →
             sched_timesteps Sch r.2 = sched_timesteps Sch s)
  (ts : list timestep) :
  ∀ (i : nat) (s : sched Sch) (l : ndarray) (st : St R),
    length (sched_timesteps Sch s) = n →
    Forall (λ uc, uc_grad uc = training_mode && final_step n (uc_step uc))
           (unet_calls (st_log st)) →
    Forall (λ uc, uc_grad uc = training_mode && final_step n (uc_step uc))
           (unet_calls (st_log (loop i ts s l st).2)).
Proof.
  induction ts as [|t ts IH]; intros i s l st Hn HP; [done|].
  rewrite denoise_loop_cons. cbv zeta.
  assert (Hg : grad_enabled_at Sch training_mode s i = training_mode && final_step n i)
    by (unfold grad_enabled_at, final_step; by rewrite Hn).
  assert (H1 : Forall (λ uc, uc_grad uc = training_mode && final_step n (uc_step uc))
                 (unet_calls (st_log st ++
                    [EvUNet i (grad_enabled_at Sch training_mode s i) Unconditional
                       (scale_model_input Sch s l t) t
                       (pair_of c Unconditional).1 (pair_of c Unconditional).2]))).
  { unfold unet_calls. rewrite omap_app. apply Forall_app. split; [done|].
    cbn. by repeat constructor. }
  destruct (unet_call unet _ t (pair_of c Unconditional)) as [nu|e]; [|done].
  assert (H2 : Forall (λ uc, uc_grad uc = training_mode && final_step n (uc_step uc))
                 (unet_calls ((st_log st ++
                    [EvUNet i (grad_enabled_at Sch training_mode s i) Unconditional
                       (scale_model_input Sch s l t) t
                       (pair_of c Unconditional).1 (pair_of c Unconditional).2]) ++
                    [EvUNet i (grad_enabled_at Sch training_mode s i) Conditional
                       (scale_model_input Sch s l t) t
                       (pair_of c Conditional).1 (pair_of c Conditional).2]))).
  { unfold unet_calls. rewrite omap_app. apply Forall_app. split; [done|].
    cbn. by repeat constructor. }
  destruct (unet_call unet _ t (pair_of c Conditional)) as [nt|e]; [|done].
  destruct (guided_noise guidance_scale nu nt) as [np|e]; [|done].
  assert (H3 : ∀ ev : nat * timestep,
             Forall (λ uc, uc_grad uc = training_mode && final_step n (uc_step uc))
                 (unet_calls (((st_log st ++
                    [EvUNet i (grad_enabled_at Sch training_mode s i) Unconditional
                       (scale_model_input Sch s l t) t
                       (pair_of c Unconditional).1 (pair_of c Unconditional).2]) ++
                    [EvUNet i (grad_enabled_at Sch training_mode s i) Conditional
                       (scale_model_input Sch s l t) t
                       (pair_of c Conditional).1 (pair_of c Conditional).2]) ++
                    [EvSchedulerStep ev.1 ev.2]))).
  { intros ev. unfold unet_calls. rewrite omap_app. cbn. by rewrite app_nil_r. }
  destruct (step Sch s np t l) as [r0|e] eqn:Hr; [|exact (H3 (i, t))].
  apply IH; [|exact (H3 (i, t))].
  by rewrite (Hstep _ _ _ _ _ Hr).
Qed.

End LoopFacts.

(** ** run_inference *)

Ltac silent_tac Hf :=
  repeat first
    [ apply silent_ret | apply silent_lift | apply silent_with_rng
    | apply silent_with_rng_result | apply silent_set_rng
    | (apply silent_log; apply Hf; reflexivity)
    | (apply silent_bind; [|intros ?])
    | progress cbv zeta
    | case_match ].

Section RunFacts.
Context {scalar : Type} {ops : ScalarOps scalar}.
Context (R : @RngLib scalar) (Sch : @SchedulerLib scalar).
Context (example : @Example scalar) (tokenizer : Tokenizer)
        (image_encoder : ndarray scalar -> result (@ImageEncoderOutput scalar))
        (text_encoder : @TextEncoderInput scalar -> result (Tensor3 scalar))
        (unet : @UNet scalar) (vae : @VAE scalar R)
        (scheduler : sched_config Sch) (latent_size : nat)
        (token_index : Z) (from_noised_image : bool).
#[local] Abbreviation event := (@event scalar).
#[local] Abbreviation run ta ia idx gs T seed tm :=
  (run_inference R Sch example tokenizer image_encoder text_encoder unet ta ia vae
     scheduler idx latent_size gs T token_index seed from_noised_image tm).
#[local] Abbreviation prep idx T seed :=
  (prepare R Sch example tokenizer image_encoder unet vae scheduler idx latent_size
     T seed from_noised_image).
#[local] Abbreviation asm ta ia :=
  (assemble R Sch example text_encoder ta ia token_index).
#[local] Abbreviation dec := (decode_latents R vae).
#[local] Abbreviation loop gs tm := (denoise_loop R Sch unet gs tm).

Lemma run_inference_unfold ta ia idx gs T seed tm (st : St R) :
  run ta ia idx gs T seed tm st =
  match prep idx T seed st with
  | (Raise e, st1) => (Raise e, st1)
  | (Ok p, st1) =>
      match asm ta ia p st1 with
      | (Raise e, st2) => (Raise e, st2)
      | (Ok c, st2) =>
          match loop gs tm c 0 (sched_timesteps Sch (p_scheduler p)) (p_scheduler p)
                  (p_latents p) st2 with
          | (Raise e, st3) => (Raise e, st3)
          | (Ok r, st3) => dec r.1 st3
          end
      end
  end.
Proof.
  unfold run_inference. rewrite bind_unfold.
  destruct (prep idx T seed st) as [[p|e] st1]; [|done].
  rewrite bind_unfold. destruct (asm ta ia p st1) as [[c|e] st2]; [|done].
  rewrite bind_unfold. by destruct (loop gs tm c 0 _ _ _ st2) as [[r|e] st3].
Qed.

Lemma silent_prepare {B} (f : event → option B) idx T seed :
  (∀ ev, phase_of ev = PhPrepare → f ev = None) → silent R f (prep idx T seed).
Proof.
  intros Hf. unfold prepare, prepare_inputs, make_uncond_input_ids, make_noise, make_latents.
  silent_tac Hf.
Qed.

Lemma silent_assemble {B} (f : event → option B) ta ia p :
  (∀ ev, phase_of ev = PhAssemble → f ev = None) → silent R f (asm ta ia p).
Proof.
  intros Hf. unfold assemble, call_adapter, call_text_encoder. silent_tac Hf.
Qed.

Lemma silent_decode {B} (f : event → option B) l :
  (∀ ev, phase_of ev = PhDecode → f ev = None) → silent R f (dec l).
Proof. intros Hf. unfold decode_latents. silent_tac Hf. Qed.

Lemma silent_loop {B} (f : event → option B) gs tm c ts :
  (∀ ev, phase_of ev = PhLoop → f ev = None) →
  ∀ i s l, silent R f (loop gs tm c i ts s l).
Proof.
  intros Hf. induction ts as [|t ts IH]; intros i s l; cbn [denoise_loop].
  - apply silent_ret.
  - unfold call_unet. silent_tac Hf. apply IH.
Qed.

Lemma expected_sites_length (c : @Conditioning scalar) (i n : nat) :
  length (expected_sites c i n) = 2 * n.
Proof.
  unfold expected_sites. revert i. induction n as [|n IH]; intros i; [done|].
  cbn. rewrite IH. lia.
Qed.

Lemma expected_sites_steps (c : @Conditioning scalar) (i n : nat) :
  map (λ x, x.1.1) (expected_sites c i n) = flat_map (λ k, [k; k]) (seq i n).
Proof.
  unfold expected_sites. revert i. induction n as [|n IH]; intros i; [done|].
  cbn. by rewrite IH.
Qed.

(** The scheduler of the loop is the one [set_timesteps] returned. *)
Lemma prepare_scheduler idx T seed (st st1 : St R) (p : Prepared Sch) :
  prep idx T seed st = (Ok p, st1) →
  ∃ s0, from_config Sch scheduler = Ok s0 ∧
        set_timesteps Sch T s0 = Ok (p_scheduler p).
Proof.
  unfold prepare. intros H.
  apply bind_ok_inv in H as (s0 & st_a & H0 & H).
  apply bind_ok_inv in H as (s1 & st_b & H1 & H).
  apply bind_ok_inv in H as (ids & st_c & _ & H).
  unfold prepare_inputs in H. cbv zeta in H.
  repeat (apply bind_ok_inv in H as (? & ? & _ & H)).
  unfold lift in H0, H1. injection H0 as H0 _. injection H1 as H1 _.
  injection H as <- _. cbn. eauto.
Qed.

(** A completed run, phase by phase. *)
Lemma run_inference_ok_inv ta ia idx gs T seed tm (st st' : St R) images :
  run ta ia idx gs T seed tm st = (Ok images, st') →
  ∃ p st1 c st2 r st3,
    prep idx T seed st = (Ok p, st1) ∧
    asm ta ia p st1 = (Ok c, st2) ∧
    loop gs tm c 0 (sched_timesteps Sch (p_scheduler p)) (p_scheduler p) (p_latents p) st2
      = (Ok r, st3) ∧
    dec r.1 st3 = (Ok images, st').
Proof.
  rewrite run_inference_unfold. intros H.
  destruct (prep idx T seed st) as [[p|e] st1] eqn:Hp; [|done].
  destruct (asm ta ia p st1) as [[c|e] st2] eqn:Ha; [|done].
  destruct (loop gs tm c 0 _ _ _ st2) as [[r|e] st3] eqn:Hl; [|done].
  exists p, st1, c, st2, r, st3. repeat split; assumption || reflexivity.
Qed.

Lemma silent_at {A B} (f : event → option B) (m : M R A) (st st' : St R) r :
  silent R f m → m st = (r, st') → omap f (st_log st') = omap f (st_log st).
Proof. intros Hm H. specialize (Hm st). by rewrite H in Hm. Qed.

Ltac silent_phase :=
  first [ apply silent_prepare | apply silent_assemble
        | apply silent_decode | apply silent_loop ];
  by intros [].

(** [log_eq f H]: the computation of [H : m st = (r, st')] is silent for [f]. *)
Ltac log_eq f H :=
  match type of H with
  | ?m ?st = (?r, ?st') =>
      let E := fresh "E" in
      assert (E : omap f (st_log st') = omap f (st_log st))
        by (apply (silent_at f m st st' r); [silent_phase|exact H]);
      rewrite E; clear E
  end.

Lemma call_photoverse_adapter (s : stream) (a : @PhotoVerseAdapter scalar)
  (embs : list (Tensor3 scalar)) (k : Z) (st : St R) :
  call_adapter R s (PhotoVerseAdapter_module a) embs k st
  = (Raise (TypeError "PhotoVerseAdapter.forward() got an unexpected keyword argument 'token_index'"),
     {| st_rng := st_rng st; st_log := st_log st ++ [EvAdapter s embs k] |}).
Proof. reflexivity. Qed.

Lemma assemble_photoverse (ta : @PhotoVerseAdapter scalar) ia (p : Prepared Sch)
  (st : St R) :
  asm (PhotoVerseAdapter_module ta) ia p st
  = (Raise (TypeError "PhotoVerseAdapter.forward() got an unexpected keyword argument 'token_index'"),
     {| st_rng := st_rng st;
        st_log := st_log st ++ [EvAdapter TextStream (p_image_embeddings p) token_index] |}).
Proof. unfold assemble. by rewrite bind_unfold, call_photoverse_adapter. Qed.

(** C3, as amended.  When the adapters are [PhotoVerseAdapter] instances,
    [run_inference] never evaluates the U-Net and never returns.  If the
    lines before the adapter calls (scheduler, unconditional ids, noise,
    latents, vision encoder, layer selection) return, the first adapter call
    raises the TypeError of [PhotoVerseAdapter.forward], which has no
    [token_index] parameter; if one of those lines raises, its exception is
    the outcome, not a TypeError of the adapter. *)
Theorem run_inference_photoverse_adapter_type_error
  (ta ia : @PhotoVerseAdapter scalar) idx gs T seed tm (g : rng R) :
  let out := exec R (run (PhotoVerseAdapter_module ta) (PhotoVerseAdapter_module ia)
                       idx gs T seed tm) g in
  unet_calls (st_log out.2) = [] ∧
  match (exec R (prep idx T seed) g).1 with
  | Ok _ =>
      out.1 = Raise (TypeError "PhotoVerseAdapter.forward() got an unexpected keyword argument 'token_index'")
  | Raise e => out.1 = Raise e
  end.
Proof.
  cbv zeta. unfold exec. rewrite run_inference_unfold.
  pose proof (silent_prepare unet_call_of idx T seed (λ ev, ltac:(by destruct ev))
                {| st_rng := g; st_log := [] |}) as Hs.
  destruct (prep idx T seed _) as [[p|e] st1]; cbn in *.
  - rewrite assemble_photoverse. cbn. split; [|done].
    unfold unet_calls. rewrite omap_app, Hs. done.
  - done.
Qed.

Lemma run_inference_ok_sites
  (Hlen : ∀ n s0 s, set_timesteps Sch n s0 = Ok s →
            length (sched_timesteps Sch s) = Z.to_nat n)
  ta ia idx gs T seed tm (st0 : St R) images (st' : St R) :
  st_log st0 = [] →
  run ta ia idx gs T seed tm st0 = (Ok images, st') →
  omap scheduler_step_of (st_log st') = seq 0 (Z.to_nat T) ∧
  ∃ c, map call_site (unet_calls (st_log st')) = expected_sites c 0 (Z.to_nat T).
Proof.
  intros Hnil H.
  apply run_inference_ok_inv in H as (p & st1 & c & st2 & r & st3 & Hp & Ha & Hl & Hd).
  destruct (prepare_scheduler _ _ _ _ _ _ Hp) as (s0 & _ & Hset).
  apply Hlen in Hset.
  apply denoise_loop_ok_calls in Hl as [Hc Hs]. rewrite Hset in Hc, Hs.
  assert (Hu : unet_calls (st_log st') = unet_calls (st_log st3))
    by (unfold unet_calls; by log_eq (@unet_call_of scalar) Hd).
  assert (Hu2 : unet_calls (st_log st2) = [])
    by (unfold unet_calls; log_eq (@unet_call_of scalar) Ha;
        log_eq (@unet_call_of scalar) Hp; by rewrite Hnil).
  assert (Hs' : omap scheduler_step_of (st_log st') = omap scheduler_step_of (st_log st3))
    by (by log_eq (@scheduler_step_of scalar) Hd).
  assert (Hs2 : omap scheduler_step_of (st_log st2) = [])
    by (log_eq (@scheduler_step_of scalar) Ha; log_eq (@scheduler_step_of scalar) Hp;
        by rewrite Hnil).
  rewrite Hu2 in Hc. rewrite Hs2 in Hs. cbn in Hc, Hs.
  rewrite Hu, Hs'. split; [done|]. by exists c.
Qed.

(** The gradient flag of every evaluation of a run, whatever its outcome. *)
Lemma run_inference_grad
  (Hlen : ∀ n s0 s, set_timesteps Sch n s0 = Ok s →
            length (sched_timesteps Sch s) = Z.to_nat n)
  (Hstep : ∀ s np t l r, step Sch s np t l = Ok r →
             sched_timesteps Sch r.2 = sched_timesteps Sch s)
  ta ia idx gs T seed tm (st0 : St R) :
  st_log st0 = [] →
  Forall (λ uc, uc_grad uc = tm && final_step (Z.to_nat T) (uc_step uc))
         (unet_calls (st_log (run ta ia idx gs T seed tm st0).2)).
Proof.
  intros Hnil. rewrite run_inference_unfold.
  destruct (prep idx T seed st0) as [[p|e] st1] eqn:Hp; cbn [snd].
  2:{ unfold unet_calls. log_eq (@unet_call_of scalar) Hp. by rewrite Hnil. }
  destruct (asm ta ia p st1) as [[c|e] st2] eqn:Ha; cbn [snd].
  2:{ unfold unet_calls. log_eq (@unet_call_of scalar) Ha.
      log_eq (@unet_call_of scalar) Hp. by rewrite Hnil. }
  destruct (prepare_scheduler _ _ _ _ _ _ Hp) as (s0 & _ & Hset). apply Hlen in Hset.
  pose proof (denoise_loop_grad R Sch unet gs tm c (Z.to_nat T) Hstep
                (sched_timesteps Sch (p_scheduler p)) 0 (p_scheduler p) (p_latents p)
                st2 Hset) as Hg.
  destruct (loop gs tm c 0 _ _ _ st2) as [[r|e] st3] eqn:Hl; cbn [snd] in *.
  - destruct (dec r.1 st3) as [res st4] eqn:Hd. cbn [snd].
    unfold unet_calls in *. log_eq (@unet_call_of scalar) Hd. apply Hg.
    log_eq (@unet_call_of scalar) Ha. log_eq (@unet_call_of scalar) Hp. by rewrite Hnil.
  - apply Hg. unfold unet_calls.
    log_eq (@unet_call_of scalar) Ha. log_eq (@unet_call_of scalar) Hp. by rewrite Hnil.
Qed.

Lemma final_step_spec (n i : nat) : final_step n i = true ↔ i + 1 = n.
Proof. unfold final_step. rewrite Z.eqb_eq. lia. Qed.


(** C5. With [training_mode = False] every U-Net evaluation of a run is made
    with gradients disabled; with [training_mode = True] an evaluation is made
    with gradients enabled exactly when it belongs to the last of the [T]
    steps (index [T - 1]); and a run that completes has evaluated the network
    at every step 0, ..., T-1.  (The solver's [step] is taken to leave its
    list of timesteps alone, and [set_timesteps T] to give [T] timesteps.) *)
Theorem gradient_tracking_policy
  (Hlen : ∀ n s0 s, set_timesteps Sch n s0 = Ok s →
            length (sched_timesteps Sch s) = Z.to_nat n)
  (Hstep : ∀ s np t l r, step Sch s np t l = Ok r →
             sched_timesteps Sch r.2 = sched_timesteps Sch s)
  ta ia idx gs T seed tm (g : rng R) :
  let out := exec R (run ta ia idx gs T seed tm) g in
  (tm = false → Forall (λ uc, uc_grad uc = false) (unet_calls (st_log out.2))) ∧
  (tm = true →
     Forall (λ uc, uc_grad uc = true ↔ uc_step uc + 1 = Z.to_nat T)
            (unet_calls (st_log out.2))) ∧
  (is_ok out.1 = true →
     map uc_step (unet_calls (st_log out.2))
     = flat_map (λ k, [k; k]) (seq 0 (Z.to_nat T))).
Proof.
  cbv zeta. unfold exec.
  pose proof (run_inference_grad Hlen Hstep ta ia idx gs T seed tm
                {| st_rng := g; st_log := [] |} eq_refl) as Hg.
  repeat split.
  - intros ->. eapply Forall_impl; [exact Hg|]. by intros uc ->.
  - intros ->. eapply Forall_impl; [exact Hg|]. intros uc ->. cbn.
    apply final_step_spec.
  - destruct (run ta ia idx gs T seed tm _) as [[images|e] st'] eqn:H; [|done].
    intros _. cbn [snd].
    apply (run_inference_ok_sites Hlen) in H as [_ [c Hc]]; [|done].
    rewrite <- expected_sites_steps with (c := c). rewrite <- Hc.
    rewrite map_map. done.
Qed.

(** *** Selecting the layers *)

Lemma py_index_in_range {A} (l : list A) (j : Z) (x : A) :
  (0 ≤ j)%Z → l !! Z.to_nat j = Some x → py_index l j = Ok x.
Proof.
  intros Hj Hx. unfold py_index. cbv zeta.
  pose proof (lookup_lt_Some _ _ _ Hx) as Hlt.
  destruct (j <? 0)%Z eqn:Hneg; [apply Z.ltb_lt in Hneg; lia|].
  replace ((0 <=? j)%Z && (j <? Z.of_nat (length l))%Z) with true; [by rewrite Hx|].
  symmetry. apply andb_true_iff. split; [apply Z.leb_le|apply Z.ltb_lt]; lia.
Qed.

Lemma select_embeddings_skip (f : @ImageEncoderOutput scalar) (pre post : list Z) (i : Z) :
  (Z.of_nat (length (hidden_states f)) ≤ i)%Z →
  select_embeddings f (pre ++ i :: post) = select_embeddings f (pre ++ post).
Proof.
  intros Hi. unfold select_embeddings.
  rewrite !filter_app, filter_cons_False by lia. done.
Qed.

Lemma select_embeddings_in_range (f : @ImageEncoderOutput scalar) (idx : list Z) :
  Forall (λ j, (0 ≤ j)%Z) idx →
  select_embeddings f idx
  = Ok (last_hidden_state f :: omap (λ j, hidden_states f !! Z.to_nat j) idx).
Proof.
  intros Hidx. unfold select_embeddings.
  assert (Hm : mapM (py_index (hidden_states f))
                 (filter (λ i, (i < Z.of_nat (length (hidden_states f)))%Z) idx)
               = Ok (omap (λ j, hidden_states f !! Z.to_nat j) idx)).
  { induction Hidx as [|j idx Hj _ IH]; [done|].
    destruct (decide (j < Z.of_nat (length (hidden_states f)))%Z) as [Hlt|Hge].
    - rewrite filter_cons_True by done.
      destruct (lookup_lt_is_Some_2 (hidden_states f) (Z.to_nat j)) as [x Hx]; [lia|].
      cbn. rewrite (py_index_in_range _ _ _ Hj Hx), Hx. cbn.
      cbn in IH. by rewrite IH.
    - rewrite filter_cons_False by done. cbn.
      rewrite (lookup_ge_None_2 (hidden_states f) (Z.to_nat j)) by lia. done. }
  by rewrite Hm.
Qed.

Lemma bind_ext {A B} (m : M R A) (k1 k2 : A → M R B) (st : St R) :
  (∀ a st', k1 a st' = k2 a st') → (m ≫= k1) st = (m ≫= k2) st.
Proof. intros Hk. rewrite !bind_unfold. destruct (m st) as [[a|e] st']; [apply Hk|done]. Qed.

Lemma lift_bind_ext {A B} (r : result A) (k1 k2 : A → M R B) (st : St R) :
  (∀ a st', r = Ok a → k1 a st' = k2 a st') →
  (lift R r ≫= k1) st = (lift R r ≫= k2) st.
Proof. intros Hk. rewrite !bind_unfold. cbn. destruct r as [a|e]; [by apply Hk|done]. Qed.

Lemma prepare_idx_ext idx1 idx2 T seed (st : St R) :
  (∀ x f, image_encoder x = Ok f → select_embeddings f idx1 = select_embeddings f idx2) →
  prep idx1 T seed st = prep idx2 T seed st.
Proof.
  intros Hsel. unfold prepare.
  apply bind_ext. intros s0 st0. apply bind_ext. intros s1 st1.
  apply bind_ext. intros ids st2. unfold prepare_inputs. cbv zeta.
  apply bind_ext. intros noise st3. apply bind_ext. intros latents st4.
  apply bind_ext. intros [] st5. apply lift_bind_ext. intros f st6 Hf.
  apply bind_ext. intros [] st7. apply lift_bind_ext. intros fu st8 Hfu.
  by rewrite (Hsel _ _ Hf), (Hsel _ _ Hfu).
Qed.

(** *** The seed *)

Lemma rng_free_make_uncond_input_ids :
  rng_free R (make_uncond_input_ids R example tokenizer).
Proof.
  unfold make_uncond_input_ids. destruct (negative_text_input_ids example).
  - apply rng_free_ret.
  - repeat first [ apply rng_free_lift | apply rng_free_log
                 | (apply rng_free_bind; [|intros ?]) ].
Qed.

Lemma rng_independent_make_noise (s : Z) (k : ndarray scalar → M R (Prepared Sch)) :
  rng_independent R (make_noise R example unet latent_size (Some s) ≫= k).
Proof.
  apply rng_independent_then. unfold make_noise.
  apply rng_independent_bind; [apply rng_free_log|]. intros _.
  apply rng_independent_set_rng.
Qed.

(** C10. With a seed, the outcome of [run_inference] (the images, or the
    exception) and every call it makes are the same whatever state the
    global generator is in when the call starts: two calls with one seed,
    the same inputs and the same (deterministic) collaborators agree. *)
Theorem seeded_run_deterministic ta ia idx gs T tm (s : Z) (g1 g2 : rng R) :
  (exec R (run ta ia idx gs T (Some s) tm) g1).1
  = (exec R (run ta ia idx gs T (Some s) tm) g2).1 ∧
  st_log (exec R (run ta ia idx gs T (Some s) tm) g1).2
  = st_log (exec R (run ta ia idx gs T (Some s) tm) g2).2.
Proof.
  assert (H : rng_independent R (run ta ia idx gs T (Some s) tm)).
  { unfold run_inference. apply rng_independent_then. unfold prepare.
    apply rng_independent_bind; [apply rng_free_lift|]. intros s0.
    apply rng_independent_bind; [apply rng_free_lift|]. intros s1.
    apply rng_independent_bind; [apply rng_free_make_uncond_input_ids|]. intros ids.
    unfold prepare_inputs. apply rng_independent_make_noise. }
  destruct (H [] g1 g2) as (Hr & Hl & _). by split.
Qed.

(** *** Guidance scale one *)















(** *** The unconditional text stream *)

Lemma lift_inv {A} (r : result A) (a : A) (st st1 : St R) :
  lift R r st = (Ok a, st1) → r = Ok a ∧ st1 = st.
Proof. unfold lift. by intros [= -> ->]. Qed.

Lemma log_inv (ev : event) (u : unit) (st st1 : St R) :
  log R ev st = (Ok u, st1) →
  st1 = {| st_rng := st_rng st; st_log := st_log st ++ [ev] |}.
Proof. unfold log. by intros [= _ <-]. Qed.

Lemma make_uncond_input_ids_inv (st st1 : St R) (ids : token_ids) :
  make_uncond_input_ids R example tokenizer st = (Ok ids, st1) →
  match negative_text_input_ids example with
  | Some ids' => ids = ids' ∧ st_log st1 = st_log st
  | None =>
      ∃ b, shape0 (pixel_values example) = Ok b ∧
           tokenize tokenizer (replicate b "") (model_max_length tokenizer) = Ok ids ∧
           st_log st1 = st_log st ++ [EvTokenizer (replicate b "") (model_max_length tokenizer)]
  end.
Proof.
  unfold make_uncond_input_ids. destruct (negative_text_input_ids example) as [ids'|].
  - by intros [= <- <-].
  - intros H. apply bind_ok_inv in H as (b & sa & [Hb ->]%lift_inv & H).
    apply bind_ok_inv in H as (u & sb & ->%log_inv & [Ht ->]%lift_inv).
    exists b. by repeat split.
Qed.

Lemma silent_prepare_inputs_tokenizer idx seed (s : sched Sch) (ids : token_ids) :
  silent R tokenizer_call_of
    (prepare_inputs R Sch example image_encoder unet vae idx latent_size seed
       from_noised_image s ids).
Proof.
  unfold prepare_inputs, make_noise, make_latents.
  repeat first
    [ apply silent_ret | apply silent_lift | apply silent_with_rng
    | apply silent_with_rng_result | apply silent_set_rng
    | (apply silent_log; reflexivity)
    | (apply silent_bind; [|intros ?])
    | progress cbv zeta
    | case_match ].
Qed.

Lemma prepare_ok_inv idx T seed (st st1 : St R) (p : Prepared Sch) :
  prep idx T seed st = (Ok p, st1) →
  (∃ f fu,
     image_encoder (pixel_values_clip example) = Ok f ∧
     select_embeddings f idx = Ok (p_image_embeddings p) ∧
     image_encoder (zeros_like (pixel_values_clip example)) = Ok fu ∧
     select_embeddings fu idx = Ok (p_uncond_image_embeddings p)) ∧
  match negative_text_input_ids example with
  | Some ids' =>
      p_uncond_input_ids p = ids' ∧
      omap tokenizer_call_of (st_log st1) = omap tokenizer_call_of (st_log st)
  | None =>
      ∃ b, shape0 (pixel_values example) = Ok b ∧
           tokenize tokenizer (replicate b "") (model_max_length tokenizer)
             = Ok (p_uncond_input_ids p) ∧
           omap tokenizer_call_of (st_log st1)
             = omap tokenizer_call_of (st_log st)
               ++ [(replicate b "", model_max_length tokenizer)]
  end.
Proof.
  unfold prepare. intros H.
  apply bind_ok_inv in H as (s0 & sa & [_ ->]%lift_inv & H).
  apply bind_ok_inv in H as (s1 & sb & [_ ->]%lift_inv & H).
  apply bind_ok_inv in H as (ids & sc & Hids & H).
  pose proof (silent_at tokenizer_call_of _ _ _ _
                (silent_prepare_inputs_tokenizer idx seed s1 ids) H) as Hlog.
  apply make_uncond_input_ids_inv in Hids.
  unfold prepare_inputs in H. cbv zeta in H.
  apply bind_ok_inv in H as (noise & s3 & _ & H).
  apply bind_ok_inv in H as (latents & s4 & _ & H).
  apply bind_ok_inv in H as (u1 & s5 & _ & H).
  apply bind_ok_inv in H as (f & s6 & [Hf _]%lift_inv & H).
  apply bind_ok_inv in H as (u2 & s7 & _ & H).
  apply bind_ok_inv in H as (fu & s8 & [Hfu _]%lift_inv & H).
  apply bind_ok_inv in H as (embs & s9 & [He _]%lift_inv & H).
  apply bind_ok_inv in H as (uembs & s10 & [Hue _]%lift_inv & H).
  injection H as <- _. cbn [p_image_embeddings p_uncond_image_embeddings p_uncond_input_ids].
  split; [by exists f, fu|].
  destruct (negative_text_input_ids example) as [ids'|].
  - destruct Hids as [-> Hl]. by rewrite Hlog, Hl.
  - destruct Hids as (b & Hb & Ht & Hl). exists b. repeat split; [done..|].
    rewrite Hlog, Hl, omap_app. done.
Qed.

Lemma call_adapter_inv (s : stream) (m : Module_ scalar) (embs : list (Tensor3 scalar))
  (k : Z) (t : Tensor3 scalar) (st st1 : St R) :
  call_adapter R s m embs k st = (Ok t, st1) →
  st1 = {| st_rng := st_rng st; st_log := st_log st ++ [EvAdapter s embs k] |}.
Proof.
  unfold call_adapter. intros H.
  apply bind_ok_inv in H as (u & sa & ->%log_inv & H).
  apply bind_ok_inv in H as (u' & sb & [_ ->]%lift_inv & [_ ->]%lift_inv). done.
Qed.

Lemma call_text_encoder_inv (inp : @TextEncoderInput scalar) (h : Tensor3 scalar)
  (st st1 : St R) :
  call_text_encoder R text_encoder inp st = (Ok h, st1) →
  text_encoder inp = Ok h ∧
  st1 = {| st_rng := st_rng st; st_log := st_log st ++ [EvTextEncoder inp] |}.
Proof.
  unfold call_text_encoder. intros H.
  apply bind_ok_inv in H as (u & sa & ->%log_inv & [Hr ->]%lift_inv). done.
Qed.

Lemma assemble_ok_inv ta ia (p : Prepared Sch) (c : @Conditioning scalar) (st st1 : St R) :
  asm ta ia p st = (Ok c, st1) →
  ∃ concept : Tensor3 scalar,
    let uncond_inp := {| text_input_ids := p_uncond_input_ids p;
                         concept_text_embeddings := None;
                         concept_placeholder_idx := None |} in
    let cond_inp := {| text_input_ids := ex_text_input_ids example;
                       concept_text_embeddings := Some concept;
                       concept_placeholder_idx := Some (ex_concept_placeholder_idx example) |} in
    text_encoder uncond_inp = Ok (c_uncond_embeddings c) ∧
    text_encoder cond_inp = Ok (c_encoder_hidden_states c) ∧
    omap text_encoder_call_of (st_log st1)
      = omap text_encoder_call_of (st_log st) ++ [uncond_inp; cond_inp] ∧
    omap adapter_call_of (st_log st1)
      = omap adapter_call_of (st_log st)
        ++ [(TextStream, p_image_embeddings p); (ImageStream, p_image_embeddings p);
            (ImageStream, p_uncond_image_embeddings p)].
Proof.
  unfold assemble. intros H.
  apply bind_ok_inv in H as (concept & s1 & ->%call_adapter_inv & H).
  apply bind_ok_inv in H as (ehi & s2 & ->%call_adapter_inv & H).
  apply bind_ok_inv in H as (uehi & s3 & ->%call_adapter_inv & H).
  apply bind_ok_inv in H as (ue & s4 & [Hue ->]%call_text_encoder_inv & H).
  apply bind_ok_inv in H as (eh & s5 & [Heh ->]%call_text_encoder_inv & H).
  injection H as <- <-. exists concept. cbn.
  repeat split; [done..| |]; rewrite !omap_app; cbn;
    by rewrite !app_nil_r, <- !app_assoc.
Qed.

(** C4, as amended.  In a run that completes, the unconditional text hidden
    states are what the text encoder returns for token ids alone, with no
    adapter tokens and no placeholder index; the ids are the example's
    [negative_text_input_ids] when it has them (the tokenizer is then not
    called), and otherwise the tokenization, padded to the model's maximal
    length, of one empty prompt per batch element.  The text-stream adapter
    is called once, on the conditional embeddings; both adapter calls on the
    unconditional side are calls of the image-stream adapter. *)
Theorem unconditional_text_hidden_states ta ia idx gs T seed tm (g : rng R)
  images (st' : St R) :
  exec R (run ta ia idx gs T seed tm) g = (Ok images, st') →
  ∃ (uncond_ids : token_ids) (c : @Conditioning scalar)
    (f fu : @ImageEncoderOutput scalar) (cond_embs uncond_embs : list (Tensor3 scalar))
    (concept : Tensor3 scalar) (n : nat),
    match negative_text_input_ids example with
    | Some ids => uncond_ids = ids ∧ omap tokenizer_call_of (st_log st') = []
    | None =>
        ∃ b, shape0 (pixel_values example) = Ok b ∧
             tokenize tokenizer (replicate b "") (model_max_length tokenizer)
               = Ok uncond_ids ∧
             omap tokenizer_call_of (st_log st')
               = [(replicate b "", model_max_length tokenizer)]
    end ∧
    omap text_encoder_call_of (st_log st')
      = [ {| text_input_ids := uncond_ids;
             concept_text_embeddings := None;
             concept_placeholder_idx := None |};
          {| text_input_ids := ex_text_input_ids example;
             concept_text_embeddings := Some concept;
             concept_placeholder_idx := Some (ex_concept_placeholder_idx example) |} ] ∧
    text_encoder {| text_input_ids := uncond_ids;
                    concept_text_embeddings := None;
                    concept_placeholder_idx := None |} = Ok (c_uncond_embeddings c) ∧
    image_encoder (pixel_values_clip example) = Ok f ∧
    select_embeddings f idx = Ok cond_embs ∧
    image_encoder (zeros_like (pixel_values_clip example)) = Ok fu ∧
    select_embeddings fu idx = Ok uncond_embs ∧
    omap adapter_call_of (st_log st')
      = [(TextStream, cond_embs); (ImageStream, cond_embs); (ImageStream, uncond_embs)] ∧
    map call_site (unet_calls (st_log st')) = expected_sites c 0 n.
Proof.
  unfold exec. intros H.
  apply run_inference_ok_inv in H as (p & st1 & c & st2 & r & st3 & Hp & Ha & Hl & Hd).
  destruct (prepare_ok_inv _ _ _ _ _ _ Hp) as [(f & fu & Hf & He & Hfu & Hue) Hids].
  destruct (assemble_ok_inv _ _ _ _ _ _ Ha) as (concept & Hu & Hc & Htext & Hadapt).
  cbv zeta in *. cbn [st_log] in Hids.
  exists (p_uncond_input_ids p), c, f, fu, (p_image_embeddings p),
         (p_uncond_image_embeddings p), concept,
         (length (sched_timesteps Sch (p_scheduler p))).
  assert (Htok : omap tokenizer_call_of (st_log st') = omap tokenizer_call_of (st_log st1)).
  { log_eq (@tokenizer_call_of scalar) Hd. log_eq (@tokenizer_call_of scalar) Hl.
    by log_eq (@tokenizer_call_of scalar) Ha. }
  split.
  { rewrite Htok. destruct (negative_text_input_ids example) as [ids'|]; [done|].
    destruct Hids as (b & Hb & Ht & Hl'). by exists b. }
  split.
  { log_eq (@text_encoder_call_of scalar) Hd. log_eq (@text_encoder_call_of scalar) Hl.
    rewrite Htext. log_eq (@text_encoder_call_of scalar) Hp. done. }
  repeat (split; [done|]). split.
  { log_eq (@adapter_call_of scalar) Hd. log_eq (@adapter_call_of scalar) Hl.
    rewrite Hadapt. log_eq (@adapter_call_of scalar) Hp. done. }
  apply denoise_loop_ok_calls in Hl as [Hcalls _].
  unfold unet_calls in *. log_eq (@unet_call_of scalar) Hd. rewrite Hcalls.
  log_eq (@unet_call_of scalar) Ha. log_eq (@unet_call_of scalar) Hp. done.
Qed.

End RunFacts.

(** ** The run on small inputs *)

Lemma ex_sched_length (n : Z) (s0 s : sched ex_sched) :
  set_timesteps ex_sched n s0 = Ok s →
  length (sched_timesteps ex_sched s) = Z.to_nat n.
Proof. intros [= <-]. cbn. by rewrite length_rev, length_map, length_seq. Qed.

Lemma ex_sched_step (s : sched ex_sched) (np : ndarray Z) (t : timestep) (l : ndarray Z)
  (r : ndarray Z * sched ex_sched) :
  step ex_sched s np t l = Ok r →
  sched_timesteps ex_sched r.2 = sched_timesteps ex_sched s.
Proof. cbn. destruct (nd_sub l np); cbn; [|done]. by intros [= <-]. Qed.





Lemma gradient_tracking_policy_witness :
  let out := exec ex_rng (ex_run None [0; 5]%Z 2 (Some 7%Z) true) 0%Z in
  (true = false → Forall (λ uc, uc_grad uc = false) (unet_calls (st_log out.2))) ∧
  (true = true →
     Forall (λ uc, uc_grad uc = true ↔ uc_step uc + 1 = Z.to_nat 2)
            (unet_calls (st_log out.2))) ∧
  (is_ok out.1 = true →
     map uc_step (unet_calls (st_log out.2))
     = flat_map (λ k, [k; k]) (seq 0 (Z.to_nat 2))).
Proof.
  apply (gradient_tracking_policy (ops := Z_ops) ex_rng ex_sched (ex_example None)
           ex_tokenizer ex_image_encoder ex_text_encoder ex_unet ex_vae tt 1 0%Z false
           ex_sched_length ex_sched_step ex_module ex_module [0; 5]%Z 1%Z 2%Z
           (Some 7%Z) true 0%Z).
Defined.

Lemma ex_image_encoder_depth (x : ndarray Z) (f : @ImageEncoderOutput Z) :
  ex_image_encoder x = Ok f → (Z.of_nat (length (hidden_states f)) ≤ 5)%Z.
Proof. intros [= <-]. cbn. lia. Qed.

(** Indices 7 and 2 are beyond the two hidden states and leave no trace. *)
Example layer_index_guard_lists :
  select_embeddings (scalar := Z)
    {| last_hidden_state := ex_emb; pooler_output := []; hidden_states := [[]; ex_emb] |}
    [1; 7; 0; 2]%Z
  = Ok [ex_emb; ex_emb; []].
Proof. reflexivity. Qed.

Lemma unconditional_text_hidden_states_witness :
  let out := exec ex_rng (ex_run None [0; 5]%Z 2 (Some 7%Z) true) 0%Z in
  is_ok out.1 = true ∧
  ∃ (uncond_ids : token_ids) (c : @Conditioning Z)
    (f fu : @ImageEncoderOutput Z) (cond_embs uncond_embs : list (Tensor3 Z))
    (concept : Tensor3 Z) (n : nat),
    (∃ b, shape0 (pixel_values (ex_example None)) = Ok b ∧
          tokenize ex_tokenizer (replicate b "") (model_max_length ex_tokenizer)
            = Ok uncond_ids ∧
          omap tokenizer_call_of (st_log out.2)
            = [(replicate b "", model_max_length ex_tokenizer)]) ∧
    omap text_encoder_call_of (st_log out.2)
      = [ {| text_input_ids := uncond_ids;
             concept_text_embeddings := None;
             concept_placeholder_idx := None |};
          {| text_input_ids := ex_text_input_ids (ex_example None);
             concept_text_embeddings := Some concept;
             concept_placeholder_idx := Some (ex_concept_placeholder_idx (ex_example None)) |} ] ∧
    ex_text_encoder {| text_input_ids := uncond_ids;
                       concept_text_embeddings := None;
                       concept_placeholder_idx := None |} = Ok (c_uncond_embeddings c) ∧
    ex_image_encoder (pixel_values_clip (ex_example None)) = Ok f ∧
    select_embeddings f [0; 5]%Z = Ok cond_embs ∧
    ex_image_encoder (zeros_like (ops := Z_ops) (pixel_values_clip (ex_example None))) = Ok fu ∧
    select_embeddings fu [0; 5]%Z = Ok uncond_embs ∧
    omap adapter_call_of (st_log out.2)
      = [(TextStream, cond_embs); (ImageStream, cond_embs); (ImageStream, uncond_embs)] ∧
    map call_site (unet_calls (st_log out.2)) = expected_sites c 0 n.
Proof.
  cbv zeta. split; [reflexivity|].
  apply (unconditional_text_hidden_states (ops := Z_ops) ex_rng ex_sched (ex_example None)
           ex_tokenizer ex_image_encoder ex_text_encoder ex_unet ex_vae tt 1 0%Z false
           ex_module ex_module [0; 5]%Z 1%Z 2%Z (Some 7%Z) true 0%Z
           {| shape := [1; 1; 1; 1]; data := [1%Z] |}).
  reflexivity.
Defined.

(** C4, as stated, fails: when the example carries
    [negative_text_input_ids], the run completes without calling the
    tokenizer, and the unconditional text hidden states are the encoding of
    those ids, which are not the ids of an empty prompt. *)
Lemma unconditional_ids_from_negative_prompt :
  let out := exec ex_rng (ex_run (Some [[9%Z; 9%Z]]) [0; 5]%Z 1 None false) 3%Z in
  is_ok out.1 = true ∧
  omap tokenizer_call_of (st_log out.2) = [] ∧
  head (omap text_encoder_call_of (st_log out.2))
    = Some {| text_input_ids := [[9%Z; 9%Z]];
              concept_text_embeddings := None;
              concept_placeholder_idx := None |} ∧
  tokenize ex_tokenizer [""] (model_max_length ex_tokenizer) = Ok [[0%Z; 0%Z]] ∧
  [[9%Z; 9%Z]] ≠ [[0%Z; 0%Z]].
Proof. cbv zeta. repeat split; try reflexivity. discriminate. Qed.

(** With [PhotoVerseAdapter] instances the run on the small inputs stops at
    the first adapter call. *)
Example run_inference_photoverse_adapter_example :
  (exec ex_rng
     (run_inference (ops := Z_ops) ex_rng ex_sched (ex_example None) ex_tokenizer
        ex_image_encoder ex_text_encoder ex_unet
        (PhotoVerseAdapter_module (ops := Z_ops) (ex_adapter 2))
        (PhotoVerseAdapter_module (ops := Z_ops) (ex_adapter 2))
        ex_vae tt [0; 5]%Z 1 1%Z 2%Z 0%Z None false false) 0%Z).1
  = Raise (TypeError "PhotoVerseAdapter.forward() got an unexpected keyword argument 'token_index'").
Proof. vm_compute. reflexivity. Qed.

(** C3 as first stated, for every input, fails: with [PhotoVerseAdapter]
    instances and a layer index below [-len(hidden_states)] the layer
    selection raises an IndexError before the first adapter call. *)
Lemma run_inference_index_error_before_adapter_call :
  (exec ex_rng
     (run_inference (ops := Z_ops) ex_rng ex_sched (ex_example None) ex_tokenizer
        ex_image_encoder ex_text_encoder ex_unet
        (PhotoVerseAdapter_module (ops := Z_ops) (ex_adapter 2))
        (PhotoVerseAdapter_module (ops := Z_ops) (ex_adapter 2))
        ex_vae tt [-3]%Z 1 1%Z 2%Z 0%Z None false false) 0%Z).1
  = Raise (IndexError "tuple index out of range") ∧
  ∀ msg,
    (exec ex_rng
       (run_inference (ops := Z_ops) ex_rng ex_sched (ex_example None) ex_tokenizer
          ex_image_encoder ex_text_encoder ex_unet
          (PhotoVerseAdapter_module (ops := Z_ops) (ex_adapter 2))
          (PhotoVerseAdapter_module (ops := Z_ops) (ex_adapter 2))
          ex_vae tt [-3]%Z 1 1%Z 2%Z 0%Z None false false) 0%Z).1
    ≠ Raise (TypeError msg).
Proof. split; [vm_compute; reflexivity|]. intros msg. vm_compute. discriminate. Qed.

(** Without a seed the images do depend on the state of the generator. *)
Example unseeded_run_depends_on_generator :
  (exec ex_rng (ex_run None [0]%Z 1 None false) 0%Z).1
  ≠ (exec ex_rng (ex_run None [0]%Z 1 None false) 1%Z).1.
Proof. vm_compute. discriminate. Qed.

(** ** Loading a checkpoint *)

Section ModelingUtilsFacts.
Context {module state_dict : Type}.
Context (load_state_dict : bool → module → state_dict → module * option exn).
Context (torch_load : string → result (gmap string state_dict)).
#[local] Abbreviation load := (load_photoverse_model load_state_dict torch_load).

(** C8. For the checkpoint mapping read from [path]: a group whose key is
    absent leaves its model as it was, and an exception can only come from
    [load_state_dict] on a group that is present; when the call returns, each
    model whose key is present holds what [load_state_dict] made of it
    (strict for the two adapters, not strict for the U-Net).  So a checkpoint
    with only [image_adapter] leaves the text adapter and the U-Net
    untouched. *)
Theorem load_photoverse_model_groups (path : string)
  (ckpt : gmap string state_dict) (ms : @Models module) :
  torch_load path = Ok ckpt →
  let out := load path ms in
  (ckpt !! "image_adapter" = None → m_image_adapter out.1 = m_image_adapter ms) ∧
  (ckpt !! "text_adapter" = None → m_text_adapter out.1 = m_text_adapter ms) ∧
  (ckpt !! "cross_attention_adapter" = None → m_unet out.1 = m_unet ms) ∧
  (∀ e, out.2 = Some e →
     ∃ key sd strict m, ckpt !! key = Some sd ∧ (load_state_dict strict m sd).2 = Some e) ∧
  (out.2 = None →
     (∀ sd, ckpt !! "image_adapter" = Some sd →
        m_image_adapter out.1 = (load_state_dict true (m_image_adapter ms) sd).1) ∧
     (∀ sd, ckpt !! "text_adapter" = Some sd →
        m_text_adapter out.1 = (load_state_dict true (m_text_adapter ms) sd).1) ∧
     (∀ sd, ckpt !! "cross_attention_adapter" = Some sd →
        m_unet out.1 = (load_state_dict false (m_unet ms) sd).1)).
Proof.
  intros Hload. cbv zeta. unfold load_photoverse_model. rewrite Hload.
  unfold load_checkpoint.
  destruct (ckpt !! "image_adapter") as [sd1|] eqn:H1;
    [destruct (load_state_dict true (m_image_adapter ms) sd1) as [ia [e1|]] eqn:L1|];
    cbn [fst snd m_image_adapter m_text_adapter m_unet].
  1:{ repeat split; try done.
      intros e [= <-]. exists "image_adapter", sd1, true, (m_image_adapter ms).
      by rewrite L1. }
  all: destruct (ckpt !! "text_adapter") as [sd2|] eqn:H2;
    [destruct (load_state_dict true (m_text_adapter ms) sd2) as [ta [e2|]] eqn:L2|];
    cbn [fst snd m_image_adapter m_text_adapter m_unet].
  1,4: repeat split; try done;
      intros e [= <-]; exists "text_adapter", sd2, true, (m_text_adapter ms);
      by rewrite L2.
  all: destruct (ckpt !! "cross_attention_adapter") as [sd3|] eqn:H3;
    [destruct (load_state_dict false (m_unet ms) sd3) as [un e3] eqn:L3|];
    cbn [fst snd m_image_adapter m_text_adapter m_unet].
  all: repeat split; try done.
  all: try (intros e ->; exists "cross_attention_adapter", sd3, false, (m_unet ms);
            by rewrite L3).
  all: intros sd [= <-]; by rewrite ?L1, ?L2, ?L3.
Qed.

End ModelingUtilsFacts.

Lemma load_photoverse_model_groups_witness :
  ex_torch_load "adapter_only.pt" = Ok {[ "image_adapter" := 5%Z ]} ∧
  load_photoverse_model ex_load_state_dict ex_torch_load "adapter_only.pt" ex_models
  = ({| m_image_adapter := 5%Z; m_text_adapter := 2%Z; m_unet := 3%Z |}, None) ∧
  m_text_adapter
    (load_photoverse_model ex_load_state_dict ex_torch_load "adapter_only.pt" ex_models).1
  = m_text_adapter ex_models.
Proof.
  split; [reflexivity|]. split; [reflexivity|].
  pose proof (load_photoverse_model_groups ex_load_state_dict ex_torch_load
                "adapter_only.pt" {[ "image_adapter" := 5%Z ]} ex_models eq_refl) as H.
  cbv zeta in H. destruct H as (_ & Ht & _). apply Ht. reflexivity.
Defined.

(** ** Saving a checkpoint *)

Lemma string_length_app (s1 s2 : string) :
  String.length (s1 +:+ s2) = String.length s1 + String.length s2.
Proof. induction s1 as [|c s1 IH]; [done|]. simpl. f_equal. exact IH. Qed.

Lemma string_app_inj_r (t s1 s2 : string) : s1 +:+ t = s2 +:+ t → s1 = s2.
Proof.
  revert s2. induction s1 as [|c s1 IH]; intros [|c2 s2] H.
  - done.
  - apply (f_equal String.length) in H. rewrite !string_length_app in H.
    simpl in H. lia.
  - apply (f_equal String.length) in H. rewrite !string_length_app in H.
    simpl in H. lia.
  - simpl in H. injection H as -> H. f_equal. by apply IH.
Qed.

Lemma zeros_length (k : nat) : String.length (zeros k) = k.
Proof. induction k as [|k IH]; cbn; [done|]. by rewrite IH. Qed.

Lemma numeral_nonempty (d : string) : numeral d → d ≠ "".
Proof. intros [->|(c & r & -> & _)]; done. Qed.

Lemma numeral_zero_head (d r : string) : numeral d → d = String "0" r → r = "".
Proof.
  intros [->|(c & r' & -> & Hc & _)] H.
  - by injection H as <-.
  - injection H as -> _. done.
Qed.

(** Padding with zeros loses nothing of a numeral. *)
Lemma zeros_app_inj (k1 : nat) : ∀ (k2 : nat) (d1 d2 : string),
  numeral d1 → numeral d2 → zeros k1 +:+ d1 = zeros k2 +:+ d2 → d1 = d2.
Proof.
  induction k1 as [|k1 IH]; intros [|k2] d1 d2 H1 H2 H; cbn in H.
  - done.
  - pose proof (numeral_zero_head d1 _ H1 H) as Hr.
    destruct k2; cbn in Hr; [|done]. by apply numeral_nonempty in H2.
  - symmetry in H. pose proof (numeral_zero_head d2 _ H2 H) as Hr.
    destruct k1; cbn in Hr; [|done]. by apply numeral_nonempty in H1.
  - injection H as H. by eapply IH.
Qed.

Lemma pretty_N_char_head (x : N) :
  (0 < x < 10)%N →
  pretty_N_char x ≠ "0"%char ∧ pretty_N_char x ≠ "-"%char ∧ pretty_N_char x ≠ "+"%char.
Proof.
  intros Hx.
  assert (x = 1 ∨ x = 2 ∨ x = 3 ∨ x = 4 ∨ x = 5 ∨ x = 6 ∨ x = 7 ∨ x = 8 ∨ x = 9)%N
    as Hc by lia.
  destruct Hc as [->|[->|[->|[->|[->|[->|[->|[->| ->]]]]]]]]; by cbn.
Qed.

Lemma pretty_N_go_head (x : N) : ∀ s : string,
  (0 < x)%N →
  ∃ c r, pretty_N_go x s = String c r ∧
         c ≠ "0"%char ∧ c ≠ "-"%char ∧ c ≠ "+"%char.
Proof.
  induction (N.lt_wf_0 x) as [x _ IH]; intros s Hx.
  rewrite pretty_N_go_step by done.
  destruct (decide (x `div` 10 = 0)%N) as [Hz|Hnz].
  - rewrite Hz, pretty_N_go_0.
    assert (x < 10)%N by (apply N.div_small_iff in Hz; lia).
    rewrite N.mod_small by done. do 2 eexists. split; [done|].
    apply pretty_N_char_head. lia.
  - apply IH; [apply N.div_lt; lia|by apply N.neq_0_lt_0].
Qed.

Lemma numeral_pretty_N (x : N) : numeral (pretty x).
Proof.
  unfold pretty, pretty_N. case_decide; [by left|]. right.
  destruct (pretty_N_go_head x "") as (c & r & -> & Hc); [lia|]. eauto.
Qed.

(** [str] of an integer: a numeral, with a minus sign before it when the
    integer is negative. *)
Lemma pretty_Z_form (z : Z) :
  (numeral (pretty z) ∧ (0 ≤ z)%Z) ∨
  (∃ d, pretty z = String "-" d ∧ numeral d ∧ (z < 0)%Z).
Proof.
  destruct z as [|q|q].
  - left. split; [by left|lia].
  - left. split; [apply (numeral_pretty_N (N.pos q))|lia].
  - right. exists (pretty (N.pos q)). split; [done|].
    split; [apply numeral_pretty_N|lia].
Qed.

Lemma zfill_numeral (w : nat) (d : string) :
  numeral d → ∃ k, zfill w d = zeros k +:+ d.
Proof.
  intros Hd. unfold zfill. destruct (w <=? String.length d); [by exists 0|].
  destruct Hd as [->|(c & r & -> & _ & Hm & Hp)].
  - by eexists.
  - apply Ascii.eqb_neq in Hm, Hp. rewrite Hm, Hp. by eexists.
Qed.

Lemma zfill_negative (w : nat) (d : string) :
  ∃ k, zfill w (String "-" d) = String "-" (zeros k +:+ d).
Proof.
  unfold zfill. destruct (w <=? String.length (String "-" d)); [by exists 0|].
  cbn. by eexists.
Qed.

Lemma zeros_numeral_head (k : nat) (d r : string) :
  numeral d → zeros k +:+ d ≠ String "-" r.
Proof.
  intros Hd H. destruct k; cbn in H; [|done].
  destruct Hd as [->|(c & r' & -> & _ & Hm & _)]; [done|]. by injection H as -> _.
Qed.

Lemma zfill_pretty_inj (w : nat) (z1 z2 : Z) :
  zfill w (pretty z1) = zfill w (pretty z2) → z1 = z2.
Proof.
  intros H. apply (inj pretty).
  destruct (pretty_Z_form z1) as [[H1 _]|(d1 & E1 & H1 & _)],
           (pretty_Z_form z2) as [[H2 _]|(d2 & E2 & H2 & _)].
  - destruct (zfill_numeral w _ H1) as [k1 F1], (zfill_numeral w _ H2) as [k2 F2].
    rewrite F1, F2 in H. by eapply zeros_app_inj.
  - rewrite E2 in H. destruct (zfill_numeral w _ H1) as [k1 F1].
    destruct (zfill_negative w d2) as [k2 F2]. rewrite F1, F2 in H.
    by apply zeros_numeral_head in H.
  - rewrite E1 in H. destruct (zfill_numeral w _ H2) as [k2 F2].
    destruct (zfill_negative w d1) as [k1 F1]. rewrite F1, F2 in H.
    symmetry in H. by apply zeros_numeral_head in H.
  - rewrite E1, E2 in *. destruct (zfill_negative w d1) as [k1 F1].
    destruct (zfill_negative w d2) as [k2 F2]. rewrite F1, F2 in H.
    injection H as H. f_equal. by eapply zeros_app_inj.
Qed.

Lemma checkpoint_name_inj (s1 s2 : option Z) :
  checkpoint_name s1 = checkpoint_name s2 → s1 = s2.
Proof.
  destruct s1 as [z1|], s2 as [z2|]; cbn; intros H; try done.
  - injection H as H.
    apply (string_app_inj_r ".pt" (zfill 6 (pretty z1)) (zfill 6 (pretty z2))) in H.
    f_equal. by eapply zfill_pretty_inj.
Qed.

Lemma checkpoint_name_relative (step : option Z) :
  String.prefix "/" (checkpoint_name step) = false.
Proof. by destruct step. Qed.

Lemma os_path_join_inj (out n1 n2 : string) :
  String.prefix "/" n1 = false → String.prefix "/" n2 = false →
  os_path_join out n1 = os_path_join out n2 → n1 = n2.
Proof.
  unfold os_path_join. intros -> ->.
  destruct (String.eqb out "" || ends_with_slash out)%bool; intros H.
  - by apply (inj (String.app out)) in H.
  - apply (inj (String.app out)) in H. by apply (inj (String.app "/")) in H.
Qed.

Lemma checkpoint_path_inj (out : string) (s1 s2 : option Z) :
  os_path_join out (checkpoint_name s1) = os_path_join out (checkpoint_name s2) →
  s1 = s2.
Proof.
  intros H. apply checkpoint_name_inj.
  by apply (os_path_join_inj out); [apply checkpoint_name_relative..|].
Qed.

Section SaveProgressFacts.
Context {module tensor : Type}.
Context (state_dict_of : module → gmap string tensor).
Context (load_state_dict : bool → module → gmap string tensor → module * option exn).
#[local] Abbreviation save := (save_progress state_dict_of).
#[local] Abbreviation saved := (final_state_dict state_dict_of).

Lemma cross_attention_state_lookup (sd : gmap string tensor) (k : string) (v : tensor) :
  cross_attention_state sd !! k = Some v ↔
  sd !! k = Some v ∧ is_cross_attention_key k = true.
Proof.
  unfold cross_attention_state. revert k v.
  apply (map_fold_weak_ind (λ (r m : gmap string tensor),
           ∀ k v, r !! k = Some v ↔ m !! k = Some v ∧ is_cross_attention_key k = true)).
  - intros k v. rewrite !lookup_empty. split; [done|by intros [? _]].
  - intros i x m r Hi IH k v.
    destruct (is_cross_attention_key i) eqn:Hc.
    + destruct (decide (i = k)) as [->|Hne].
      * rewrite !lookup_insert_eq. split; [done|by intros [? _]].
      * rewrite !lookup_insert_ne by done. apply IH.
    + rewrite IH. destruct (decide (i = k)) as [->|Hne].
      * rewrite lookup_insert_eq, Hi. split; [by intros [? _]|].
        intros [_ Hk]. congruence.
      * by rewrite lookup_insert_ne.
Qed.

Lemma saved_lookup (ia ta un : module) :
  saved ia ta un !! "image_adapter" = Some (state_dict_of ia) ∧
  saved ia ta un !! "text_adapter" = Some (state_dict_of ta) ∧
  saved ia ta un !! "cross_attention_adapter"
    = Some (cross_attention_state (state_dict_of un)).
Proof.
  unfold final_state_dict. split; [|split].
  - by rewrite lookup_insert_eq.
  - rewrite lookup_insert_ne by done. by rewrite lookup_insert_eq.
  - rewrite !lookup_insert_ne by done. by rewrite lookup_insert_eq.
Qed.

(** X13. [save_progress] writes one file, at [output_path] joined with the
    checkpoint name, and leaves every other file alone.  The file maps
    exactly the keys [image_adapter], [text_adapter] and
    [cross_attention_adapter]; the first two hold the adapters' full state
    dicts, the third holds those entries of the U-Net's state dict whose key
    contains ["attn2"] and one of ["processor"], ["to_q"], ["to_k"],
    ["to_v"], with their values, and no other entry. *)
Theorem save_progress_contents (ia ta un : module) (output_path : string)
  (step : option Z) (fs : gmap string (gmap string (gmap string tensor))) :
  let path := os_path_join output_path (checkpoint_name step) in
  let fs' := save ia ta un output_path step fs in
  (∀ p, p ≠ path → fs' !! p = fs !! p) ∧
  ∃ ckpt cross,
    fs' !! path = Some ckpt ∧
    ckpt !! "image_adapter" = Some (state_dict_of ia) ∧
    ckpt !! "text_adapter" = Some (state_dict_of ta) ∧
    ckpt !! "cross_attention_adapter" = Some cross ∧
    (∀ key, is_Some (ckpt !! key) →
       key = "image_adapter" ∨ key = "text_adapter" ∨ key = "cross_attention_adapter") ∧
    (∀ k v, cross !! k = Some v ↔
            state_dict_of un !! k = Some v ∧ is_cross_attention_key k = true).
Proof.
  cbv zeta. unfold save_progress, torch_save. split.
  - intros p Hp. by rewrite lookup_insert_ne.
  - exists (saved ia ta un), (cross_attention_state (state_dict_of un)).
    destruct (saved_lookup ia ta un) as (H1 & H2 & H3).
    rewrite lookup_insert_eq. do 4 (split; [done|]). split.
    + intros key. unfold final_state_dict.
      rewrite !lookup_insert_is_Some, lookup_empty. intros H.
      destruct H as [<-|[_ [<-|[_ [<-|[_ []%is_Some_None]]]]]]; auto.
    + intros k v. apply cross_attention_state_lookup.
Qed.

(** X14. Checkpoints of different steps, and the final checkpoint, get
    different file names; saved into one directory they do not overwrite
    each other. *)
Theorem checkpoints_do_not_collide (output_path : string) (s1 s2 : option Z)
  (ia ta un ia' ta' un' : module)
  (fs : gmap string (gmap string (gmap string tensor))) :
  s1 ≠ s2 →
  let p1 := os_path_join output_path (checkpoint_name s1) in
  let p2 := os_path_join output_path (checkpoint_name s2) in
  let fs2 := save ia' ta' un' output_path s2 (save ia ta un output_path s1 fs) in
  p1 ≠ p2 ∧
  fs2 !! p1 = Some (saved ia ta un) ∧
  fs2 !! p2 = Some (saved ia' ta' un').
Proof.
  intros Hne. cbv zeta.
  assert (Hp : os_path_join output_path (checkpoint_name s1)
               ≠ os_path_join output_path (checkpoint_name s2))
    by (by intros ?%checkpoint_path_inj).
  split; [done|]. unfold save_progress, torch_save. split.
  - rewrite lookup_insert_ne by done. by rewrite lookup_insert_eq.
  - by rewrite lookup_insert_eq.
Qed.

(** X12. [load_photoverse_model] stops at the first exception: when
    [torch.load] raises, no model is touched; when loading the image adapter
    raises, the text adapter and the U-Net keep their parameters although
    the checkpoint may hold them; when loading the text adapter raises, the
    U-Net keeps its parameters.  The exception is the one that was raised. *)
Theorem load_photoverse_model_stops_at_first_error
  (torch_load : string → result (gmap string (gmap string tensor)))
  (path : string) (ms : @Models module) :
  let out := load_photoverse_model load_state_dict torch_load path ms in
  (∀ e, torch_load path = Raise e → out = (ms, Some e)) ∧
  (∀ ckpt sd m e,
     torch_load path = Ok ckpt → ckpt !! "image_adapter" = Some sd →
     load_state_dict true (m_image_adapter ms) sd = (m, Some e) →
     out = ({| m_image_adapter := m; m_text_adapter := m_text_adapter ms;
               m_unet := m_unet ms |}, Some e)) ∧
  (∀ ckpt sd m e,
     torch_load path = Ok ckpt →
     match ckpt !! "image_adapter" with
     | Some sd1 => (load_state_dict true (m_image_adapter ms) sd1).2 = None
     | None => True
     end →
     ckpt !! "text_adapter" = Some sd →
     load_state_dict true (m_text_adapter ms) sd = (m, Some e) →
     out.2 = Some e ∧ m_text_adapter out.1 = m ∧ m_unet out.1 = m_unet ms).
Proof.
  cbv zeta. unfold load_photoverse_model. split; [|split].
  - by intros e ->.
  - intros ckpt sd m e -> H1 L1. unfold load_checkpoint. by rewrite H1, L1.
  - intros ckpt sd m e -> H1 H2 L2. unfold load_checkpoint.
    destruct (ckpt !! "image_adapter") as [sd1|] eqn:E1.
    + destruct (load_state_dict true (m_image_adapter ms) sd1) as [ia1 e1].
      cbn in H1. subst e1. by rewrite H2, L2.
    + by rewrite H2, L2.
Qed.

End SaveProgressFacts.

(** ** Saving and loading again *)

Section RoundTrip.
Context {tensor : Type} (fits : tensor → tensor → bool).
#[local] Abbreviation nn_load := (nn_load_state_dict fits).

Lemma nn_load_lookup (strict : bool) (m sd m' : gmap string tensor) :
  nn_load strict m sd = (m', None) →
  ∀ k, m' !! k = match m !! k with
                 | Some param => Some (default param (sd !! k))
                 | None => None
                 end.
Proof.
  unfold nn_load_state_dict. cbv zeta. intros [= <- H] k.
  rewrite map_lookup_imap. destruct (m !! k) as [param|] eqn:Hk; [|done]. cbn.
  f_equal. unfold load_entry. destruct (sd !! k) as [v|] eqn:Hv; [|done]. cbn.
  case_bool_decide as Hfits; [|done].
  specialize (Hfits k param Hk). unfold entry_fits in Hfits. rewrite Hv in Hfits.
  by rewrite Hfits.
Qed.

Lemma nn_load_strict (m sd m' : gmap string tensor) :
  nn_load true m sd = (m', None) → m' = sd.
Proof.
  intros H. pose proof (nn_load_lookup _ _ _ _ H) as Hl.
  unfold nn_load_state_dict in H. cbv zeta in H. injection H as _ H.
  assert (Hdom : dom sd = dom m).
  { case_bool_decide; [|done]. cbn in H. by case_bool_decide. }
  apply map_eq. intros k. rewrite Hl.
  destruct (m !! k) as [param|] eqn:Hk.
  - assert (Hin : k ∈ dom sd) by (rewrite Hdom; by apply elem_of_dom).
    apply elem_of_dom in Hin as [v Hv]. by rewrite Hv.
  - symmetry. apply not_elem_of_dom. rewrite Hdom. by apply not_elem_of_dom.
Qed.

(** X15. Round trip.  Load the file that [save_progress] wrote into models
    [ms], with [load_state_dict] as torch defines it, and let no exception be
    raised.  Then the two adapters hold exactly the saved adapters'
    parameters.  The U-Net keeps its own key set; under each of its keys that
    is a saved cross-attention key (it contains ["attn2"] and one of
    ["processor"], ["to_q"], ["to_k"], ["to_v"]) it holds the saved tensor,
    and under every other key the tensor it had before: every other saved
    parameter of the U-Net is not in the file. *)
Theorem save_then_load (ia ta un : gmap string tensor) (output_path : string)
  (step : option Z) (fs : gmap string (gmap string (gmap string tensor)))
  (ms : @Models (gmap string tensor)) :
  let path := os_path_join output_path (checkpoint_name step) in
  let fs' := save_progress (λ m, m) ia ta un output_path step fs in
  let out := load_photoverse_model nn_load (torch_load_from fs') path ms in
  out.2 = None →
  m_image_adapter out.1 = ia ∧
  m_text_adapter out.1 = ta ∧
  dom (m_unet out.1) = dom (m_unet ms) ∧
  (∀ k old, m_unet ms !! k = Some old →
     m_unet out.1 !! k
     = Some (if is_cross_attention_key k then default old (un !! k) else old)).
Proof.
  cbv zeta. unfold load_photoverse_model, torch_load_from, save_progress, torch_save.
  rewrite lookup_insert_eq. unfold load_checkpoint.
  destruct (saved_lookup (λ m : gmap string tensor, m) ia ta un) as (-> & -> & ->).
  destruct (nn_load true (m_image_adapter ms) ia) as [ia1 [e1|]] eqn:L1; [done|].
  destruct (nn_load true (m_text_adapter ms) ta) as [ta1 [e2|]] eqn:L2; [done|].
  destruct (nn_load false (m_unet ms) (cross_attention_state un)) as [un1 e3] eqn:L3.
  cbn. intros ->.
  apply nn_load_strict in L1 as ->. apply nn_load_strict in L2 as ->.
  pose proof (nn_load_lookup _ _ _ _ L3) as Hl.
  split; [done|]. split; [done|]. split.
  - apply set_eq. intros k. rewrite !elem_of_dom, Hl.
    destruct (m_unet ms !! k); [by split; eauto|by split; intros []].
  - intros k old Hk. rewrite Hl, Hk. f_equal.
    destruct (is_cross_attention_key k) eqn:Hc.
    + destruct (un !! k) as [v|] eqn:Hv.
      * by rewrite (proj2 (cross_attention_state_lookup un k v) (conj Hv Hc)).
      * destruct (cross_attention_state un !! k) as [v|] eqn:Hv'; [|done].
        apply cross_attention_state_lookup in Hv' as [Hv' _]. congruence.
    + destruct (cross_attention_state un !! k) as [v|] eqn:Hv'; [|done].
      apply cross_attention_state_lookup in Hv' as [_ Hv']. congruence.
Qed.

End RoundTrip.

(** ** More on the adapter *)

Section AdapterMore.
Context {scalar : Type} {ops : ScalarOps scalar}.
#[local] Abbreviation vec := (Vec scalar).
#[local] Abbreviation tensor3 := (Tensor3 scalar).
#[local] Abbreviation Sequential := (list (@Layer scalar)).

Lemma init_lookup_Some (w : Init) (clip cross n : nat) (name : string) (m : Sequential) :
  modules (PhotoVerseAdapter_init w clip cross n) !! name = Some m →
  ∃ i, i < n ∧ m = mapping_net w name clip cross ∧
       (name = mapping_name i ∨ name = mapping_patch_name i).
Proof.
  induction n as [|n IH].
  - cbn. by rewrite lookup_empty.
  - rewrite init_succ. cbn [init_step setattr modules].
    intros [[<- <-]|[_ [[<- <-]|[_ H]]%lookup_insert_Some]]%lookup_insert_Some.
    + exists n. split; [lia|]. auto.
    + exists n. split; [lia|]. auto.
    + destruct (IH H) as (i & Hi & Hm & Hname). exists i. split; [lia|]. auto.
Qed.

Lemma init_size (w : Init) (clip cross n : nat) :
  size (modules (PhotoVerseAdapter_init w clip cross n)) = 2 * n.
Proof.
  induction n as [|n IH]; [done|].
  rewrite init_succ. cbn [init_step setattr modules].
  rewrite map_size_insert_None.
  - rewrite map_size_insert_None; [lia|].
    rewrite init_lookup_mapping. by rewrite decide_False by lia.
  - rewrite lookup_insert_ne by apply mapping_name_ne_patch.
    rewrite init_lookup_patch. by rewrite decide_False by lia.
Qed.

(** X1. The constructor registers exactly the sub-modules [mapping_i] and
    [mapping_patch_i] for [i < num_tokens], [2 * num_tokens] in all, each a
    network of its own (its linear layers carry the parameters drawn for its
    own name) that takes width [clip_embedding_dim] to width
    [cross_attention_dim]; no other attribute names a network. *)
Theorem PhotoVerseAdapter_init_registry (w : Init) (clip cross n : nat) :
  let self := PhotoVerseAdapter_init w clip cross n in
  size (modules self) = 2 * n ∧
  (∀ name, is_Some (modules self !! name) ↔
           ∃ i, i < n ∧ (name = mapping_name i ∨ name = mapping_patch_name i)) ∧
  (∀ name m, modules self !! name = Some m →
             m = mapping_net w name clip cross ∧
             sequential_width m clip = Some cross).
Proof.
  cbv zeta. split; [apply init_size|]. split.
  - intros name. split.
    + intros [m Hm]. destruct (init_lookup_Some _ _ _ _ _ _ Hm) as (i & Hi & _ & Hn).
      eauto.
    + intros (i & Hi & [-> | ->]).
      * rewrite init_lookup_mapping. by rewrite decide_True.
      * rewrite init_lookup_patch. by rewrite decide_True.
  - intros name m Hm. destruct (init_lookup_Some _ _ _ _ _ _ Hm) as (i & Hi & -> & _).
    split; [done|]. apply mapping_net_width.
Qed.

(** X2. An adapter as constructed rejects an embedding whose vectors are not
    of width [clip_embedding_dim]: the first linear layer of the global
    branch raises a RuntimeError on the CLS position of the first batch
    element. *)
Theorem forward_rejects_wrong_width (w : Init) (clip cross n : nat)
  (v : vec) (row : list vec) (emb' : tensor3) (rest : list tensor3) :
  0 < n → length v ≠ clip →
  forward (PhotoVerseAdapter_init w clip cross n) (((v :: row) :: emb') :: rest)
  = Raise (RuntimeError "shape mismatch on the last axis").
Proof.
  intros Hn Hv. unfold forward. cbn [forward_loop]. unfold hidden_state_of, getattr.
  rewrite init_lookup_mapping, decide_True by done.
  apply Nat.eqb_neq in Hv.
  unfold mapping_net, nn_Linear. cbn -[hidden_width]. unfold layer_vec. cbn -[hidden_width].
  by rewrite Hv.
Qed.

End AdapterMore.

(** ** More on [run_inference] *)

Lemma mapM_app_raise {A B} (f : A → result B) (l1 l2 : list A) (x : A)
  (r : list B) (e : exn) :
  mapM f l1 = Ok r → f x = Raise e → mapM f (l1 ++ x :: l2) = Raise e.
Proof.
  revert r. induction l1 as [|a l1 IH]; intros r Hr Hx; cbn.
  - by rewrite Hx.
  - cbn in Hr. destruct (f a) as [b|e']; cbn in *; [|done].
    destruct (mapM f l1) as [r'|e'] eqn:Hm; cbn in *; [|done].
    by rewrite (IH r' eq_refl Hx).
Qed.

Section RunMore.
Context {scalar : Type} {ops : ScalarOps scalar}.
Context (R : @RngLib scalar) (Sch : @SchedulerLib scalar).
Context (example : @Example scalar) (tokenizer : Tokenizer)
        (image_encoder : ndarray scalar -> result (@ImageEncoderOutput scalar))
        (text_encoder : @TextEncoderInput scalar -> result (Tensor3 scalar))
        (unet : @UNet scalar) (vae : @VAE scalar R)
        (scheduler : sched_config Sch) (latent_size : nat)
        (token_index : Z) (from_noised_image : bool).
#[local] Abbreviation event := (@event scalar).
#[local] Abbreviation run ta ia idx gs T seed tm :=
  (run_inference R Sch example tokenizer image_encoder text_encoder unet ta ia vae
     scheduler idx latent_size gs T token_index seed from_noised_image tm).
#[local] Abbreviation prep idx T seed :=
  (prepare R Sch example tokenizer image_encoder unet vae scheduler idx latent_size
     T seed from_noised_image).
#[local] Abbreviation asm ta ia :=
  (assemble R Sch example text_encoder ta ia token_index).
#[local] Abbreviation dec := (decode_latents R vae).
#[local] Abbreviation loop gs tm := (denoise_loop R Sch unet gs tm).

(** *** Layer indices below zero *)

Lemma py_index_negative {A} (l : list A) (j : Z) (x : A) :
  (- Z.of_nat (length l) ≤ j < 0)%Z →
  l !! Z.to_nat (Z.of_nat (length l) + j) = Some x → py_index l j = Ok x.
Proof.
  intros Hj Hx. unfold py_index. cbv zeta.
  replace (j <? 0)%Z with true by (symmetry; apply Z.ltb_lt; lia).
  replace ((0 <=? Z.of_nat (length l) + j)%Z
           && (Z.of_nat (length l) + j <? Z.of_nat (length l))%Z) with true.
  - by rewrite Hx.
  - symmetry. apply andb_true_iff. split; [apply Z.leb_le|apply Z.ltb_lt]; lia.
Qed.

Lemma py_index_below {A} (l : list A) (j : Z) :
  (j < - Z.of_nat (length l))%Z →
  py_index l j = Raise (IndexError "tuple index out of range").
Proof.
  intros Hj. unfold py_index. cbv zeta.
  replace (j <? 0)%Z with true by (symmetry; apply Z.ltb_lt; lia).
  replace (0 <=? Z.of_nat (length l) + j)%Z with false; [done|].
  symmetry. apply Z.leb_gt. lia.
Qed.

(** The index the comprehension reads for a configured index [j]. *)
Lemma mapM_py_index (hs : list (Tensor3 scalar)) (idx : list Z) :
  Forall (λ j, (- Z.of_nat (length hs) ≤ j)%Z) idx →
  mapM (py_index hs) (filter (λ i, (i < Z.of_nat (length hs))%Z) idx)
  = Ok (omap (λ j, hs !! Z.to_nat (if (j <? 0)%Z then Z.of_nat (length hs) + j else j))
             idx).
Proof.
  induction 1 as [|j idx Hj _ IH]; [done|].
  destruct (decide (j < Z.of_nat (length hs))%Z) as [Hlt|Hge].
  - rewrite filter_cons_True by done. cbn [omap list_omap].
    destruct (j <? 0)%Z eqn:Hneg.
    + apply Z.ltb_lt in Hneg.
      destruct (lookup_lt_is_Some_2 hs (Z.to_nat (Z.of_nat (length hs) + j)))
        as [x Hx]; [lia|].
      cbn. rewrite (py_index_negative hs j x) by (done || lia). rewrite Hx. cbn.
      cbn in IH. by rewrite IH.
    + apply Z.ltb_ge in Hneg.
      destruct (lookup_lt_is_Some_2 hs (Z.to_nat j)) as [x Hx]; [lia|].
      cbn. rewrite (py_index_in_range hs j x) by done. rewrite Hx. cbn.
      cbn in IH. by rewrite IH.
  - rewrite filter_cons_False by done. cbn [omap list_omap].
    replace (j <? 0)%Z with false by (symmetry; apply Z.ltb_ge; lia).
    rewrite (lookup_ge_None_2 hs (Z.to_nat j)) by lia. done.
Qed.

(** X3. The guard [i < len(hidden_states)] is one-sided.  A negative index
    down to [-len] passes it and selects from the end, as Python indexing
    does; the first index below [-len] makes the selection raise an
    IndexError. *)
Theorem select_embeddings_negative_indices (f : @ImageEncoderOutput scalar) :
  (∀ idx : list Z,
     Forall (λ j, (- Z.of_nat (length (hidden_states f)) ≤ j)%Z) idx →
     select_embeddings f idx
     = Ok (last_hidden_state f ::
           omap (λ j, hidden_states f
                        !! Z.to_nat (if (j <? 0)%Z
                                     then Z.of_nat (length (hidden_states f)) + j
                                     else j)) idx)) ∧
  (∀ (pre post : list Z) (j : Z),
     Forall (λ j, (- Z.of_nat (length (hidden_states f)) ≤ j)%Z) pre →
     (j < - Z.of_nat (length (hidden_states f)))%Z →
     select_embeddings f (pre ++ j :: post)
     = Raise (IndexError "tuple index out of range")).
Proof.
  split.
  - intros idx Hidx. unfold select_embeddings. by rewrite mapM_py_index.
  - intros pre post j Hpre Hj. unfold select_embeddings.
    rewrite filter_app, filter_cons_True by lia.
    by rewrite (mapM_app_raise _ _ _ _ _ _ (mapM_py_index _ _ Hpre) (py_index_below _ _ Hj)).
Qed.

(** *** The calls of a run, in order *)

Lemma with_rng_inv {A} (h : rng R → A * rng R) (a : A) (st st1 : St R) :
  with_rng R h st = (Ok a, st1) → st_log st1 = st_log st.
Proof. unfold with_rng. destruct (h (st_rng st)). by intros [= _ <-]. Qed.

Lemma with_rng_result_inv {A} (h : rng R → result A * rng R) (r : result A)
  (st st1 : St R) :
  with_rng_result R h st = (r, st1) → st_log st1 = st_log st.
Proof. unfold with_rng_result. destruct (h (st_rng st)). by intros [= _ <-]. Qed.

Lemma make_noise_ok_inv (seed : option Z) (noise : ndarray scalar) (st st1 : St R) :
  make_noise R example unet latent_size seed st = (Ok noise, st1) →
  ∃ b, shape0 (pixel_values example) = Ok b ∧
       st_log st1
       = st_log st ++ match seed with Some s => [EvManualSeed s] | None => [] end
         ++ [EvRandn [b; in_channels unet; latent_size; latent_size]].
Proof.
  unfold make_noise, noise_shape. destruct seed as [s|]; intros H.
  - apply bind_ok_inv in H as (u & s1 & ->%log_inv & H).
    apply bind_ok_inv in H as (u' & s2 & H2 & H).
    unfold set_rng in H2. injection H2 as _ <-.
    apply bind_ok_inv in H as (b & s3 & [Hb ->]%lift_inv & H).
    apply bind_ok_inv in H as (u'' & s4 & ->%log_inv & H).
    apply with_rng_inv in H. exists b. split; [done|].
    rewrite H. cbn. by rewrite <- app_assoc.
  - apply bind_ok_inv in H as (b & s3 & [Hb ->]%lift_inv & H).
    apply bind_ok_inv in H as (u'' & s4 & ->%log_inv & H).
    apply with_rng_inv in H. exists b. split; [done|]. by rewrite H.
Qed.

Lemma make_latents_ok_inv (s : sched Sch) (noise latents : ndarray scalar)
  (st st1 : St R) :
  make_latents R Sch example vae from_noised_image s noise st = (Ok latents, st1) →
  st_log st1
  = st_log st ++ (if from_noised_image then [EvVaeEncode (pixel_values example)] else [])
  ∧ (from_noised_image = false → latents = noise).
Proof.
  unfold make_latents. destruct from_noised_image; intros H.
  - apply bind_ok_inv in H as (u & s1 & ->%log_inv & H).
    apply bind_ok_inv in H as (x & s2 & H2%with_rng_result_inv & H).
    cbv zeta in H.
    apply bind_ok_inv in H as (n & s3 & [_ ->]%lift_inv & [_ ->]%lift_inv).
    by rewrite H2.
  - injection H as <- <-. by rewrite app_nil_r.
Qed.

(** The calls of the lines before the adapter calls. *)
Lemma prepare_log idx T seed (st st1 : St R) (p : Prepared Sch) :
  prep idx T seed st = (Ok p, st1) →
  ∃ b, shape0 (pixel_values example) = Ok b ∧
       st_log st1
       = st_log st ++ prepare_events example tokenizer unet latent_size seed
                        from_noised_image b.
Proof.
  unfold prepare. intros H.
  apply bind_ok_inv in H as (s0 & sa & [_ ->]%lift_inv & H).
  apply bind_ok_inv in H as (s1 & sb & [_ ->]%lift_inv & H).
  apply bind_ok_inv in H as (ids & sc & Hids%make_uncond_input_ids_inv & H).
  unfold prepare_inputs in H. cbv zeta in H.
  apply bind_ok_inv in H as (noise & s3 & (b & Hb & Hn)%make_noise_ok_inv & H).
  apply bind_ok_inv in H as (latents & s4 & [Hl _]%make_latents_ok_inv & H).
  apply bind_ok_inv in H as (u1 & s5 & ->%log_inv & H).
  apply bind_ok_inv in H as (f & s6 & [_ ->]%lift_inv & H).
  apply bind_ok_inv in H as (u2 & s7 & ->%log_inv & H).
  apply bind_ok_inv in H as (fu & s8 & [_ ->]%lift_inv & H).
  apply bind_ok_inv in H as (embs & s9 & [_ ->]%lift_inv & H).
  apply bind_ok_inv in H as (uembs & s10 & [_ ->]%lift_inv & H).
  injection H as _ <-. exists b. split; [done|]. cbn [st_log].
  rewrite Hl, Hn. unfold prepare_events.
  destruct (negative_text_input_ids example) as [ids'|].
  - destruct Hids as [_ ->]. cbn [app]. by rewrite <- !app_assoc.
  - destruct Hids as (b' & Hb' & _ & ->). rewrite Hb in Hb'. injection Hb' as <-.
    by rewrite <- !app_assoc.
Qed.

Lemma call_adapter_ok_inv (s : stream) (m : Module_ scalar) (embs : list (Tensor3 scalar))
  (k : Z) (t : Tensor3 scalar) (st st1 : St R) :
  call_adapter R s m embs k st = (Ok t, st1) →
  bind_keyword (qualname m) (formals m) "token_index" = Ok tt ∧
  body m embs k = Ok t ∧
  st_log st1 = st_log st ++ [EvAdapter s embs k].
Proof.
  unfold call_adapter. intros H.
  apply bind_ok_inv in H as (u & sa & ->%log_inv & H).
  apply bind_ok_inv in H as ([] & sb & [Hk ->]%lift_inv & [Hb ->]%lift_inv). done.
Qed.

Lemma bind_keyword_ok (q : string) (fs : list string) (kw : string) :
  bind_keyword q fs kw = Ok tt → kw ∈ tail fs.
Proof.
  unfold bind_keyword. destruct fs as [|f0 rest]; [done|].
  case_bool_decide; [done|]. by case_bool_decide.
Qed.

(** What [assemble] computes and calls when it returns. *)
Lemma assemble_ok_full ta ia (p : Prepared Sch) (c : @Conditioning scalar)
  (st st1 : St R) :
  asm ta ia p st = (Ok c, st1) →
  ∃ concept : Tensor3 scalar,
    let uncond_inp := {| text_input_ids := p_uncond_input_ids p;
                         concept_text_embeddings := None;
                         concept_placeholder_idx := None |} in
    let cond_inp := {| text_input_ids := ex_text_input_ids example;
                       concept_text_embeddings := Some concept;
                       concept_placeholder_idx := Some (ex_concept_placeholder_idx example) |} in
    "token_index" ∈ tail (formals ta) ∧ "token_index" ∈ tail (formals ia) ∧
    body ta (p_image_embeddings p) token_index = Ok concept ∧
    body ia (p_image_embeddings p) token_index = Ok (c_encoder_hidden_states_image c) ∧
    body ia (p_uncond_image_embeddings p) token_index
      = Ok (c_uncond_encoder_hidden_states_image c) ∧
    text_encoder uncond_inp = Ok (c_uncond_embeddings c) ∧
    text_encoder cond_inp = Ok (c_encoder_hidden_states c) ∧
    st_log st1
    = st_log st ++ [EvAdapter TextStream (p_image_embeddings p) token_index;
                    EvAdapter ImageStream (p_image_embeddings p) token_index;
                    EvAdapter ImageStream (p_uncond_image_embeddings p) token_index;
                    EvTextEncoder uncond_inp; EvTextEncoder cond_inp].
Proof.
  unfold assemble. intros H.
  apply bind_ok_inv in H as (concept & s1 & (K1 & B1 & L1)%call_adapter_ok_inv & H).
  apply bind_ok_inv in H as (ehi & s2 & (K2 & B2 & L2)%call_adapter_ok_inv & H).
  apply bind_ok_inv in H as (uehi & s3 & (K3 & B3 & L3)%call_adapter_ok_inv & H).
  apply bind_ok_inv in H as (ue & s4 & [Hue ->]%call_text_encoder_inv & H).
  apply bind_ok_inv in H as (eh & s5 & [Heh ->]%call_text_encoder_inv & H).
  injection H as <- <-. exists concept. cbn.
  apply bind_keyword_ok in K1, K2.
  do 7 (split; [done|]). rewrite L3, L2, L1. by rewrite <- !app_assoc.
Qed.

Lemma denoise_loop_log gs tm (c : @Conditioning scalar) (ts : list timestep) :
  ∀ i s l (st : St R),
    ∃ evs, st_log (loop gs tm c i ts s l st).2 = st_log st ++ evs ∧
           Forall (λ ev, phase_of ev = PhLoop) evs.
Proof.
  induction ts as [|t ts IH]; intros i s l st.
  - exists []. cbn. by rewrite app_nil_r.
  - rewrite denoise_loop_cons. cbv zeta.
    destruct (unet_call unet _ t (pair_of c Unconditional)) as [nu|e];
      [|eexists [_]; split; [done|by repeat constructor]].
    destruct (unet_call unet _ t (pair_of c Conditional)) as [nt|e];
      [|eexists [_; _]; split; [by rewrite <- app_assoc|by repeat constructor]].
    destruct (guided_noise gs nu nt) as [np|e];
      [|eexists [_; _]; split; [by rewrite <- app_assoc|by repeat constructor]].
    destruct (step Sch s np t l) as [r|e];
      [|eexists [_; _; _]; split; [by rewrite <- !app_assoc|by repeat constructor]].
    destruct (IH (S i) r.2 r.1
                {| st_rng := st_rng st;
                   st_log := ((st_log st ++
                     [EvUNet i (grad_enabled_at Sch tm s i) Unconditional
                        (scale_model_input Sch s l t) t
                        (pair_of c Unconditional).1 (pair_of c Unconditional).2]) ++
                     [EvUNet i (grad_enabled_at Sch tm s i) Conditional
                        (scale_model_input Sch s l t) t
                        (pair_of c Conditional).1 (pair_of c Conditional).2]) ++
                     [EvSchedulerStep i t] |}) as (evs & Hl & Hevs).
    eexists (_ :: _ :: _ :: evs). split.
    + rewrite Hl. cbn [st_log]. by rewrite <- !app_assoc.
    + by repeat constructor.
Qed.

Lemma decode_latents_spec (l : ndarray scalar) (st : St R) :
  dec l st
  = match py_div sone (scaling_factor vae) with
    | Ok inv_scale =>
        (clamp (sdec (-1) 0) (sdec 1 0) <$> decode vae (nd_mul_l inv_scale l),
         {| st_rng := st_rng st;
            st_log := st_log st ++ [EvVaeDecode (nd_mul_l inv_scale l)] |})
    | Raise e => (Raise e, st)
    end.
Proof.
  unfold decode_latents. rewrite bind_unfold. cbn [lift].
  destruct (py_div sone (scaling_factor vae)) as [inv_scale|e]; [|done].
  cbv zeta. rewrite bind_unfold. cbn [log].
  rewrite bind_unfold. cbn [lift].
  by destruct (decode vae _).
Qed.

(** X6. The calls of a run that completes, in order: the tokenizer (only
    when the example has no negative ids), [torch.manual_seed] (only with a
    seed) and then one [torch.randn] of shape (batch, in_channels,
    latent_size, latent_size), the VAE encoder (only with
    [from_noised_image]), the vision encoder on the image and then on the
    zero image; the text adapter and twice the image adapter; the text
    encoder twice; the calls of the loop; and last the VAE decoder. *)
Theorem run_inference_call_order ta ia idx gs T seed tm (g : rng R)
  images (st' : St R) :
  exec R (run ta ia idx gs T seed tm) g = (Ok images, st') →
  ∃ (b : nat) (cond_embs uncond_embs : list (Tensor3 scalar))
    (uncond_inp cond_inp : @TextEncoderInput scalar) (loop_events : list event)
    (z : ndarray scalar),
    shape0 (pixel_values example) = Ok b ∧
    concept_text_embeddings uncond_inp = None ∧
    is_Some (concept_text_embeddings cond_inp) ∧
    Forall (λ ev, phase_of ev = PhLoop) loop_events ∧
    st_log st'
    = prepare_events example tokenizer unet latent_size seed from_noised_image b
      ++ [EvAdapter TextStream cond_embs token_index;
          EvAdapter ImageStream cond_embs token_index;
          EvAdapter ImageStream uncond_embs token_index;
          EvTextEncoder uncond_inp; EvTextEncoder cond_inp]
      ++ loop_events ++ [EvVaeDecode z].
Proof.
  unfold exec. intros H.
  apply run_inference_ok_inv in H as (p & st1 & c & st2 & r & st3 & Hp & Ha & Hl & Hd).
  apply prepare_log in Hp as (b & Hb & Hp). cbn [st_log app] in Hp.
  apply assemble_ok_full in Ha as (concept & _ & _ & _ & _ & _ & _ & _ & Ha).
  destruct (denoise_loop_log gs tm c (sched_timesteps Sch (p_scheduler p)) 0
              (p_scheduler p) (p_latents p) st2) as (evs & Hevs & Hph).
  rewrite Hl in Hevs. cbn [snd] in Hevs.
  rewrite decode_latents_spec in Hd.
  destruct (py_div sone (scaling_factor vae)) as [inv_scale|e]; [|done].
  injection Hd as _ <-. cbn [st_log].
  exists b, (p_image_embeddings p), (p_uncond_image_embeddings p),
    {| text_input_ids := p_uncond_input_ids p;
       concept_text_embeddings := None;
       concept_placeholder_idx := None |},
    {| text_input_ids := ex_text_input_ids example;
       concept_text_embeddings := Some concept;
       concept_placeholder_idx := Some (ex_concept_placeholder_idx example) |},
    evs, (nd_mul_l inv_scale r.1).
  split; [done|]. split; [done|]. split; [by eexists|]. split; [done|].
  cbv zeta in Ha. rewrite Hevs, Ha, Hp. by rewrite <- !app_assoc.
Qed.

(** *** What a run never does *)

Ltac quiet_phase :=
  first [ apply silent_prepare | apply silent_assemble
        | apply silent_decode | apply silent_loop ];
  by intros [].

Ltac quiet_in f H :=
  match type of H with
  | ?m ?st = (?r, ?st') =>
      let E := fresh "E" in
      assert (E : omap f (st_log st') = omap f (st_log st))
        by (apply (silent_at R f m st st' r); [quiet_phase|exact H]);
      rewrite E; clear E
  end.

Ltac quiet_steps :=
  repeat first
    [ apply silent_ret | apply silent_lift | apply silent_with_rng
    | apply silent_with_rng_result | apply silent_set_rng
    | (apply silent_log; reflexivity)
    | (apply silent_bind; [|intros ?])
    | progress cbv zeta
    | case_match ].

Lemma silent_run {B} (f : event → option B) ta ia idx gs T seed tm :
  silent R f (prep idx T seed) →
  (∀ ev, phase_of ev ≠ PhPrepare → f ev = None) →
  silent R f (run ta ia idx gs T seed tm).
Proof.
  intros Hp Hf. unfold run_inference.
  apply silent_bind; [done|]. intros p.
  apply silent_bind; [apply silent_assemble; intros ev Hev; apply Hf; congruence|].
  intros c.
  apply silent_bind; [apply silent_loop; intros ev Hev; apply Hf; congruence|].
  intros r. apply silent_decode. intros ev Hev. apply Hf. congruence.
Qed.

Lemma silent_prepare_encode idx T seed :
  from_noised_image = false → silent R vae_encode_of (prep idx T seed).
Proof.
  intros Hf. unfold prepare, prepare_inputs, make_uncond_input_ids, make_noise, make_latents.
  rewrite Hf. quiet_steps.
Qed.

Lemma silent_prepare_seed idx T : silent R manual_seed_of (prep idx T None).
Proof.
  unfold prepare, prepare_inputs, make_uncond_input_ids, make_noise, make_latents.
  quiet_steps.
Qed.

Lemma silent_prepare_tokenizer idx T seed :
  is_Some (negative_text_input_ids example) →
  silent R tokenizer_call_of (prep idx T seed).
Proof.
  intros [ids Hids].
  unfold prepare, prepare_inputs, make_uncond_input_ids, make_noise, make_latents.
  rewrite Hids. quiet_steps.
Qed.

(** X7. Whatever its outcome, a run with [from_noised_image = False] never
    calls the VAE encoder, a run without a seed never calls
    [torch.manual_seed], and a run on an example that carries
    [negative_text_input_ids] never calls the tokenizer. *)
Theorem run_inference_never_calls ta ia idx gs T seed tm (g : rng R) :
  let out := exec R (run ta ia idx gs T seed tm) g in
  (from_noised_image = false → omap vae_encode_of (st_log out.2) = []) ∧
  (seed = None → omap manual_seed_of (st_log out.2) = []) ∧
  (is_Some (negative_text_input_ids example) →
     omap tokenizer_call_of (st_log out.2) = []).
Proof.
  cbv zeta. unfold exec. split; [|split].
  - intros Hf.
    apply (silent_run vae_encode_of ta ia idx gs T seed tm
             (silent_prepare_encode idx T seed Hf) (λ ev, ltac:(by destruct ev))).
  - intros ->.
    apply (silent_run manual_seed_of ta ia idx gs T None tm
             (silent_prepare_seed idx T) (λ ev, ltac:(by destruct ev))).
  - intros Hn.
    apply (silent_run tokenizer_call_of ta ia idx gs T seed tm
             (silent_prepare_tokenizer idx T seed Hn) (λ ev, ltac:(by destruct ev))).
Qed.

(** *** Failure is final *)

Lemma denoise_loop_sites_prefix gs tm (c : @Conditioning scalar) (ts : list timestep) :
  ∀ i s l (st : St R),
    ∃ sites,
      map call_site (unet_calls (st_log (loop gs tm c i ts s l st).2))
        = map call_site (unet_calls (st_log st)) ++ sites ∧
      sites `prefix_of` expected_sites c i (length ts).
Proof.
  induction ts as [|t ts IH]; intros i s l st.
  - exists []. cbn. by rewrite app_nil_r.
  - rewrite denoise_loop_cons. cbv zeta. unfold expected_sites. cbn [length seq flat_map].
    destruct (unet_call unet _ t (pair_of c Unconditional)) as [nu|e].
    2:{ exists [(i, Unconditional, pair_of c Unconditional)]. cbn [snd st_log]. split.
        - unfold unet_calls. rewrite omap_app, map_app. cbn. by destruct c.
        - by eexists. }
    assert (Htwo : ∀ (st2 : St R),
              st_log st2 = (st_log st ++
                [EvUNet i (grad_enabled_at Sch tm s i) Unconditional
                   (scale_model_input Sch s l t) t
                   (pair_of c Unconditional).1 (pair_of c Unconditional).2]) ++
                [EvUNet i (grad_enabled_at Sch tm s i) Conditional
                   (scale_model_input Sch s l t) t
                   (pair_of c Conditional).1 (pair_of c Conditional).2] →
              map call_site (unet_calls (st_log st2))
              = map call_site (unet_calls (st_log st))
                ++ [(i, Unconditional, pair_of c Unconditional);
                    (i, Conditional, pair_of c Conditional)]).
    { intros st2 ->. unfold unet_calls. rewrite !omap_app, !map_app. cbn.
      rewrite <- app_assoc. by destruct c. }
    assert (Hpre : [(i, Unconditional, pair_of c Unconditional);
                    (i, Conditional, pair_of c Conditional)]
                   `prefix_of`
                   [(i, Unconditional, pair_of c Unconditional);
                    (i, Conditional, pair_of c Conditional)]
                   ++ flat_map (λ k, [(k, Unconditional, pair_of c Unconditional);
                                      (k, Conditional, pair_of c Conditional)])
                        (seq (S i) (length ts))) by (by eexists).
    destruct (unet_call unet _ t (pair_of c Conditional)) as [nt|e].
    2:{ eexists. split; [by apply Htwo|exact Hpre]. }
    destruct (guided_noise gs nu nt) as [np|e].
    2:{ eexists. split; [by apply Htwo|exact Hpre]. }
    assert (Hthree : ∀ (st3 : St R),
              st_log st3 = ((st_log st ++
                [EvUNet i (grad_enabled_at Sch tm s i) Unconditional
                   (scale_model_input Sch s l t) t
                   (pair_of c Unconditional).1 (pair_of c Unconditional).2]) ++
                [EvUNet i (grad_enabled_at Sch tm s i) Conditional
                   (scale_model_input Sch s l t) t
                   (pair_of c Conditional).1 (pair_of c Conditional).2]) ++
                [EvSchedulerStep i t] →
              map call_site (unet_calls (st_log st3))
              = map call_site (unet_calls (st_log st))
                ++ [(i, Unconditional, pair_of c Unconditional);
                    (i, Conditional, pair_of c Conditional)]).
    { intros st3 ->. unfold unet_calls. rewrite !omap_app, !map_app. cbn.
      rewrite app_nil_r, <- app_assoc. by destruct c. }
    destruct (step Sch s np t l) as [r|e].
    2:{ eexists. split; [by apply Hthree|exact Hpre]. }
    match goal with
    | |- context [loop gs tm c (S i) ts r.2 r.1 ?st3] =>
        destruct (IH (S i) r.2 r.1 st3) as (sites & Hs & Hp);
        rewrite Hs, (Hthree st3 eq_refl)
    end.
    exists ([(i, Unconditional, pair_of c Unconditional);
             (i, Conditional, pair_of c Conditional)] ++ sites).
    split; [by rewrite <- app_assoc|]. by apply prefix_app.
Qed.

(** X8. No evaluation of the U-Net is ever repeated or skipped: whatever the
    outcome of a run, the evaluations it has made are an initial segment of
    the sequence (step 0, unconditional), (step 0, conditional), (step 1,
    unconditional), ... of the [T] requested steps, so never more than
    [2 * T]. *)
Theorem unet_evaluations_are_a_prefix
  (Hlen : ∀ n s0 s, set_timesteps Sch n s0 = Ok s →
            length (sched_timesteps Sch s) = Z.to_nat n)
  ta ia idx gs T seed tm (g : rng R) :
  let out := exec R (run ta ia idx gs T seed tm) g in
  (∃ c, map call_site (unet_calls (st_log out.2))
          `prefix_of` expected_sites c 0 (Z.to_nat T)) ∧
  length (unet_calls (st_log out.2)) ≤ 2 * Z.to_nat T.
Proof.
  cbv zeta. unfold exec.
  assert (Hmain : ∃ c, map call_site
                         (unet_calls (st_log (run ta ia idx gs T seed tm
                                                {| st_rng := g; st_log := [] |}).2))
                       `prefix_of` expected_sites c 0 (Z.to_nat T)).
  { rewrite run_inference_unfold.
    pose (c0 := {| c_uncond_embeddings := [] : Tensor3 scalar;
                   c_uncond_encoder_hidden_states_image := [];
                   c_encoder_hidden_states := [];
                   c_encoder_hidden_states_image := [] |}).
    destruct (prep idx T seed _) as [[p|e] st1] eqn:Hp; cbn [snd].
    2:{ exists c0. unfold unet_calls. quiet_in (@unet_call_of scalar) Hp.
        apply prefix_nil. }
    destruct (asm ta ia p st1) as [[c|e] st2] eqn:Ha; cbn [snd].
    2:{ exists c0. unfold unet_calls. quiet_in (@unet_call_of scalar) Ha.
        quiet_in (@unet_call_of scalar) Hp. apply prefix_nil. }
    edestruct prepare_scheduler as (s0 & _ & Hset); [exact Hp|].
    apply Hlen in Hset.
    destruct (denoise_loop_sites_prefix gs tm c (sched_timesteps Sch (p_scheduler p)) 0
                (p_scheduler p) (p_latents p) st2) as (sites & Hs & Hpre).
    rewrite Hset in Hpre.
    assert (H2 : unet_calls (st_log st2) = [])
      by (unfold unet_calls; quiet_in (@unet_call_of scalar) Ha;
          by quiet_in (@unet_call_of scalar) Hp).
    rewrite H2 in Hs. cbn [map app] in Hs.
    destruct (loop gs tm c 0 _ _ _ st2) as [[r|e] st3] eqn:Hl; cbn [snd] in *.
    - destruct (dec r.1 st3) as [res st4] eqn:Hd. cbn [snd]. exists c.
      unfold unet_calls in *. quiet_in (@unet_call_of scalar) Hd. by rewrite Hs.
    - exists c. by rewrite Hs. }
  split; [done|]. destruct Hmain as (c & Hpre).
  apply prefix_length in Hpre. rewrite length_map, expected_sites_length in Hpre. done.
Qed.

(** X9. The VAE decoder is called at most once, as the last call of the run,
    and only after the loop has gone through all [T] steps with their
    [2 * T] evaluations; a run that raises earlier never decodes. *)
Theorem decode_only_after_the_loop
  (Hlen : ∀ n s0 s, set_timesteps Sch n s0 = Ok s →
            length (sched_timesteps Sch s) = Z.to_nat n)
  ta ia idx gs T seed tm (g : rng R) :
  let out := exec R (run ta ia idx gs T seed tm) g in
  (omap vae_decode_of (st_log out.2) = [] ∧ is_ok out.1 = false) ∨
  (∃ z l, st_log out.2 = l ++ [EvVaeDecode z] ∧
          omap vae_decode_of l = [] ∧
          omap scheduler_step_of l = seq 0 (Z.to_nat T) ∧
          length (unet_calls l) = 2 * Z.to_nat T).
Proof.
  cbv zeta. unfold exec. rewrite run_inference_unfold.
  destruct (prep idx T seed _) as [[p|e] st1] eqn:Hp; cbn [fst snd].
  2:{ left. split; [|done]. by quiet_in (@vae_decode_of scalar) Hp. }
  destruct (asm ta ia p st1) as [[c|e] st2] eqn:Ha; cbn [fst snd].
  2:{ left. split; [|done]. quiet_in (@vae_decode_of scalar) Ha.
      by quiet_in (@vae_decode_of scalar) Hp. }
  destruct (loop gs tm c 0 _ _ _ st2) as [[r|e] st3] eqn:Hl; cbn [fst snd].
  2:{ left. split; [|done]. quiet_in (@vae_decode_of scalar) Hl.
      quiet_in (@vae_decode_of scalar) Ha. by quiet_in (@vae_decode_of scalar) Hp. }
  rewrite decode_latents_spec.
  destruct (py_div sone (scaling_factor vae)) as [inv_scale|e]; cbn [fst snd].
  2:{ left. split; [|done]. quiet_in (@vae_decode_of scalar) Hl.
      quiet_in (@vae_decode_of scalar) Ha. by quiet_in (@vae_decode_of scalar) Hp. }
  right. cbn [snd st_log].
  exists (nd_mul_l inv_scale r.1), (st_log st3).
  split; [done|].
  edestruct prepare_scheduler as (s0 & _ & Hset); [exact Hp|].
  apply Hlen in Hset.
  edestruct denoise_loop_ok_calls as [Hc Hs]; [exact Hl|].
  rewrite Hset in Hc, Hs. split; [|split].
  - quiet_in (@vae_decode_of scalar) Hl. quiet_in (@vae_decode_of scalar) Ha.
    by quiet_in (@vae_decode_of scalar) Hp.
  - rewrite Hs. quiet_in (@scheduler_step_of scalar) Ha.
    by quiet_in (@scheduler_step_of scalar) Hp.
  - rewrite <- (length_map call_site), Hc.
    unfold unet_calls. quiet_in (@unet_call_of scalar) Ha.
    quiet_in (@unet_call_of scalar) Hp. cbn. apply expected_sites_length.
Qed.

(** *** A layer index below the encoder's depth, in a run *)

(** X4. When the vision encoder returns [f] for the image and a configured
    index lies below [-len(f.hidden_states)], the run does not return: the
    selection raises, and neither an adapter nor the U-Net is ever called. *)
Theorem run_inference_index_below_depth
  (f : @ImageEncoderOutput scalar) (pre post : list Z) (j : Z)
  ta ia gs T seed tm (g : rng R) :
  image_encoder (pixel_values_clip example) = Ok f →
  Forall (λ i, (- Z.of_nat (length (hidden_states f)) ≤ i)%Z) pre →
  (j < - Z.of_nat (length (hidden_states f)))%Z →
  let out := exec R (run ta ia (pre ++ j :: post) gs T seed tm) g in
  is_ok out.1 = false ∧
  omap adapter_call_of (st_log out.2) = [] ∧
  unet_calls (st_log out.2) = [].
Proof.
  intros Hf Hpre Hj. cbv zeta. unfold exec. rewrite run_inference_unfold.
  destruct (prep (pre ++ j :: post) T seed _) as [[p|e] st1] eqn:Hp; cbn [fst snd].
  - apply prepare_ok_inv in Hp as [(f' & fu & Hf' & He & _) _].
    rewrite Hf in Hf'. injection Hf' as <-.
    unfold select_embeddings in He.
    rewrite filter_app, filter_cons_True in He by lia.
    by rewrite (mapM_app_raise _ _ _ _ _ _ (mapM_py_index _ _ Hpre) (py_index_below _ _ Hj))
      in He.
  - split; [done|]. unfold unet_calls.
    quiet_in (@adapter_call_of scalar) Hp. by quiet_in (@unet_call_of scalar) Hp.
Qed.

(** *** Where the conditioning of the U-Net comes from *)

Lemma expected_sites_pair (c : @Conditioning scalar) (i n : nat) site :
  site ∈ expected_sites c i n → site.2 = pair_of c site.1.2.
Proof.
  unfold expected_sites. intros (k & _ & Hsite)%list_elem_of_In%in_flat_map.
  cbn in Hsite. destruct Hsite as [<-|[<-|[]]]; done.
Qed.

(** X10. In a run that completes, every evaluation of the U-Net is conditioned
    on values computed once before the loop.  The conditional evaluations get
    the text encoder's output for the prompt with the text adapter's tokens
    injected, and the image adapter's tokens, both adapters applied to the
    selected layers of the vision encoder on the image; the unconditional
    evaluations get the text encoder's output for the unconditional ids with
    nothing injected, and the image adapter's tokens for the selected layers
    of the vision encoder on the all-zero image. *)
Theorem unet_conditioning_data_flow ta ia idx gs T seed tm (g : rng R)
  images (st' : St R) :
  exec R (run ta ia idx gs T seed tm) g = (Ok images, st') →
  ∃ (f fu : @ImageEncoderOutput scalar) (embs uembs : list (Tensor3 scalar))
    (concept : Tensor3 scalar) (uncond_ids : token_ids),
    image_encoder (pixel_values_clip example) = Ok f ∧
    select_embeddings f idx = Ok embs ∧
    image_encoder (zeros_like (pixel_values_clip example)) = Ok fu ∧
    select_embeddings fu idx = Ok uembs ∧
    body ta embs token_index = Ok concept ∧
    ∀ uc, uc ∈ unet_calls (st_log st') →
      match uc_branch uc with
      | Conditional =>
          text_encoder {| text_input_ids := ex_text_input_ids example;
                          concept_text_embeddings := Some concept;
                          concept_placeholder_idx :=
                            Some (ex_concept_placeholder_idx example) |}
            = Ok (uc_hidden uc).1 ∧
          body ia embs token_index = Ok (uc_hidden uc).2
      | Unconditional =>
          text_encoder {| text_input_ids := uncond_ids;
                          concept_text_embeddings := None;
                          concept_placeholder_idx := None |}
            = Ok (uc_hidden uc).1 ∧
          body ia uembs token_index = Ok (uc_hidden uc).2
      end.
Proof.
  unfold exec. intros H.
  apply run_inference_ok_inv in H as (p & st1 & c & st2 & r & st3 & Hp & Ha & Hl & Hd).
  assert (Hcalls : map call_site (unet_calls (st_log st'))
                   = expected_sites c 0 (length (sched_timesteps Sch (p_scheduler p)))).
  { edestruct denoise_loop_ok_calls as [Hc _]; [exact Hl|].
    unfold unet_calls in *. quiet_in (@unet_call_of scalar) Hd. rewrite Hc.
    quiet_in (@unet_call_of scalar) Ha. by quiet_in (@unet_call_of scalar) Hp. }
  apply prepare_ok_inv in Hp as [(f & fu & Hf & He & Hfu & Hue) _].
  apply assemble_ok_full in Ha as (concept & _ & _ & Hta & Hia & Hiau & Hun & Hco & _).
  exists f, fu, (p_image_embeddings p), (p_uncond_image_embeddings p), concept,
    (p_uncond_input_ids p).
  do 5 (split; [done|]). intros uc Huc.
  assert (Hsite : call_site uc ∈ expected_sites c 0
                    (length (sched_timesteps Sch (p_scheduler p))))
    by (rewrite <- Hcalls; by apply list_elem_of_fmap_2).
  apply expected_sites_pair in Hsite. unfold call_site in Hsite. cbn in Hsite.
  rewrite Hsite. by destruct (uc_branch uc).
Qed.

(** *** The lists of layer embeddings *)

Lemma call_adapter_log (s : stream) (m : Module_ scalar)
  (embs : list (Tensor3 scalar)) (k : Z) (st : St R) :
  (call_adapter R s m embs k st).2
  = {| st_rng := st_rng st; st_log := st_log st ++ [EvAdapter s embs k] |}.
Proof.
  unfold call_adapter. rewrite bind_unfold. cbn [log]. rewrite bind_unfold. cbn [lift].
  destruct (bind_keyword _ _ _); [|done]. done.
Qed.

Lemma call_text_encoder_log (inp : @TextEncoderInput scalar) (st : St R) :
  (call_text_encoder R text_encoder inp st).2
  = {| st_rng := st_rng st; st_log := st_log st ++ [EvTextEncoder inp] |}.
Proof. unfold call_text_encoder. rewrite bind_unfold. done. Qed.

(** The adapter calls of [assemble], whatever its outcome. *)
Lemma assemble_adapter_log ta ia (p : Prepared Sch) (st : St R) :
  let three := [(TextStream, p_image_embeddings p);
                (ImageStream, p_image_embeddings p);
                (ImageStream, p_uncond_image_embeddings p)] in
  ∃ l, omap adapter_call_of (st_log (asm ta ia p st).2)
       = omap adapter_call_of (st_log st) ++ l ∧
       l `prefix_of` three ∧
       (is_ok (asm ta ia p st).1 = true → l = three).
Proof.
  cbv zeta. unfold assemble. rewrite bind_unfold.
  pose proof (call_adapter_log TextStream ta (p_image_embeddings p) token_index st) as L1.
  destruct (call_adapter R TextStream ta _ _ st) as [[concept|e] s1]; cbn [snd] in L1;
    subst s1.
  2:{ eexists [_]. cbn [fst snd st_log]. rewrite omap_app.
      split; [done|]. split; [by eexists|done]. }
  rewrite bind_unfold.
  match goal with
  | |- context [call_adapter R ImageStream ia ?e ?k ?s] =>
      pose proof (call_adapter_log ImageStream ia e k s) as L2;
      destruct (call_adapter R ImageStream ia e k s) as [[ehi|e2] s2]; cbn [snd] in L2;
      subst s2
  end.
  2:{ eexists [_; _]. cbn [fst snd st_log]. rewrite !omap_app, <- app_assoc.
      split; [done|]. split; [by eexists|done]. }
  rewrite bind_unfold.
  match goal with
  | |- context [call_adapter R ImageStream ia ?e ?k ?s] =>
      pose proof (call_adapter_log ImageStream ia e k s) as L3;
      destruct (call_adapter R ImageStream ia e k s) as [[uehi|e3] s3]; cbn [snd] in L3;
      subst s3
  end.
  2:{ eexists [_; _; _]. cbn [fst snd st_log]. rewrite !omap_app, <- !app_assoc.
      split; [done|]. split; [done|done]. }
  rewrite bind_unfold.
  match goal with
  | |- context [call_text_encoder R text_encoder ?i ?s] =>
      pose proof (call_text_encoder_log i s) as L4;
      destruct (call_text_encoder R text_encoder i s) as [[ue|e4] s4]; cbn [snd] in L4;
      subst s4
  end.
  2:{ eexists [_; _; _]. cbn [fst snd st_log]. rewrite !omap_app, <- !app_assoc.
      split; [by rewrite app_nil_r|]. split; [done|done]. }
  rewrite bind_unfold.
  match goal with
  | |- context [call_text_encoder R text_encoder ?i ?s] =>
      pose proof (call_text_encoder_log i s) as L5;
      destruct (call_text_encoder R text_encoder i s) as [[eh|e5] s5]; cbn [snd] in L5;
      subst s5
  end.
  - unfold mret, M_ret, ret.
    eexists [_; _; _]. cbn [fst snd st_log]. rewrite !omap_app, <- !app_assoc.
    split; [by rewrite !app_nil_r|]. split; [done|done].
  - eexists [_; _; _]. cbn [fst snd st_log]. rewrite !omap_app, <- !app_assoc.
    split; [by rewrite !app_nil_r|]. split; [done|done].
Qed.

(** C7. A configured layer index that is at least the number of hidden
    states the vision encoder returns is skipped: the conditional and the
    unconditional list of embeddings, and with them the whole run, are what
    they are without it, so no exception comes from it.  The two lists that
    [run_inference] builds, and hands to the adapters, are, for indices
    [0 <= j], the final hidden state followed by the hidden state of every
    configured index in range, in the configured order: the conditional list
    from the encoder's output for the image, the unconditional list from its
    output for the zero image.  Once the noise and the latents are made and
    the encoder has returned for both images, the preparation returns with
    these two lists, whatever indices [0 <= j] are configured. *)
Theorem layer_index_guard ta ia gs T seed tm (pre post : list Z) (i : Z)
  (Hdepth : ∀ x f, image_encoder x = Ok f →
              (Z.of_nat (length (hidden_states f)) ≤ i)%Z) :
  (∀ x f, image_encoder x = Ok f →
     select_embeddings f (pre ++ i :: post) = select_embeddings f (pre ++ post)) ∧
  (∀ st, prep (pre ++ i :: post) T seed st = prep (pre ++ post) T seed st) ∧
  (∀ st, run ta ia (pre ++ i :: post) gs T seed tm st
         = run ta ia (pre ++ post) gs T seed tm st) ∧
  (∀ (f : @ImageEncoderOutput scalar) (idx : list Z),
     Forall (λ j, (0 ≤ j)%Z) idx →
     select_embeddings f idx
     = Ok (last_hidden_state f :: omap (λ j, hidden_states f !! Z.to_nat j) idx)) ∧
  (∀ (f fu : @ImageEncoderOutput scalar) (idx : list Z) (g : rng R),
     Forall (λ j, (0 ≤ j)%Z) idx →
     image_encoder (pixel_values_clip example) = Ok f →
     image_encoder (zeros_like (pixel_values_clip example)) = Ok fu →
     let cond := last_hidden_state f :: omap (λ j, hidden_states f !! Z.to_nat j) idx in
     let uncond :=
       last_hidden_state fu :: omap (λ j, hidden_states fu !! Z.to_nat j) idx in
     let three := [(TextStream, cond); (ImageStream, cond); (ImageStream, uncond)] in
     let out := exec R (run ta ia idx gs T seed tm) g in
     (∀ s ids noise latents (st st_n st_l : St R),
        make_noise R example unet latent_size seed st = (Ok noise, st_n) →
        make_latents R Sch example vae from_noised_image s noise st_n
          = (Ok latents, st_l) →
        prepare_inputs R Sch example image_encoder unet vae idx latent_size seed
          from_noised_image s ids st
        = (Ok {| p_scheduler := s;
                 p_uncond_input_ids := ids;
                 p_latents := nd_mul_r latents (init_noise_sigma Sch s);
                 p_image_embeddings := cond;
                 p_uncond_image_embeddings := uncond |},
           {| st_rng := st_rng st_l;
              st_log := st_log st_l
                        ++ [EvImageEncoder (pixel_values_clip example);
                            EvImageEncoder (zeros_like (pixel_values_clip example))]
           |})) ∧
     (∀ st p st1, prep idx T seed st = (Ok p, st1) →
        p_image_embeddings p = cond ∧ p_uncond_image_embeddings p = uncond) ∧
     omap adapter_call_of (st_log out.2) `prefix_of` three ∧
     (is_ok out.1 = true → omap adapter_call_of (st_log out.2) = three)).
Proof.
  assert (Hsel : ∀ x f, image_encoder x = Ok f →
            select_embeddings f (pre ++ i :: post) = select_embeddings f (pre ++ post)).
  { intros x f Hf. apply select_embeddings_skip. by eapply Hdepth. }
  split; [exact Hsel|]. split; [intros st; by apply prepare_idx_ext|].
  split; [intros st; rewrite !run_inference_unfold;
          by rewrite (prepare_idx_ext _ _ _ _ _ _ _ _ _ _ _ _ _ _ _ Hsel)|].
  split; [apply select_embeddings_in_range|].
  intros f fu idx g Hidx Hf Hfu. cbv zeta.
  assert (Hlists : ∀ st p st1, prep idx T seed st = (Ok p, st1) →
            p_image_embeddings p
            = last_hidden_state f :: omap (λ j, hidden_states f !! Z.to_nat j) idx ∧
            p_uncond_image_embeddings p
            = last_hidden_state fu :: omap (λ j, hidden_states fu !! Z.to_nat j) idx).
  { intros st p st1 Hp.
    apply prepare_ok_inv in Hp as [(f' & fu' & Hf' & He & Hfu' & Hue) _].
    rewrite Hf in Hf'. injection Hf' as <-. rewrite Hfu in Hfu'. injection Hfu' as <-.
    rewrite select_embeddings_in_range in He, Hue by done.
    injection He as <-. injection Hue as <-. done. }
  split.
  { intros s ids noise latents st st_n st_l Hn Hlat. unfold prepare_inputs.
    rewrite bind_unfold, Hn, bind_unfold, Hlat. cbv zeta.
    rewrite bind_unfold. cbn [log]. rewrite bind_unfold. cbn [lift]. rewrite Hf.
    rewrite bind_unfold. cbn [log]. rewrite bind_unfold. cbn [lift]. rewrite Hfu.
    rewrite bind_unfold. cbn [lift]. rewrite select_embeddings_in_range by done.
    rewrite bind_unfold. cbn [lift]. rewrite select_embeddings_in_range by done.
    cbn [st_rng st_log]. by rewrite <- app_assoc. }
  split; [exact Hlists|].
  unfold exec. rewrite run_inference_unfold.
  destruct (prep idx T seed _) as [[p|e] st1] eqn:Hp; cbn [fst snd].
  2:{ quiet_in (@adapter_call_of scalar) Hp. cbn. split; [apply prefix_nil|done]. }
  destruct (Hlists _ _ _ Hp) as [Hc Hu].
  destruct (assemble_adapter_log ta ia p st1) as (l & Hl & Hpre & Hok).
  rewrite Hc, Hu in Hpre, Hok.
  assert (H1 : omap adapter_call_of (st_log st1) = [])
    by (by quiet_in (@adapter_call_of scalar) Hp).
  rewrite H1 in Hl. cbn [app] in Hl.
  destruct (asm ta ia p st1) as [[c|e] st2] eqn:Ha; cbn [fst snd] in *.
  2:{ rewrite Hl. split; [done|done]. }
  destruct (loop gs tm c 0 _ _ _ st2) as [[r|e] st3] eqn:Hloop; cbn [fst snd].
  2:{ quiet_in (@adapter_call_of scalar) Hloop. rewrite Hl. split; [done|done]. }
  destruct (dec r.1 st3) as [res st4] eqn:Hd. cbn [fst snd].
  quiet_in (@adapter_call_of scalar) Hd. quiet_in (@adapter_call_of scalar) Hloop.
  rewrite Hl. rewrite (Hok eq_refl). split; [done|done].
Qed.

End RunMore.

(** ** The selection of layers and the adapter together *)

Section SelectionAndAdapter.
Context {scalar : Type} {ops : ScalarOps scalar}.

Lemma omap_lookup_length {A} (hs : list A) (idx : list Z) :
  Forall (λ j, (- Z.of_nat (length hs) ≤ j)%Z) idx →
  length (omap (λ j, hs !! Z.to_nat (if (j <? 0)%Z then Z.of_nat (length hs) + j else j))
               idx)
  = length (filter (λ j, (j < Z.of_nat (length hs))%Z) idx).
Proof.
  induction 1 as [|j idx Hj _ IH]; [done|]. cbn [omap list_omap].
  destruct (decide (j < Z.of_nat (length hs))%Z) as [Hlt|Hge].
  - rewrite filter_cons_True by done.
    destruct (lookup_lt_is_Some_2 hs
                (Z.to_nat (if (j <? 0)%Z then Z.of_nat (length hs) + j else j)))
      as [x Hx]; [destruct (j <? 0)%Z eqn:E; [apply Z.ltb_lt in E|apply Z.ltb_ge in E]; lia|].
    rewrite Hx. cbn. f_equal. exact IH.
  - rewrite filter_cons_False by done.
    replace (j <? 0)%Z with false by (symmetry; apply Z.ltb_ge; lia).
    rewrite (lookup_ge_None_2 hs (Z.to_nat j)) by lia. exact IH.
Qed.

Lemma omap_lookup_Forall {A} (P : A → Prop) (hs : list A) (g : Z → nat) (idx : list Z) :
  Forall P hs → Forall P (omap (λ j, hs !! g j) idx).
Proof.
  intros Hhs. induction idx as [|j idx IH]; [constructor|]. cbn [omap list_omap].
  destruct (hs !! g j) as [x|] eqn:Hx; [|exact IH].
  constructor; [|exact IH]. rewrite Forall_lookup in Hhs. by eapply Hhs.
Qed.

(** X5. The layer selection of [run_inference] and the adapter's [forward]
    together.  The adapter is built with one branch pair for the last hidden
    state and one per configured index; the vision encoder's states all have
    shape (b, k, clip_embedding_dim) with [k ≥ 2]; no index is below
    [-len(hidden_states)].  Then the selection returns, [forward] on it
    returns, and the tokens have shape (b, 1 + m, cross_attention_dim) where
    [m] counts the configured indices below [len(hidden_states)]: an index
    past the encoder's depth costs one token and raises nothing. *)
Theorem selection_feeds_adapter (w : Init) (clip cross b : nat)
  (f : @ImageEncoderOutput scalar) (idx : list Z) :
  Forall (λ j, (- Z.of_nat (length (hidden_states f)) ≤ j)%Z) idx →
  Forall (λ h, ∃ k : nat, 2 ≤ k ∧ has_shape b k clip h = true)
         (last_hidden_state f :: hidden_states f) →
  ∃ embs out,
    select_embeddings f idx = Ok embs ∧
    length embs
    = 1 + length (filter (λ j, (j < Z.of_nat (length (hidden_states f)))%Z) idx) ∧
    forward (PhotoVerseAdapter_init w clip cross (1 + length idx)) embs = Ok out ∧
    has_shape b (length embs) cross out = true.
Proof.
  intros Hidx Hshapes. inversion Hshapes as [|? ? Hlast Hhs]; subst.
  set (rest := omap (λ j, hidden_states f
                            !! Z.to_nat (if (j <? 0)%Z
                                         then Z.of_nat (length (hidden_states f)) + j
                                         else j)) idx).
  assert (Hlen : length rest
                 = length (filter (λ j, (j < Z.of_nat (length (hidden_states f)))%Z) idx))
    by (by apply omap_lookup_length).
  destruct (forward_ok (PhotoVerseAdapter_init w clip cross (1 + length idx))
              clip cross (1 + length idx) b (last_hidden_state f :: rest))
    as [Hfw Hshape].
  - apply init_wf.
  - done.
  - cbn [length]. rewrite Hlen.
    pose proof (length_filter (λ j, (j < Z.of_nat (length (hidden_states f)))%Z) idx).
    lia.
  - apply embedding_shapes_of_has_shape. constructor; [done|].
    by apply omap_lookup_Forall.
  - exists (last_hidden_state f :: rest),
      (forward_spec (PhotoVerseAdapter_init w clip cross (1 + length idx))
         (last_hidden_state f :: rest)).
    split; [|split; [|split]].
    + unfold select_embeddings. by rewrite mapM_py_index by done.
    + cbn [length]. by rewrite Hlen.
    + exact Hfw.
    + exact Hshape.
Qed.

End SelectionAndAdapter.

(** ** The added properties on small inputs *)

Lemma forward_rejects_wrong_width_witness :
  0 < 2 ∧ length [1; 2; 3]%Z ≠ 2 ∧
  forward (ops := Z_ops) (PhotoVerseAdapter_init (ops := Z_ops) ex_init 2 3 2)
    [[[[1; 2; 3]; [4; 5; 6]]]]%Z
  = Raise (RuntimeError "shape mismatch on the last axis").
Proof.
  split; [lia|]. split; [simpl; lia|].
  apply (forward_rejects_wrong_width (ops := Z_ops) ex_init 2 3 2
           [1; 2; 3]%Z [[4; 5; 6]%Z] [] []); [lia|simpl; lia].
Defined.

Lemma select_embeddings_negative_indices_witness :
  select_embeddings ex_features [-1; 0; 7]%Z
  = Ok (last_hidden_state ex_features ::
        omap (λ j : Z, hidden_states ex_features
                !! Z.to_nat (if (j <? 0)%Z
                             then Z.of_nat (length (hidden_states ex_features)) + j
                             else j)) [-1; 0; 7]%Z) ∧
  select_embeddings ex_features ([-1] ++ -3 :: [0])%Z
  = Raise (IndexError "tuple index out of range").
Proof.
  destruct (select_embeddings_negative_indices ex_features) as [Hsel Hraise]. split.
  - apply Hsel. repeat constructor; simpl; lia.
  - apply Hraise; [repeat constructor; simpl; lia|simpl; lia].
Defined.

Lemma run_inference_index_below_depth_witness :
  let out := exec ex_rng (ex_run None ([0] ++ -3 :: [1])%Z 2 None false) 0%Z in
  ex_image_encoder (pixel_values_clip (ex_example None)) = Ok ex_features ∧
  is_ok out.1 = false ∧
  omap adapter_call_of (st_log out.2) = [] ∧
  unet_calls (st_log out.2) = [].
Proof.
  cbv zeta. split; [reflexivity|].
  apply (run_inference_index_below_depth (ops := Z_ops) ex_rng ex_sched (ex_example None)
           ex_tokenizer ex_image_encoder ex_text_encoder ex_unet ex_vae tt 1 0%Z false
           ex_features [0%Z] [1%Z] (-3)%Z ex_module ex_module 1%Z 2%Z None false 0%Z).
  - reflexivity.
  - repeat constructor; simpl; lia.
  - simpl; lia.
Defined.

Lemma selection_feeds_adapter_witness :
  ∃ embs out,
    select_embeddings ex_features [0; 5; -1]%Z = Ok embs ∧
    length embs
    = 1 + length (filter (λ j, (j < Z.of_nat (length (hidden_states ex_features)))%Z)
                         [0; 5; -1]%Z) ∧
    forward (ops := Z_ops)
      (PhotoVerseAdapter_init (ops := Z_ops) ex_init 2 3 (1 + length [0; 5; -1]%Z))
      embs = Ok out ∧
    has_shape 1 (length embs) 3 out = true.
Proof.
  apply (selection_feeds_adapter (ops := Z_ops) ex_init 2 3 1 ex_features [0; 5; -1]%Z).
  - repeat constructor; simpl; lia.
  - repeat constructor.
    + exists 3. split; [lia|reflexivity].
    + exists 3. split; [lia|reflexivity].
    + exists 2. split; [lia|reflexivity].
Defined.

Lemma run_inference_call_order_witness :
  let out := exec ex_rng (ex_run None [0; 5]%Z 2 (Some 7%Z) true) 0%Z in
  is_ok out.1 = true ∧
  ∃ (b : nat) (cond_embs uncond_embs : list (Tensor3 Z))
    (uncond_inp cond_inp : @TextEncoderInput Z) (loop_events : list (@event Z))
    (z : ndarray Z),
    shape0 (pixel_values (ex_example None)) = Ok b ∧
    concept_text_embeddings uncond_inp = None ∧
    is_Some (concept_text_embeddings cond_inp) ∧
    Forall (λ ev, phase_of ev = PhLoop) loop_events ∧
    st_log out.2
    = prepare_events (ops := Z_ops) (ex_example None) ex_tokenizer ex_unet 1 (Some 7%Z) false b
      ++ [EvAdapter TextStream cond_embs 0%Z;
          EvAdapter ImageStream cond_embs 0%Z;
          EvAdapter ImageStream uncond_embs 0%Z;
          EvTextEncoder uncond_inp; EvTextEncoder cond_inp]
      ++ loop_events ++ [EvVaeDecode z].
Proof.
  cbv zeta. split; [reflexivity|].
  apply (run_inference_call_order (ops := Z_ops) ex_rng ex_sched (ex_example None)
           ex_tokenizer ex_image_encoder ex_text_encoder ex_unet ex_vae tt 1 0%Z false
           ex_module ex_module [0; 5]%Z 1%Z 2%Z (Some 7%Z) true 0%Z
           {| shape := [1; 1; 1; 1]; data := [1%Z] |}).
  reflexivity.
Defined.

Lemma run_inference_never_calls_witness :
  let out := exec ex_rng (ex_run (Some [[0; 0]]%Z) [0]%Z 2 None false) 0%Z in
  omap vae_encode_of (st_log out.2) = [] ∧
  omap manual_seed_of (st_log out.2) = [] ∧
  omap tokenizer_call_of (st_log out.2) = [].
Proof.
  cbv zeta.
  destruct (run_inference_never_calls (ops := Z_ops) ex_rng ex_sched
              (ex_example (Some [[0; 0]]%Z)) ex_tokenizer ex_image_encoder ex_text_encoder
              ex_unet ex_vae tt 1 0%Z false ex_module ex_module [0%Z] 1%Z 2%Z None false 0%Z)
    as (Henc & Hseed & Htok).
  split; [apply Henc; reflexivity|]. split; [apply Hseed; reflexivity|].
  apply Htok. eexists. reflexivity.
Defined.

Lemma unet_evaluations_are_a_prefix_witness :
  let out := exec ex_rng (ex_run_raising 2) 0%Z in
  is_ok out.1 = false ∧
  length (unet_calls (st_log out.2)) = 3 ∧
  (∃ c, map call_site (unet_calls (st_log out.2)) `prefix_of` expected_sites c 0 (Z.to_nat 2)) ∧
  length (unet_calls (st_log out.2)) ≤ 2 * Z.to_nat 2.
Proof.
  cbv zeta. split; [reflexivity|]. split; [reflexivity|].
  apply (unet_evaluations_are_a_prefix (ops := Z_ops) ex_rng ex_sched (ex_example None)
           ex_tokenizer ex_image_encoder ex_text_encoder ex_unet_raising ex_vae tt 1 0%Z
           false ex_sched_length ex_module ex_module [0%Z] 1%Z 2%Z None false 0%Z).
Defined.

Lemma decode_only_after_the_loop_witness :
  let out := exec ex_rng (ex_run_raising 2) 0%Z in
  (omap vae_decode_of (st_log out.2) = [] ∧ is_ok out.1 = false) ∨
  (∃ z l, st_log out.2 = l ++ [EvVaeDecode z] ∧
          omap vae_decode_of l = [] ∧
          omap scheduler_step_of l = seq 0 (Z.to_nat 2) ∧
          length (unet_calls l) = 2 * Z.to_nat 2).
Proof.
  apply (decode_only_after_the_loop (ops := Z_ops) ex_rng ex_sched (ex_example None)
           ex_tokenizer ex_image_encoder ex_text_encoder ex_unet_raising ex_vae tt 1 0%Z
           false ex_sched_length ex_module ex_module [0%Z] 1%Z 2%Z None false 0%Z).
Defined.

Lemma unet_conditioning_data_flow_witness :
  let out := exec ex_rng (ex_run None [0; 5]%Z 2 (Some 7%Z) true) 0%Z in
  is_ok out.1 = true ∧
  ∃ (f fu : @ImageEncoderOutput Z) (embs uembs : list (Tensor3 Z))
    (concept : Tensor3 Z) (uncond_ids : token_ids),
    ex_image_encoder (pixel_values_clip (ex_example None)) = Ok f ∧
    select_embeddings f [0; 5]%Z = Ok embs ∧
    ex_image_encoder (zeros_like (ops := Z_ops) (pixel_values_clip (ex_example None)))
      = Ok fu ∧
    select_embeddings fu [0; 5]%Z = Ok uembs ∧
    body ex_module embs 0%Z = Ok concept ∧
    ∀ uc, uc ∈ unet_calls (st_log out.2) →
      match uc_branch uc with
      | Conditional =>
          ex_text_encoder {| text_input_ids := ex_text_input_ids (ex_example None);
                             concept_text_embeddings := Some concept;
                             concept_placeholder_idx :=
                               Some (ex_concept_placeholder_idx (ex_example None)) |}
            = Ok (uc_hidden uc).1 ∧
          body ex_module embs 0%Z = Ok (uc_hidden uc).2
      | Unconditional =>
          ex_text_encoder {| text_input_ids := uncond_ids;
                             concept_text_embeddings := None;
                             concept_placeholder_idx := None |}
            = Ok (uc_hidden uc).1 ∧
          body ex_module uembs 0%Z = Ok (uc_hidden uc).2
      end.
Proof.
  cbv zeta. split; [reflexivity|].
  apply (unet_conditioning_data_flow (ops := Z_ops) ex_rng ex_sched (ex_example None)
           ex_tokenizer ex_image_encoder ex_text_encoder ex_unet ex_vae tt 1 0%Z false
           ex_module ex_module [0; 5]%Z 1%Z 2%Z (Some 7%Z) true 0%Z
           {| shape := [1; 1; 1; 1]; data := [1%Z] |}).
  reflexivity.
Defined.

Lemma load_photoverse_model_stops_at_first_error_witness :
  let ms := {| m_image_adapter := ∅; m_text_adapter := ∅; m_unet := ex_unet_state |} in
  torch_load_from (tensor := Z) ∅ "missing.pt"
    = Raise (ExternalError "No such file or directory") ∧
  load_photoverse_model ex_load_union (torch_load_from ∅) "missing.pt" ms
  = (ms, Some (ExternalError "No such file or directory")).
Proof.
  cbv zeta. split; [reflexivity|].
  pose proof (load_photoverse_model_stops_at_first_error ex_load_union (torch_load_from ∅)
                "missing.pt"
                {| m_image_adapter := ∅; m_text_adapter := ∅; m_unet := ex_unet_state |})
    as H.
  cbv zeta in H. destruct H as (Hload & _). apply Hload. reflexivity.
Defined.

Lemma checkpoints_do_not_collide_witness :
  Some 5%Z ≠ None ∧
  let p1 := os_path_join "out" (checkpoint_name (Some 5%Z)) in
  let p2 := os_path_join "out" (checkpoint_name None) in
  let fs2 := save_progress ex_state_dict_of ∅ ∅ ∅ "out" None
               (save_progress ex_state_dict_of ∅ ∅ ex_unet_state "out" (Some 5%Z) ∅) in
  p1 ≠ p2 ∧
  fs2 !! p1 = Some (final_state_dict ex_state_dict_of ∅ ∅ ex_unet_state) ∧
  fs2 !! p2 = Some (final_state_dict ex_state_dict_of ∅ ∅ ∅).
Proof.
  split; [discriminate|].
  apply (checkpoints_do_not_collide ex_state_dict_of "out" (Some 5%Z) None
           ∅ ∅ ex_unet_state ∅ ∅ ∅ ∅).
  discriminate.
Defined.


Lemma layer_index_guard_witness :
  (∀ x f, ex_image_encoder x = Ok f →
     select_embeddings f ([0] ++ 5 :: [1])%Z = select_embeddings f ([0] ++ [1])%Z) ∧
  (∀ st, ex_run None ([0] ++ 5 :: [1])%Z 2 None false st
         = ex_run None ([0] ++ [1])%Z 2 None false st) ∧
  let out := exec ex_rng (ex_run None [0; 5; 1]%Z 2 None false) 0%Z in
  let cond := [ex_emb; ex_emb; [[[3; 4]; [3; 4]]]%Z] in
  let uncond := [ex_emb; ex_emb; [[[0; 0]; [0; 0]]]%Z] in
  is_ok out.1 = true ∧
  omap adapter_call_of (st_log out.2)
  = [(TextStream, cond); (ImageStream, cond); (ImageStream, uncond)].
Proof.
  destruct (layer_index_guard (ops := Z_ops) ex_rng ex_sched (ex_example None)
              ex_tokenizer ex_image_encoder ex_text_encoder ex_unet ex_vae tt 1 0%Z false
              ex_module ex_module 1%Z 2%Z None false [0%Z] [1%Z] 5%Z
              ex_image_encoder_depth) as (Hsel & _ & Hrun & _ & Hlists).
  split; [exact Hsel|]. split; [exact Hrun|]. cbv zeta. split; [reflexivity|].
  destruct (Hlists ex_features ex_features_zero [0; 5; 1]%Z 0%Z) as (_ & _ & _ & Hok).
  - repeat constructor; simpl; lia.
  - reflexivity.
  - reflexivity.
  - exact (Hok eq_refl).
Defined.

Lemma save_then_load_witness :
  let ms := {| m_image_adapter := {[ "mapping_0.0.weight" := 0%Z ]};
               m_text_adapter := {[ "mapping_0.0.weight" := 0%Z ]};
               m_unet := {[ "mid.attn2.to_q.weight" := 0%Z;
                            "mid.attn1.to_q.weight" := 0%Z ]} |} in
  let path := os_path_join "out" (checkpoint_name (Some 5%Z)) in
  let fs' := save_progress (λ m, m)
               {[ "mapping_0.0.weight" := 1%Z ]} {[ "mapping_0.0.weight" := 2%Z ]}
               ex_unet_state "out" (Some 5%Z) ∅ in
  let out := load_photoverse_model (nn_load_state_dict (λ _ _ : Z, true))
               (torch_load_from fs') path ms in
  out.2 = None ∧
  m_image_adapter out.1 = {[ "mapping_0.0.weight" := 1%Z ]} ∧
  m_text_adapter out.1 = {[ "mapping_0.0.weight" := 2%Z ]} ∧
  m_unet out.1 !! "mid.attn2.to_q.weight" = Some 7%Z ∧
  m_unet out.1 !! "mid.attn1.to_q.weight" = Some 0%Z.
Proof.
  cbv zeta. split; [vm_compute; reflexivity|].
  destruct (save_then_load (λ _ _ : Z, true)
              {[ "mapping_0.0.weight" := 1%Z ]} {[ "mapping_0.0.weight" := 2%Z ]}
              ex_unet_state "out" (Some 5%Z) ∅
              {| m_image_adapter := {[ "mapping_0.0.weight" := 0%Z ]};
                 m_text_adapter := {[ "mapping_0.0.weight" := 0%Z ]};
                 m_unet := {[ "mid.attn2.to_q.weight" := 0%Z;
                              "mid.attn1.to_q.weight" := 0%Z ]} |})
    as (Hia & Hta & _ & Hun); [vm_compute; reflexivity|].
  split; [exact Hia|]. split; [exact Hta|]. split.
  - apply (Hun "mid.attn2.to_q.weight" 0%Z). reflexivity.
  - apply (Hun "mid.attn1.to_q.weight" 0%Z). reflexivity.
Defined.
